(** * pqdemo: hybrid McEliece + AES-GCM encryption (app.js)

    A shallow embedding of [app.js] -- the base64 helpers,
    [packageCiphertext] / [unpackageCiphertext], [generateKeyPair],
    [encryptMessage], [decryptMessage], [formatSize], the toasts, the
    file helpers and the handlers of the buttons and file inputs --
    together with the platform functions they call ([btoa], [atob], typed
    arrays, the 32-bit integer operators, [TextEncoder] / [TextDecoder],
    [toFixed], [FileReader]).

    The McEliece package and [crypto.subtle] are collaborators that the
    repository does not implement: they are section variables, and the
    theorems that need their contract state it as hypotheses.  So are the
    limits of the JavaScript engine on the length of arrays and strings. *)

From Stdlib.Strings Require Import String Ascii Byte.
From Stdlib Require Import ZArith List Bool Lia.
From Stdlib Require DecimalString.
Import ListNotations.
Local Open Scope Z_scope.

Set Implicit Arguments.

(* ================================================================== *)
(** * Errors and results *)
(* ================================================================== *)

(** Names of the DOMExceptions with which a [crypto.subtle] promise rejects. *)
Inductive SubtleErrorName :=
| OperationError
| DataError
| InvalidAccessError
| SyntaxError.

(** What a call of the modelled code can throw. *)
Inductive error :=
| InvalidCharacterError                (* DOMException of atob / btoa *)
| RangeError                           (* TypedArray.prototype.set *)
| TypeError                            (* TextDecoder in fatal mode *)
| KemError (code : Z)                  (* thrown by the mceliece package *)
| SubtleError (name : SubtleErrorName) (* rejected crypto.subtle promise *).

Inductive result (A : Type) :=
| Ok (a : A)
| Err (e : error).
Arguments Ok {A} a.
Arguments Err {A} e.

Definition rbind {A B} (r : result A) (k : A -> result B) : result B :=
  match r with
  | Ok a => k a
  | Err e => Err e
  end.

Declare Scope result_scope.
Delimit Scope result_scope with result.
Notation "'try' x <- c ; k" := (rbind c (fun x => k))
  (at level 10, x name, c at level 100, k at level 200) : result_scope.

(* ================================================================== *)
(** * The engine *)
(* ================================================================== *)

(** What the JavaScript engine can hold: the longest array that it builds
    and the longest string.  The language leaves both to the engine, which
    throws a RangeError beyond them; the limits of the engines that run
    the page are of the order of 2^27 to 2^32 elements and 2^28 to 2^31
    characters, and none is below 2^24. *)
Class Engine := {
  max_array_length : Z;
  max_string_length : Z;
  engine_limits :
    (2 ^ 24 <=? max_array_length) && (2 ^ 24 <=? max_string_length) = true
}.

(* ================================================================== *)
(** * JavaScript values used by the envelope code *)
(* ================================================================== *)

(** A [Uint8Array] is a list of bytes; a JS string is the list of its
    UTF-16 code units. *)
Definition Uint8Array := list byte.
Definition JSString := list Z.

Definition byte_val (b : byte) : Z := Z.of_N (Byte.to_N b).

(** Storing a number into a [Uint8Array] element keeps it modulo 256. *)
Definition ToUint8 (z : Z) : byte :=
  match Byte.of_N (Z.to_N (z mod 256)) with
  | Some b => b
  | None => x00
  end.

Definition len {A} (l : list A) : Z := Z.of_nat (length l).

(** [ToInt32]: the operand conversion of the bitwise operators. *)
Definition ToInt32 (x : Z) : Z :=
  let m := x mod 2 ^ 32 in
  if 2 ^ 31 <=? m then m - 2 ^ 32 else m.

(** An element read is [undefined] (here [None]) past the end of the array;
    [undefined] converts to 0 under a bitwise operator. *)
Definition index (a : Uint8Array) (i : nat) : option Z :=
  option_map byte_val (nth_error a i).

Definition int32_of (v : option Z) : Z :=
  match v with
  | Some z => ToInt32 z
  | None => 0
  end.

(** [x << k], [x >> k], [x & y], [x | y] *)
Definition js_shl (x k : Z) : Z := ToInt32 (Z.shiftl (ToInt32 x) (k mod 32)).
Definition js_sar (x k : Z) : Z := Z.shiftr (ToInt32 x) (k mod 32).
Definition js_and (x y : Z) : Z := Z.land (ToInt32 x) (ToInt32 y).
Definition js_or (x y : Z) : Z := Z.lor (ToInt32 x) (ToInt32 y).

(** [new Uint8Array(n)] *)
Definition new_Uint8Array (n : Z) : Uint8Array := repeat x00 (Z.to_nat n).

(** [a[i] = v]; a write past the end is ignored. *)
Definition store (a : Uint8Array) (i : nat) (v : Z) : Uint8Array :=
  if (i <? length a)%nat then firstn i a ++ ToUint8 v :: skipn (S i) a else a.

(** [target.set(source, offset)] *)
Definition set (target source : Uint8Array) (offset : Z) : result Uint8Array :=
  if (offset <? 0) || (len target <? len source + offset) then Err RangeError
  else Ok (firstn (Z.to_nat offset) target ++ source
           ++ skipn (Z.to_nat offset + length source) target).

(** [a.slice(start, end)]: a negative index counts from the end, every index
    is clamped to the array, an absent [end] is the length. *)
Definition rel_index (n i : Z) : Z :=
  if i <? 0 then Z.max (n + i) 0 else Z.min i n.

Definition slice {A} (a : list A) (start : Z) (end_ : option Z) : list A :=
  let k := rel_index (len a) start in
  let final := match end_ with
               | Some e => rel_index (len a) e
               | None => len a
               end in
  firstn (Z.to_nat (final - k)) (skipn (Z.to_nat k) a).

(** Code units of an ASCII literal. *)
Fixpoint js (s : string) : JSString :=
  match s with
  | EmptyString => []
  | String c r => Z.of_N (N_of_ascii c) :: js r
  end.

(** [Array.from(items, mapFn)]: a RangeError when the array would be longer
    than the engine builds. *)
Definition Array_from {engine : Engine} {A B} (items : list A)
  (mapFn : A -> B) : result (list B) :=
  if len items <=? max_array_length then Ok (map mapFn items)
  else Err RangeError.

(** A string that the engine makes: a RangeError when it would be longer
    than the engine holds. *)
Definition new_string {engine : Engine} (s : JSString) : result JSString :=
  if len s <=? max_string_length then Ok s else Err RangeError.

(** [chars.join('')], for an array of strings of one character each. *)
Definition join {engine : Engine} (chars : list Z) : result JSString :=
  new_string chars.

(* ================================================================== *)
(** * btoa and atob *)
(* ================================================================== *)

Module Base64.

(** The base64 alphabet: [A-Z a-z 0-9 + /]. *)
Definition char_of_sextet (n : Z) : Z :=
  if n <? 26 then 65 + n
  else if n <? 52 then 97 + (n - 26)
  else if n <? 62 then 48 + (n - 52)
  else if n =? 62 then 43
  else 47.

Definition sextet_of_char (c : Z) : option Z :=
  if (65 <=? c) && (c <=? 90) then Some (c - 65)
  else if (97 <=? c) && (c <=? 122) then Some (c - 97 + 26)
  else if (48 <=? c) && (c <=? 57) then Some (c - 48 + 52)
  else if c =? 43 then Some 62
  else if c =? 47 then Some 63
  else None.

Definition is_alphabet (c : Z) : bool :=
  match sextet_of_char c with
  | Some _ => true
  | None => false
  end.

Definition pad : Z := 61.

(** ASCII whitespace: TAB, LF, FF, CR, SPACE. *)
Definition is_ascii_whitespace (c : Z) : bool :=
  (c =? 9) || (c =? 10) || (c =? 12) || (c =? 13) || (c =? 32).

(** Three octets give four sextets; a final group of one or two octets is
    padded with [=]. *)
Fixpoint encode (l : list Z) : JSString :=
  match l with
  | [] => []
  | [a] =>
      [char_of_sextet (Z.shiftr a 2);
       char_of_sextet (Z.shiftl (Z.land a 3) 4);
       pad; pad]
  | [a; b] =>
      [char_of_sextet (Z.shiftr a 2);
       char_of_sextet (Z.lor (Z.shiftl (Z.land a 3) 4) (Z.shiftr b 4));
       char_of_sextet (Z.shiftl (Z.land b 15) 2);
       pad]
  | a :: b :: c :: rest =>
      char_of_sextet (Z.shiftr a 2)
      :: char_of_sextet (Z.lor (Z.shiftl (Z.land a 3) 4) (Z.shiftr b 4))
      :: char_of_sextet (Z.lor (Z.shiftl (Z.land b 15) 2) (Z.shiftr c 6))
      :: char_of_sextet (Z.land c 63)
      :: encode rest
  end.

(** [btoa(data)]: a code unit above 255 is an [InvalidCharacterError]; the
    text is a string that the engine makes. *)
Definition btoa {engine : Engine} (data : JSString) : result JSString :=
  if forallb (fun c => c <=? 255) data then new_string (encode data)
  else Err InvalidCharacterError.

(** Four sextets give three octets; a final group of two or three sextets
    gives one or two octets, its spare low bits are dropped. *)
Fixpoint decode (l : list Z) : JSString :=
  match l with
  | a :: b :: c :: d :: rest =>
      Z.lor (Z.shiftl a 2) (Z.shiftr b 4)
      :: Z.lor (Z.shiftl (Z.land b 15) 4) (Z.shiftr c 2)
      :: Z.lor (Z.shiftl (Z.land c 3) 6) d
      :: decode rest
  | [a; b; c] =>
      [Z.lor (Z.shiftl a 2) (Z.shiftr b 4);
       Z.lor (Z.shiftl (Z.land b 15) 4) (Z.shiftr c 2)]
  | [a; b] => [Z.lor (Z.shiftl a 2) (Z.shiftr b 4)]
  | _ => []
  end.

Definition strip_one_pad (data : JSString) : JSString :=
  match rev data with
  | c :: r => if c =? pad then rev r else data
  | [] => data
  end.

Definition sextets (data : JSString) : list Z :=
  map (fun c => match sextet_of_char c with Some n => n | None => 0 end) data.

(** [atob(data)], the forgiving-base64 decode: ASCII whitespace is removed;
    when the length is then a multiple of 4, one or two trailing [=] are
    removed; a length of 1 modulo 4 or a character outside the alphabet is
    an [InvalidCharacterError]. *)
Definition atob (data : JSString) : result JSString :=
  let data := filter (fun c => negb (is_ascii_whitespace c)) data in
  let data := if len data mod 4 =? 0
              then strip_one_pad (strip_one_pad data) else data in
  if len data mod 4 =? 1 then Err InvalidCharacterError
  else if negb (forallb is_alphabet data) then Err InvalidCharacterError
  else Ok (decode (sextets data)).

End Base64.

(** The values of a byte, and those of a base64 digit. *)
Definition octet (z : Z) : Prop := 0 <= z < 256.
Definition sextet (z : Z) : Prop := 0 <= z < 64.

(* ================================================================== *)
(** * app.js: utility functions *)
(* ================================================================== *)

Local Open Scope result_scope.

(** [arrayToBase64]: an array of one character per byte, joined, then
    [btoa]. *)
Definition arrayToBase64 {engine : Engine} (uint8Array : Uint8Array)
  : result JSString :=
  try chars <- Array_from uint8Array byte_val;
  try binaryString <- join chars;
  Base64.btoa binaryString.

(** [base64ToArray]: [atob], then one byte per character code. *)
Definition base64ToArray (base64 : JSString) : result Uint8Array :=
  try binaryString <- Base64.atob base64;
  Ok (map ToUint8 binaryString).

Record Envelope := {
  kemCiphertext : Uint8Array;
  iv : Uint8Array;
  encryptedData : Uint8Array
}.

(** The array [combined] that [packageCiphertext] fills in. *)
Definition packageCombined (kemCiphertext iv encryptedData : Uint8Array)
  : result Uint8Array :=
  let encryptedArray := encryptedData in
  let kemLength := len kemCiphertext in
  let totalLength := 4 + kemLength + 12 + len encryptedArray in
  let combined := new_Uint8Array totalLength in
  let combined := store combined 0 (js_and (js_sar kemLength 24) 255) in
  let combined := store combined 1 (js_and (js_sar kemLength 16) 255) in
  let combined := store combined 2 (js_and (js_sar kemLength 8) 255) in
  let combined := store combined 3 (js_and kemLength 255) in
  try combined <- set combined kemCiphertext 4;
  try combined <- set combined iv (4 + kemLength);
  try combined <- set combined encryptedArray (4 + kemLength + 12);
  Ok combined.

Definition packageCiphertext {engine : Engine}
  (kemCiphertext iv encryptedData : Uint8Array) : result JSString :=
  try combined <- packageCombined kemCiphertext iv encryptedData;
  arrayToBase64 combined.

(** The length that [unpackageCiphertext] reads from the first four bytes. *)
Definition readKemLength (combined : Uint8Array) : Z :=
  js_or (js_or (js_or (js_shl (int32_of (index combined 0)) 24)
                      (js_shl (int32_of (index combined 1)) 16))
               (js_shl (int32_of (index combined 2)) 8))
        (int32_of (index combined 3)).

Definition unpackageCombined (combined : Uint8Array) : Envelope :=
  let kemLength := readKemLength combined in
  {| kemCiphertext := slice combined 4 (Some (4 + kemLength));
     iv := slice combined (4 + kemLength) (Some (4 + kemLength + 12));
     encryptedData := slice combined (4 + kemLength + 12) None |}.

Definition unpackageCiphertext (base64Package : JSString) : result Envelope :=
  try combined <- base64ToArray base64Package;
  Ok (unpackageCombined combined).

(* ================================================================== *)
(** * TextEncoder and TextDecoder (UTF-8) *)
(* ================================================================== *)

Module Unicode.

Definition is_lead (c : Z) : bool := (0xD800 <=? c) && (c <=? 0xDBFF).
Definition is_trail (c : Z) : bool := (0xDC00 <=? c) && (c <=? 0xDFFF).

Definition REPLACEMENT : Z := 0xFFFD.
Definition BOM : Z := 0xFEFF.

(** The scalar values of a JS string: a surrogate pair is one code point, an
    unpaired surrogate becomes U+FFFD. *)
Fixpoint scalar_values (s : JSString) : list Z :=
  match s with
  | [] => []
  | c :: rest =>
      if is_lead c then
        match rest with
        | d :: rest' =>
            if is_trail d
            then 0x10000 + Z.shiftl (c - 0xD800) 10 + (d - 0xDC00)
                 :: scalar_values rest'
            else REPLACEMENT :: scalar_values rest
        | [] => [REPLACEMENT]
        end
      else if is_trail c then REPLACEMENT :: scalar_values rest
      else c :: scalar_values rest
  end.

(** The code units of a code point. *)
Definition code_units (cp : Z) : list Z :=
  if cp <=? 0xFFFF then [cp]
  else [0xD800 + Z.shiftr (cp - 0x10000) 10;
        0xDC00 + Z.land (cp - 0x10000) 0x3FF].

(** The UTF-8 encoder, one code point. *)
Definition utf8_encode_cp (cp : Z) : list Z :=
  if cp <=? 0x7F then [cp]
  else if cp <=? 0x7FF then
    [Z.shiftr cp 6 + 0xC0;
     Z.lor 0x80 (Z.land cp 0x3F)]
  else if cp <=? 0xFFFF then
    [Z.shiftr cp 12 + 0xE0;
     Z.lor 0x80 (Z.land (Z.shiftr cp 6) 0x3F);
     Z.lor 0x80 (Z.land cp 0x3F)]
  else
    [Z.shiftr cp 18 + 0xF0;
     Z.lor 0x80 (Z.land (Z.shiftr cp 12) 0x3F);
     Z.lor 0x80 (Z.land (Z.shiftr cp 6) 0x3F);
     Z.lor 0x80 (Z.land cp 0x3F)].

(** The state of the UTF-8 decoder. *)
Record decoder := {
  code_point : Z;
  bytes_seen : Z;
  bytes_needed : Z;
  lower_boundary : Z;
  upper_boundary : Z
}.

Definition initial : decoder :=
  {| code_point := 0; bytes_seen := 0; bytes_needed := 0;
     lower_boundary := 0x80; upper_boundary := 0xBF |}.

Definition between (lo x hi : Z) : bool := (lo <=? x) && (x <=? hi).

(** A byte met when no continuation byte is awaited.  The output is what
    the byte makes the decoder emit: a code point, or [None] for an error. *)
Definition handle_lead (b : Z) : decoder * list (option Z) :=
  if between 0x00 b 0x7F then (initial, [Some b])
  else if between 0xC2 b 0xDF then
    ({| code_point := Z.land b 0x1F; bytes_seen := 0; bytes_needed := 1;
        lower_boundary := 0x80; upper_boundary := 0xBF |}, [])
  else if between 0xE0 b 0xEF then
    ({| code_point := Z.land b 0xF; bytes_seen := 0; bytes_needed := 2;
        lower_boundary := if b =? 0xE0 then 0xA0 else 0x80;
        upper_boundary := if b =? 0xED then 0x9F else 0xBF |}, [])
  else if between 0xF0 b 0xF4 then
    ({| code_point := Z.land b 0x7; bytes_seen := 0; bytes_needed := 3;
        lower_boundary := if b =? 0xF0 then 0x90 else 0x80;
        upper_boundary := if b =? 0xF4 then 0x8F else 0xBF |}, [])
  else (initial, [None]).

(** One byte.  A byte outside the awaited range is an error, resets the
    decoder and is then handled again as the first byte of a sequence. *)
Definition handle (d : decoder) (b : Z) : decoder * list (option Z) :=
  if bytes_needed d =? 0 then handle_lead b
  else if negb (between (lower_boundary d) b (upper_boundary d)) then
    let (d', out) := handle_lead b in (d', None :: out)
  else
    let cp := Z.lor (Z.shiftl (code_point d) 6) (Z.land b 0x3F) in
    if bytes_seen d + 1 =? bytes_needed d then (initial, [Some cp])
    else ({| code_point := cp; bytes_seen := bytes_seen d + 1;
             bytes_needed := bytes_needed d;
             lower_boundary := 0x80; upper_boundary := 0xBF |}, []).

(** The whole input; a sequence cut short by the end of the input is an
    error. *)
Fixpoint run (d : decoder) (bytes : list Z) : list (option Z) :=
  match bytes with
  | [] => if bytes_needed d =? 0 then [] else [None]
  | b :: rest => let (d', out) := handle d b in out ++ run d' rest
  end.

Definition is_code_point (o : option Z) : bool :=
  match o with
  | Some _ => true
  | None => false
  end.

(** An error throws in fatal mode and gives U+FFFD otherwise. *)
Definition utf8_decode (fatal : bool) (bytes : list Z) : result (list Z) :=
  let items := run initial bytes in
  if fatal && negb (forallb is_code_point items) then Err TypeError
  else Ok (map (fun o => match o with Some cp => cp | None => REPLACEMENT end)
               items).

(** Unless the BOM is to be kept, a leading U+FEFF is dropped. *)
Definition strip_bom (ignoreBOM : bool) (cps : list Z) : list Z :=
  if ignoreBOM then cps
  else match cps with
       | cp :: rest => if cp =? BOM then rest else cps
       | [] => cps
       end.

End Unicode.

(** [new TextEncoder().encode(s)] *)
Definition TextEncoder_encode (s : JSString) : Uint8Array :=
  map ToUint8 (flat_map Unicode.utf8_encode_cp (Unicode.scalar_values s)).

(** [new TextDecoder("utf-8", {fatal, ignoreBOM}).decode(data)] *)
Definition TextDecoder_decode (fatal ignoreBOM : bool) (data : Uint8Array)
  : result JSString :=
  try cps <- Unicode.utf8_decode fatal (map byte_val data);
  Ok (flat_map Unicode.code_units (Unicode.strip_bom ignoreBOM cps)).

(* ================================================================== *)
(** * The collaborators: the mceliece package and crypto.subtle *)
(* ================================================================== *)

(** The mceliece package.  Its operations draw their randomness from the
    platform; the model hands it to them as [coins].  A thrown error is
    [inl]. *)
Class McEliece := {
  keyPair_coins : nat;
  encrypt_coins : nat;
  (** [mceliece.keyPair()]: the private key and the public key *)
  kem_keyPair : Uint8Array -> Z + (Uint8Array * Uint8Array);
  (** [mceliece.encrypt(publicKey)]: [cyphertext] and [secret] *)
  kem_encrypt : Uint8Array -> Uint8Array -> Z + (Uint8Array * Uint8Array);
  (** [mceliece.decrypt(cyphertext, privateKey)]: the secret *)
  kem_decrypt : Uint8Array -> Uint8Array -> Z + Uint8Array
}.

Inductive KeyUsage := usage_encrypt | usage_decrypt.

(** [crypto.subtle], for the algorithm [{ name: 'AES-GCM' }]. *)
Class SubtleCrypto := {
  CryptoKey : Type;
  (** [importKey('raw', keyData, { name: 'AES-GCM' }, false, [usage])] *)
  aes_importKey : Uint8Array -> KeyUsage -> SubtleErrorName + CryptoKey;
  (** [encrypt({ name: 'AES-GCM', iv }, key, data)] *)
  aes_encrypt :
    CryptoKey -> Uint8Array -> Uint8Array -> SubtleErrorName + Uint8Array;
  (** [decrypt({ name: 'AES-GCM', iv }, key, data)] *)
  aes_decrypt :
    CryptoKey -> Uint8Array -> Uint8Array -> SubtleErrorName + Uint8Array
}.

(** The calls of cryptographic primitives, in the order they are made. *)
Inductive Call :=
| call_keyPair
| call_mceliece_encrypt (publicKey : Uint8Array)
| call_mceliece_decrypt (cyphertext privateKey : Uint8Array)
| call_importKey (keyData : Uint8Array) (usage : KeyUsage)
| call_subtle_encrypt (iv data : Uint8Array)
| call_subtle_decrypt (iv data : Uint8Array).

(** The world outside a call: the values [crypto.getRandomValues] will
    give, how many of them are used up, and the calls made so far. *)
Record World := {
  rng_tape : nat -> byte;
  rng_pos : nat;
  calls : list Call
}.

Definition M (A : Type) : Type := World -> result A * World.

Definition ret {A} (a : A) : M A := fun w => (Ok a, w).

Definition bind {A B} (m : M A) (k : A -> M B) : M B :=
  fun w =>
    match m w with
    | (Ok a, w') => k a w'
    | (Err e, w') => (Err e, w')
    end.

Definition lift {A} (r : result A) : M A := fun w => (r, w).

Declare Scope M_scope.
Delimit Scope M_scope with M.
Notation "'await' x <- c ; k" := (bind c (fun x => k))
  (at level 10, x name, c at level 100, k at level 200) : M_scope.
Notation "'await' ' p <- c ; k" :=
  (bind c (fun x => match x with p => k end))
  (at level 10, p pattern, c at level 100, k at level 200) : M_scope.

Definition drawn (w : World) (n : nat) : Uint8Array :=
  map (rng_tape w) (seq (rng_pos w) n).

Definition advanced (n : nat) (w : World) : World :=
  {| rng_tape := rng_tape w; rng_pos := (rng_pos w + n)%nat;
     calls := calls w |}.

Definition logged (c : Call) (w : World) : World :=
  {| rng_tape := rng_tape w; rng_pos := rng_pos w; calls := calls w ++ [c] |}.

(** [crypto.getRandomValues(new Uint8Array(n))] *)
Definition getRandomValues (n : nat) : M Uint8Array :=
  fun w => (Ok (drawn w n), advanced n w).

Definition record (c : Call) : M unit :=
  fun w => (Ok tt, logged c w).

Definition kem_outcome {A} (r : Z + A) : result A :=
  match r with
  | inl code => Err (KemError code)
  | inr a => Ok a
  end.

Definition subtle_outcome {A} (r : SubtleErrorName + A) : result A :=
  match r with
  | inl name => Err (SubtleError name)
  | inr a => Ok a
  end.

(* ================================================================== *)
(** * app.js: cryptographic functions *)
(* ================================================================== *)

Section CryptographicFunctions.

Context {engine : Engine} {kem : McEliece} {subtle : SubtleCrypto}.

Local Open Scope M_scope.

Definition mceliece_keyPair : M (Uint8Array * Uint8Array) :=
  await _ <- record call_keyPair;
  await coins <- getRandomValues keyPair_coins;
  lift (kem_outcome (kem_keyPair coins)).

Definition mceliece_encrypt (publicKey : Uint8Array)
  : M (Uint8Array * Uint8Array) :=
  await _ <- record (call_mceliece_encrypt publicKey);
  await coins <- getRandomValues encrypt_coins;
  lift (kem_outcome (kem_encrypt coins publicKey)).

Definition mceliece_decrypt (cyphertext privateKey : Uint8Array)
  : M Uint8Array :=
  await _ <- record (call_mceliece_decrypt cyphertext privateKey);
  lift (kem_outcome (kem_decrypt cyphertext privateKey)).

Definition subtle_importKey (keyData : Uint8Array) (usage : KeyUsage)
  : M CryptoKey :=
  await _ <- record (call_importKey keyData usage);
  lift (subtle_outcome (aes_importKey keyData usage)).

Definition subtle_encrypt (iv : Uint8Array) (key : CryptoKey)
  (data : Uint8Array) : M Uint8Array :=
  await _ <- record (call_subtle_encrypt iv data);
  lift (subtle_outcome (aes_encrypt key iv data)).

Definition subtle_decrypt (iv : Uint8Array) (key : CryptoKey)
  (data : Uint8Array) : M Uint8Array :=
  await _ <- record (call_subtle_decrypt iv data);
  lift (subtle_outcome (aes_decrypt key iv data)).

Record GeneratedKeys := {
  privateKey : JSString;
  publicKey : JSString;
  privateKeySize : Z;
  publicKeySize : Z
}.

Definition generateKeyPair : M GeneratedKeys :=
  await '(privateKey, publicKey) <- mceliece_keyPair;
  await privateKey64 <- lift (arrayToBase64 privateKey);
  await publicKey64 <- lift (arrayToBase64 publicKey);
  ret {| privateKey := privateKey64;
         publicKey := publicKey64;
         privateKeySize := len privateKey;
         publicKeySize := len publicKey |}.

Definition encryptMessage (publicKeyBase64 plaintext : JSString)
  : M JSString :=
  (* 1. Decode the public key *)
  await publicKey <- lift (base64ToArray publicKeyBase64);
  (* 2. Use McEliece to encapsulate a secret (KEM) *)
  await '(kemCiphertext, secret) <- mceliece_encrypt publicKey;
  (* 3. Derive an AES-256 key from the secret *)
  await aesKey <- subtle_importKey secret usage_encrypt;
  (* 4. Generate random IV for AES-GCM *)
  await iv <- getRandomValues 12;
  (* 5. Encrypt plaintext with AES-GCM *)
  let plaintextBytes := TextEncoder_encode plaintext in
  await encryptedData <- subtle_encrypt iv aesKey plaintextBytes;
  (* 6. Package everything together *)
  lift (packageCiphertext kemCiphertext iv encryptedData).

Definition decryptMessage (privateKeyBase64 ciphertextPackage : JSString)
  : M JSString :=
  (* 1. Unpackage the ciphertext *)
  await envelope <- lift (unpackageCiphertext ciphertextPackage);
  (* 2. Decode the private key *)
  await privateKey <- lift (base64ToArray privateKeyBase64);
  (* 3. Use McEliece to recover the secret (KEM decrypt) *)
  await secret <- mceliece_decrypt (kemCiphertext envelope) privateKey;
  (* 4. Derive AES key from secret *)
  await aesKey <- subtle_importKey secret usage_decrypt;
  (* 5. Decrypt with AES-GCM *)
  await decryptedData <-
    subtle_decrypt (iv envelope) aesKey (encryptedData envelope);
  lift (TextDecoder_decode false false decryptedData).

(* ================================================================== *)
(** * app.js: the decrypt button *)
(* ================================================================== *)

Inductive StatusType := loading | success | error_status.

(** What the page shows in the decryption panel, and the console. *)
Record Page := {
  decryptPrivkey_value : JSString;
  ciphertextInput_value : JSString;
  decryptStatus : option (string * StatusType);
  decryptedText_value : JSString;
  decryptedOutput_hidden : bool;
  decryptBtn_loading : bool;
  console : list (string * error)
}.

Definition setStatus (message : string) (type : StatusType) (p : Page) : Page :=
  {| decryptPrivkey_value := decryptPrivkey_value p;
     ciphertextInput_value := ciphertextInput_value p;
     decryptStatus := Some (message, type);
     decryptedText_value := decryptedText_value p;
     decryptedOutput_hidden := decryptedOutput_hidden p;
     decryptBtn_loading := decryptBtn_loading p;
     console := console p |}.

Definition setButtonLoading (loading : bool) (p : Page) : Page :=
  {| decryptPrivkey_value := decryptPrivkey_value p;
     ciphertextInput_value := ciphertextInput_value p;
     decryptStatus := decryptStatus p;
     decryptedText_value := decryptedText_value p;
     decryptedOutput_hidden := decryptedOutput_hidden p;
     decryptBtn_loading := loading;
     console := console p |}.

Definition showDecrypted (decrypted : JSString) (p : Page) : Page :=
  {| decryptPrivkey_value := decryptPrivkey_value p;
     ciphertextInput_value := ciphertextInput_value p;
     decryptStatus := decryptStatus p;
     decryptedText_value := decrypted;
     decryptedOutput_hidden := false;
     decryptBtn_loading := decryptBtn_loading p;
     console := console p |}.

Definition hideDecrypted (p : Page) : Page :=
  {| decryptPrivkey_value := decryptPrivkey_value p;
     ciphertextInput_value := ciphertextInput_value p;
     decryptStatus := decryptStatus p;
     decryptedText_value := decryptedText_value p;
     decryptedOutput_hidden := true;
     decryptBtn_loading := decryptBtn_loading p;
     console := console p |}.

Definition console_error (label : string) (e : error) (p : Page) : Page :=
  {| decryptPrivkey_value := decryptPrivkey_value p;
     ciphertextInput_value := ciphertextInput_value p;
     decryptStatus := decryptStatus p;
     decryptedText_value := decryptedText_value p;
     decryptedOutput_hidden := decryptedOutput_hidden p;
     decryptBtn_loading := decryptBtn_loading p;
     console := console p ++ [(label, e)] |}.

(** White space and line terminators, as [String.prototype.trim] removes
    them. *)
Definition is_js_whitespace (c : Z) : bool :=
  (c =? 0x9) || (c =? 0xA) || (c =? 0xB) || (c =? 0xC) || (c =? 0xD)
  || (c =? 0x20) || (c =? 0xA0) || (c =? 0x1680)
  || ((0x2000 <=? c) && (c <=? 0x200A))
  || (c =? 0x2028) || (c =? 0x2029) || (c =? 0x202F) || (c =? 0x205F)
  || (c =? 0x3000) || (c =? 0xFEFF).

Fixpoint trimStart (s : JSString) : JSString :=
  match s with
  | c :: rest => if is_js_whitespace c then trimStart rest else s
  | [] => []
  end.

Definition trim (s : JSString) : JSString :=
  rev (trimStart (rev (trimStart s))).

Definition is_empty (s : JSString) : bool :=
  match s with
  | [] => true
  | _ => false
  end.

Local Open Scope string_scope.

(** The click handler of the decrypt button.  [elapsed] is the text of the
    elapsed time, which the handler takes from the clock. *)
Definition decryptBtn_click (elapsed : string) (p : Page) (w : World)
  : Page * World :=
  let privateKey := trim (decryptPrivkey_value p) in
  let ciphertext := trim (ciphertextInput_value p) in
  if is_empty privateKey then
    (setStatus "✗ Please provide a private key" error_status p, w)
  else if is_empty ciphertext then
    (setStatus "✗ Please enter the ciphertext to decrypt" error_status p, w)
  else
    let p := setButtonLoading true p in
    let p := setStatus "⏳ Decrypting..." loading p in
    match decryptMessage privateKey ciphertext w with
    | (Ok decrypted, w') =>
        let p := showDecrypted decrypted p in
        let p := setStatus ("✓ Decrypted in " ++ elapsed ++ "s!") success p in
        (setButtonLoading false p, w')
    | (Err e, w') =>
        let p := console_error "Decryption error:" e p in
        let p := setStatus "✗ Decryption failed. Wrong key or corrupted data."
                           error_status p in
        let p := hideDecrypted p in
        (setButtonLoading false p, w')
    end.

End CryptographicFunctions.

(* ================================================================== *)
(** * Stand-ins for the collaborators, to run the code on examples *)
(* ================================================================== *)

Module Toy.

(** An engine with limits of the order of those of V8 on 64 bits. *)
#[local] Instance engine : Engine := {|
  max_array_length := 2 ^ 27;
  max_string_length := 2 ^ 29 - 24;
  engine_limits := eq_refl
|}.

Fixpoint bytes_eqb (a b : Uint8Array) : bool :=
  match a, b with
  | [], [] => true
  | x :: a', y :: b' => Byte.eqb x y && bytes_eqb a' b'
  | _, _ => false
  end.

(** A key pair is four random bytes and their reversal; the secret is the
    32 random bytes of the encapsulation, sent along with the first four
    bytes of the public key. *)
#[local] Instance kem : McEliece := {|
  keyPair_coins := 4;
  encrypt_coins := 32;
  kem_keyPair := fun coins => inr (coins, rev coins);
  kem_encrypt := fun coins publicKey =>
    inr (coins ++ firstn 4 publicKey, coins);
  kem_decrypt := fun cyphertext privateKey =>
    if (length cyphertext =? 36)%nat
       && bytes_eqb (skipn 32 cyphertext) (rev privateKey)
    then inr (firstn 32 cyphertext)
    else inl 1
|}.

(** The sealed data is the plaintext followed by a 16-byte tag made of the
    nonce and of the first four key bytes. *)
Definition tag (key iv : Uint8Array) : Uint8Array :=
  firstn 16 (firstn 12 iv ++ firstn 4 key ++ repeat x00 16).

#[local] Instance subtle : SubtleCrypto := {|
  CryptoKey := Uint8Array * KeyUsage;
  aes_importKey := fun keyData usage =>
    if (length keyData =? 16)%nat || (length keyData =? 24)%nat
       || (length keyData =? 32)%nat
    then inr (keyData, usage) else inl DataError;
  aes_encrypt := fun key iv data =>
    match snd key with
    | usage_encrypt => inr (data ++ tag (fst key) iv)
    | usage_decrypt => inl InvalidAccessError
    end;
  aes_decrypt := fun key iv data =>
    match snd key with
    | usage_decrypt =>
        if (length data <? 16)%nat then inl OperationError
        else if bytes_eqb (skipn (length data - 16) data) (tag (fst key) iv)
        then inr (firstn (length data - 16) data)
        else inl OperationError
    | usage_encrypt => inl InvalidAccessError
    end
|}.

Definition world : World :=
  {| rng_tape := fun n => ToUint8 (7 * Z.of_nat n + 3);
     rng_pos := 0;
     calls := [] |}.

Definition page (privkey ciphertext : JSString) : Page :=
  {| decryptPrivkey_value := privkey;
     ciphertextInput_value := ciphertext;
     decryptStatus := None;
     decryptedText_value := [];
     decryptedOutput_hidden := true;
     decryptBtn_loading := false;
     console := [] |}.

End Toy.

(* ================================================================== *)
(** * The wire format, as the specification words it *)
(* ================================================================== *)

(** The byte at an offset of a buffer, 0 where the buffer has none. *)
Definition byte_at (a : Uint8Array) (i : nat) : Z :=
  match index a i with
  | Some z => z
  | None => 0
  end.

(** The first four bytes read as an unsigned 32-bit big-endian integer. *)
Definition be32 (a : Uint8Array) : Z :=
  byte_at a 0 * 2 ^ 24 + byte_at a 1 * 2 ^ 16 + byte_at a 2 * 2 ^ 8
  + byte_at a 3.

(** The four bytes of an unsigned 32-bit big-endian integer. *)
Definition be32_bytes (n : Z) : Uint8Array :=
  [ToUint8 (n / 2 ^ 24); ToUint8 (n / 2 ^ 16); ToUint8 (n / 2 ^ 8); ToUint8 n].

(** A buffer of 2^31 zero bytes. *)
Definition two_GiB : Uint8Array := repeat x00 (Z.to_nat (2 ^ 31)).

(** A text of 2^27 letters A. *)
Definition long_text : JSString := repeat 0x41 (Z.to_nat (2 ^ 27)).

(** The concrete scenario of the specification: a KEM ciphertext of 240
    zero bytes, the nonce 01 .. 0c, the sealed data de ad be ef. *)
Module Scenario.

Definition kem_ct : Uint8Array := repeat x00 240.

Definition nonce : Uint8Array :=
  [x01; x02; x03; x04; x05; x06; x07; x08; x09; x0a; x0b; x0c].

Definition sealed : Uint8Array := [xde; xad; xbe; xef].

Definition packaged : Uint8Array :=
  [x00; x00; x00; xf0] ++ repeat x00 240 ++ nonce ++ sealed.

End Scenario.

(* ================================================================== *)
(** * Strings that survive UTF-8 *)
(* ================================================================== *)

Definition code_unit (c : Z) : Prop := 0 <= c < 65536.

Definition scalar_value (cp : Z) : Prop :=
  0 <= cp < 0xD800 \/ 0xDFFF < cp <= 0x10FFFF.

(** A string is well formed when each of its surrogates is half of a pair. *)
Fixpoint well_formed (s : JSString) : bool :=
  match s with
  | [] => true
  | c :: rest =>
      if Unicode.is_lead c then
        match rest with
        | d :: rest' => Unicode.is_trail d && well_formed rest'
        | [] => false
        end
      else negb (Unicode.is_trail c) && well_formed rest
  end.

Definition starts_with_BOM (s : JSString) : bool :=
  match s with
  | c :: _ => c =? Unicode.BOM
  | [] => false
  end.

(** Valid UTF-8: the encoding of a sequence of scalar values. *)
Definition valid_utf8 (bytes : list Z) : Prop :=
  exists cps,
    Forall scalar_value cps /\ bytes = flat_map Unicode.utf8_encode_cp cps.

(** The decoder met no error. *)
Definition decoded_without_error (items : list (option Z)) : Prop :=
  forallb Unicode.is_code_point items = true.

(** What is left of a string after [TextEncoder] and [TextDecoder]: its
    scalar values, without a leading U+FEFF. *)
Definition through_utf8 (s : JSString) : JSString :=
  flat_map Unicode.code_units
    (Unicode.strip_bom false (Unicode.scalar_values s)).

(* ================================================================== *)
(** * What the engine can hold *)
(* ================================================================== *)

(** An array of [n] bytes goes through [arrayToBase64] when the engine
    builds an array of [n] elements, holds a string of [n] characters and
    holds the base64 text, of four characters for every three bytes. *)
Definition encodable {engine : Engine} (n : Z) : bool :=
  (n <=? max_array_length) && (n <=? max_string_length)
  && (4 * ((n + 2) / 3) <=? max_string_length).

(** The number of bytes of a package. *)
Definition package_size (kemCiphertext encryptedData : Uint8Array) : Z :=
  4 + len kemCiphertext + 12 + len encryptedData.

(* ================================================================== *)
(** * What the collaborators promise *)
(* ================================================================== *)

(** The KEM: encapsulation against a generated public key succeeds, its
    secret has the 32 bytes of an AES-256 key, its ciphertext is shorter
    than 2^31 bytes, and decapsulation with the private key of the pair
    recovers the secret. *)
Record McEliece_contract (kem : McEliece) : Prop := {
  kem_encrypt_ok :
    forall kc ec sk pk,
      length kc = keyPair_coins -> kem_keyPair kc = inr (sk, pk) ->
      length ec = encrypt_coins ->
      exists ct secret, kem_encrypt ec pk = inr (ct, secret);
  kem_secret_length :
    forall ec pk ct secret,
      length ec = encrypt_coins -> kem_encrypt ec pk = inr (ct, secret) ->
      length secret = 32%nat;
  kem_cyphertext_length :
    forall ec pk ct secret,
      length ec = encrypt_coins -> kem_encrypt ec pk = inr (ct, secret) ->
      len ct < 2 ^ 31;
  kem_decrypt_encrypt :
    forall kc ec sk pk ct secret,
      length kc = keyPair_coins -> kem_keyPair kc = inr (sk, pk) ->
      length ec = encrypt_coins -> kem_encrypt ec pk = inr (ct, secret) ->
      kem_decrypt ct sk = inr secret
}.

(** AES-GCM: a 32-byte key imports, sealing under a 12-byte nonce succeeds,
    and opening under the same key and nonce gives the data back. *)
Record SubtleCrypto_contract (subtle : SubtleCrypto) : Prop := {
  aes_importKey_ok :
    forall keyData usage,
      length keyData = 32%nat ->
      exists key, aes_importKey keyData usage = inr key;
  aes_encrypt_ok :
    forall keyData key iv data,
      aes_importKey keyData usage_encrypt = inr key -> length iv = 12%nat ->
      exists sealed, aes_encrypt key iv data = inr sealed;
  aes_decrypt_encrypt :
    forall keyData key_e key_d iv data sealed,
      aes_importKey keyData usage_encrypt = inr key_e ->
      aes_importKey keyData usage_decrypt = inr key_d ->
      aes_encrypt key_e iv data = inr sealed ->
      aes_decrypt key_d iv sealed = inr data
}.

(** The nonce of a call of [encryptMessage] that starts in the world [w]:
    the 12 values that [crypto.getRandomValues] gives next, once the
    encapsulation has drawn its own. *)
Definition fresh_nonce {kem : McEliece} (w : World) : Uint8Array :=
  drawn (advanced encrypt_coins w) 12.

(** A character that base64 text cannot hold: neither of the alphabet, nor
    [=], nor ASCII white space. *)
Definition foreign_character (c : Z) : bool :=
  negb (Base64.is_alphabet c || (c =? Base64.pad)
        || Base64.is_ascii_whitespace c).

(** Standard base64 without line breaks: groups of four characters of the
    alphabet, the last group possibly ending in one or two [=]. *)
Fixpoint standard_base64 (s : JSString) : bool :=
  match s with
  | [] => true
  | a :: b :: c :: d :: rest =>
      Base64.is_alphabet a && Base64.is_alphabet b
      && match rest with
         | [] =>
             (Base64.is_alphabet c
              && (Base64.is_alphabet d || (d =? Base64.pad)))
             || ((c =? Base64.pad) && (d =? Base64.pad))
         | _ :: _ =>
             Base64.is_alphabet c && Base64.is_alphabet d
             && standard_base64 rest
         end
  | _ => false
  end.

(** The texts that the forgiving decoder takes: ASCII white space apart,
    characters of the alphabet, not 1 modulo 4 in number, or filled up to
    a multiple of 4 by one or two [=]. *)
Definition forgiving_base64 (s : JSString) : Prop :=
  exists body padding,
    filter (fun c => negb (Base64.is_ascii_whitespace c)) s = body ++ padding
    /\ forallb Base64.is_alphabet body = true
    /\ (padding = [] /\ len body mod 4 <> 1
        \/ padding = [Base64.pad] /\ len body mod 4 = 3
        \/ padding = [Base64.pad; Base64.pad] /\ len body mod 4 = 2).

(** What the user sees of the decryption panel (the console is not part of
    it). *)
Definition visible (p : Page)
  : JSString * JSString * option (string * StatusType) * JSString
    * bool * bool :=
  (decryptPrivkey_value p, ciphertextInput_value p, decryptStatus p,
   decryptedText_value p, decryptedOutput_hidden p, decryptBtn_loading p).

(** Packages for the stand-in collaborators. *)
Module Samples.

Definition privateKey64 : JSString := js "AAECAw==".

Definition privateKey : Uint8Array := [x00; x01; x02; x03].

Definition publicKey64 : JSString := js "AwIBAA==".

Definition secret : Uint8Array := repeat x2a 32.

Definition kem_ct : Uint8Array := secret ++ rev privateKey.

Definition package_of (sealed : Uint8Array) : JSString :=
  match @packageCiphertext Toy.engine kem_ct Scenario.nonce sealed with
  | Ok package => package
  | Err _ => []
  end.

(** Sealed data that opens to the byte ff, which is not UTF-8. *)
Definition garbled : Uint8Array := [xff] ++ Toy.tag secret Scenario.nonce.

(** Sealed data with a wrong tag. *)
Definition tampered : Uint8Array := [x41] ++ repeat x00 16.

(** Four bytes that announce 240 bytes of KEM ciphertext, and no more. *)
Definition truncated64 : JSString := js "AAAA8A==".

End Samples.

(* ================================================================== *)
(** * More on the envelope *)
(* ================================================================== *)

(** The nonce as [packageCiphertext] leaves it in the package: its first
    12 bytes, or the nonce and zero bytes up to 12. *)
Definition nonce_field (iv : Uint8Array) : Uint8Array :=
  firstn 12 (iv ++ repeat x00 12).

(* ================================================================== *)
(** * app.js: formatSize *)
(* ================================================================== *)

Module JSNumber.

(** [String(n)] for an integer [n]: its decimal digits (every integer that
    the page formats is a length, far below 10^21). *)
Definition toString (n : Z) : string :=
  DecimalString.NilZero.string_of_int (Z.to_int n).

Fixpoint zeros (k : nat) : string :=
  match k with
  | O => EmptyString
  | S k' => String "0" (zeros k')
  end.

(** [x.toFixed(f)] for the number [x = num / den], [0 <= x < 10^21].  The
    quotients that [formatSize] takes, of a length by a power of two, are
    exact in floating point.  [n] is the integer nearest to [x * 10^f], the
    larger one of two; its digits, filled with zeros to [f + 1] of them,
    get a point before the last [f]. *)
Definition toFixed (num den : Z) (f : nat) : string :=
  let n := (2 * num * 10 ^ Z.of_nat f + den) / (2 * den) in
  let m := toString n in
  match f with
  | O => m
  | _ =>
      let m := if (String.length m <=? f)%nat
               then String.append (zeros (f + 1 - String.length m)) m
               else m in
      let k := String.length m in
      String.append (substring 0 (k - f) m)
        (String.append "." (substring (k - f) f m))
  end.

End JSNumber.

Definition formatSize (bytes : Z) : string :=
  if bytes <? 1024 then String.append (JSNumber.toString bytes) " B"
  else if bytes <? 1024 * 1024
  then String.append (JSNumber.toFixed bytes 1024 1) " KB"
  else String.append (JSNumber.toFixed bytes (1024 * 1024) 2) " MB".

(* ================================================================== *)
(** * app.js: toasts *)
(* ================================================================== *)

(** The elements of class [toast] in the document, in document order, each
    with the identity of its element, and the number of toasts created so
    far (the identity of the next one). *)
Record Toasts := {
  shown : list (nat * string);
  created : nat
}.

(** [showToast(message)]: the first toast of the document is removed, a
    new one is appended to the body; its timer is the event
    [toast_timeout] of its identity. *)
Definition showToast (message : string) (t : Toasts) : Toasts :=
  let remaining := match shown t with
                   | existing :: rest => rest
                   | [] => []
                   end in
  {| shown := remaining ++ [(created t, message)];
     created := S (created t) |}.

(** The timer of the toast [id] fires: [toast.remove()], which does nothing
    to an element that is no longer in the document. *)
Definition toast_timeout (id : nat) (t : Toasts) : Toasts :=
  {| shown := filter (fun toast => negb (fst toast =? id)%nat) (shown t);
     created := created t |}.

Inductive ToastEvent :=
| toast_show (message : string)
| toast_expire (id : nat).

Definition toast_step (t : Toasts) (e : ToastEvent) : Toasts :=
  match e with
  | toast_show message => showToast message t
  | toast_expire id => toast_timeout id t
  end.

Definition toast_run (events : list ToastEvent) (t : Toasts) : Toasts :=
  fold_left toast_step events t.

(** The message of the last [showToast] of a run. *)
Fixpoint last_shown (events : list ToastEvent) (before : option string)
  : option string :=
  match events with
  | [] => before
  | toast_show message :: rest => last_shown rest (Some message)
  | toast_expire _ :: rest => last_shown rest before
  end.

Definition is_expiry_of_other (id : nat) (e : ToastEvent) : bool :=
  match e with
  | toast_show _ => false
  | toast_expire id' => negb (id' =? id)%nat
  end.

(* ================================================================== *)
(** * app.js: files *)
(* ================================================================== *)

(** A file: its name and its bytes, [None] when they cannot be read. *)
Record File := {
  file_name : string;
  file_bytes : option Uint8Array
}.

(** The file that [downloadFile(content, filename)] hands to the browser:
    a [Blob] made of a string holds its UTF-8 encoding. *)
Definition downloadFile (content : JSString) (filename : string) : File :=
  {| file_name := filename;
     file_bytes := Some (TextEncoder_encode content) |}.

Section ReadAsText.

(** The UTF-16 decoders of the platform, big endian ([true]) and little
    endian. *)
Variable utf16_decode : bool -> Uint8Array -> JSString.

Definition utf8_text (bytes : Uint8Array) : JSString :=
  match TextDecoder_decode false true bytes with
  | Ok text => text
  | Err _ => []
  end.

(** Whether the bytes start with a byte order mark. *)
Fixpoint starts_with (mark : list Z) (bytes : Uint8Array) : bool :=
  match mark, bytes with
  | [], _ => true
  | m :: mark', b :: bytes' => (byte_val b =? m) && starts_with mark' bytes'
  | _ :: _, [] => false
  end.

(** [reader.readAsText(file)] without a label: a byte order mark chooses
    the decoder and is not part of the text, UTF-8 is the default, errors
    are replaced. *)
Definition readAsText (bytes : Uint8Array) : JSString :=
  if starts_with [0xEF; 0xBB; 0xBF] bytes then utf8_text (skipn 3 bytes)
  else if starts_with [0xFE; 0xFF] bytes then utf16_decode true (skipn 2 bytes)
  else if starts_with [0xFF; 0xFE] bytes
  then utf16_decode false (skipn 2 bytes)
  else utf8_text bytes.

(** [readFile(file)]: the text, or [None] when the promise rejects. *)
Definition readFile (file : File) : option JSString :=
  option_map readAsText (file_bytes file).

End ReadAsText.

(* ================================================================== *)
(** * app.js: the page and its event handlers *)
(* ================================================================== *)

(** The key generation panel. *)
Record KeygenPanel := {
  generateBtn_loading : bool;
  keygenStatus : option (string * StatusType);
  keysOutput_hidden : bool;
  publicKeyEl_value : JSString;
  privateKeyEl_value : JSString;
  pubkeySize_text : string;
  privkeySize_text : string
}.

(** The encryption panel. *)
Record EncryptPanel := {
  encryptPubkey_value : JSString;
  plaintext_value : JSString;
  encryptBtn_loading : bool;
  encryptStatus : option (string * StatusType);
  ciphertextOutput_hidden : bool;
  ciphertext_value : JSString;
  ciphertextSize_text : string
}.

(** The variables [generatedKeys] and [lastCiphertext] ([None] is [null]),
    the three panels (the console is kept with the decryption panel), the
    toasts and the files downloaded. *)
Record App := {
  generatedKeys_publicKey : option JSString;
  generatedKeys_privateKey : option JSString;
  lastCiphertext : option JSString;
  keygenPanel : KeygenPanel;
  encryptPanel : EncryptPanel;
  decryptPanel : Page;
  toasts : Toasts;
  downloads : list File
}.

Inductive StatusElement := keygen_status | encrypt_status | decrypt_status.

Inductive Button := generateBtn | encryptBtn | decryptBtn.

Definition on_keygenPanel (f : KeygenPanel -> KeygenPanel) (a : App) : App :=
  {| generatedKeys_publicKey := generatedKeys_publicKey a;
     generatedKeys_privateKey := generatedKeys_privateKey a;
     lastCiphertext := lastCiphertext a;
     keygenPanel := f (keygenPanel a);
     encryptPanel := encryptPanel a;
     decryptPanel := decryptPanel a;
     toasts := toasts a;
     downloads := downloads a |}.

Definition on_encryptPanel (f : EncryptPanel -> EncryptPanel) (a : App)
  : App :=
  {| generatedKeys_publicKey := generatedKeys_publicKey a;
     generatedKeys_privateKey := generatedKeys_privateKey a;
     lastCiphertext := lastCiphertext a;
     keygenPanel := keygenPanel a;
     encryptPanel := f (encryptPanel a);
     decryptPanel := decryptPanel a;
     toasts := toasts a;
     downloads := downloads a |}.

Definition on_decryptPanel (f : Page -> Page) (a : App) : App :=
  {| generatedKeys_publicKey := generatedKeys_publicKey a;
     generatedKeys_privateKey := generatedKeys_privateKey a;
     lastCiphertext := lastCiphertext a;
     keygenPanel := keygenPanel a;
     encryptPanel := encryptPanel a;
     decryptPanel := f (decryptPanel a);
     toasts := toasts a;
     downloads := downloads a |}.

Definition on_toasts (f : Toasts -> Toasts) (a : App) : App :=
  {| generatedKeys_publicKey := generatedKeys_publicKey a;
     generatedKeys_privateKey := generatedKeys_privateKey a;
     lastCiphertext := lastCiphertext a;
     keygenPanel := keygenPanel a;
     encryptPanel := encryptPanel a;
     decryptPanel := decryptPanel a;
     toasts := f (toasts a);
     downloads := downloads a |}.

(** [generatedKeys.publicKey = ...; generatedKeys.privateKey = ...] *)
Definition set_generatedKeys (publicKey privateKey : JSString) (a : App)
  : App :=
  {| generatedKeys_publicKey := Some publicKey;
     generatedKeys_privateKey := Some privateKey;
     lastCiphertext := lastCiphertext a;
     keygenPanel := keygenPanel a;
     encryptPanel := encryptPanel a;
     decryptPanel := decryptPanel a;
     toasts := toasts a;
     downloads := downloads a |}.

(** [lastCiphertext = ciphertext] *)
Definition set_lastCiphertext (ciphertext : JSString) (a : App) : App :=
  {| generatedKeys_publicKey := generatedKeys_publicKey a;
     generatedKeys_privateKey := generatedKeys_privateKey a;
     lastCiphertext := Some ciphertext;
     keygenPanel := keygenPanel a;
     encryptPanel := encryptPanel a;
     decryptPanel := decryptPanel a;
     toasts := toasts a;
     downloads := downloads a |}.

Definition downloaded (file : File) (a : App) : App :=
  {| generatedKeys_publicKey := generatedKeys_publicKey a;
     generatedKeys_privateKey := generatedKeys_privateKey a;
     lastCiphertext := lastCiphertext a;
     keygenPanel := keygenPanel a;
     encryptPanel := encryptPanel a;
     decryptPanel := decryptPanel a;
     toasts := toasts a;
     downloads := downloads a ++ [file] |}.

(** The key generation panel, one assignment each. *)
Definition set_generateBtn_loading (loading : bool) (k : KeygenPanel)
  : KeygenPanel :=
  {| generateBtn_loading := loading;
     keygenStatus := keygenStatus k;
     keysOutput_hidden := keysOutput_hidden k;
     publicKeyEl_value := publicKeyEl_value k;
     privateKeyEl_value := privateKeyEl_value k;
     pubkeySize_text := pubkeySize_text k;
     privkeySize_text := privkeySize_text k |}.

Definition set_keygenStatus (message : string) (type : StatusType)
  (k : KeygenPanel) : KeygenPanel :=
  {| generateBtn_loading := generateBtn_loading k;
     keygenStatus := Some (message, type);
     keysOutput_hidden := keysOutput_hidden k;
     publicKeyEl_value := publicKeyEl_value k;
     privateKeyEl_value := privateKeyEl_value k;
     pubkeySize_text := pubkeySize_text k;
     privkeySize_text := privkeySize_text k |}.

Definition set_keysOutput_hidden (hidden : bool) (k : KeygenPanel)
  : KeygenPanel :=
  {| generateBtn_loading := generateBtn_loading k;
     keygenStatus := keygenStatus k;
     keysOutput_hidden := hidden;
     publicKeyEl_value := publicKeyEl_value k;
     privateKeyEl_value := privateKeyEl_value k;
     pubkeySize_text := pubkeySize_text k;
     privkeySize_text := privkeySize_text k |}.

Definition set_publicKeyEl_value (value : JSString) (k : KeygenPanel)
  : KeygenPanel :=
  {| generateBtn_loading := generateBtn_loading k;
     keygenStatus := keygenStatus k;
     keysOutput_hidden := keysOutput_hidden k;
     publicKeyEl_value := value;
     privateKeyEl_value := privateKeyEl_value k;
     pubkeySize_text := pubkeySize_text k;
     privkeySize_text := privkeySize_text k |}.

Definition set_privateKeyEl_value (value : JSString) (k : KeygenPanel)
  : KeygenPanel :=
  {| generateBtn_loading := generateBtn_loading k;
     keygenStatus := keygenStatus k;
     keysOutput_hidden := keysOutput_hidden k;
     publicKeyEl_value := publicKeyEl_value k;
     privateKeyEl_value := value;
     pubkeySize_text := pubkeySize_text k;
     privkeySize_text := privkeySize_text k |}.

Definition set_pubkeySize_text (text : string) (k : KeygenPanel)
  : KeygenPanel :=
  {| generateBtn_loading := generateBtn_loading k;
     keygenStatus := keygenStatus k;
     keysOutput_hidden := keysOutput_hidden k;
     publicKeyEl_value := publicKeyEl_value k;
     privateKeyEl_value := privateKeyEl_value k;
     pubkeySize_text := text;
     privkeySize_text := privkeySize_text k |}.

Definition set_privkeySize_text (text : string) (k : KeygenPanel)
  : KeygenPanel :=
  {| generateBtn_loading := generateBtn_loading k;
     keygenStatus := keygenStatus k;
     keysOutput_hidden := keysOutput_hidden k;
     publicKeyEl_value := publicKeyEl_value k;
     privateKeyEl_value := privateKeyEl_value k;
     pubkeySize_text := pubkeySize_text k;
     privkeySize_text := text |}.

(** The encryption panel, one assignment each. *)
Definition set_encryptPubkey_value (value : JSString) (p : EncryptPanel)
  : EncryptPanel :=
  {| encryptPubkey_value := value;
     plaintext_value := plaintext_value p;
     encryptBtn_loading := encryptBtn_loading p;
     encryptStatus := encryptStatus p;
     ciphertextOutput_hidden := ciphertextOutput_hidden p;
     ciphertext_value := ciphertext_value p;
     ciphertextSize_text := ciphertextSize_text p |}.

(** The user types the message. *)
Definition set_plaintext_value (value : JSString) (p : EncryptPanel)
  : EncryptPanel :=
  {| encryptPubkey_value := encryptPubkey_value p;
     plaintext_value := value;
     encryptBtn_loading := encryptBtn_loading p;
     encryptStatus := encryptStatus p;
     ciphertextOutput_hidden := ciphertextOutput_hidden p;
     ciphertext_value := ciphertext_value p;
     ciphertextSize_text := ciphertextSize_text p |}.

Definition set_encryptBtn_loading (loading : bool) (p : EncryptPanel)
  : EncryptPanel :=
  {| encryptPubkey_value := encryptPubkey_value p;
     plaintext_value := plaintext_value p;
     encryptBtn_loading := loading;
     encryptStatus := encryptStatus p;
     ciphertextOutput_hidden := ciphertextOutput_hidden p;
     ciphertext_value := ciphertext_value p;
     ciphertextSize_text := ciphertextSize_text p |}.

Definition set_encryptStatus (message : string) (type : StatusType)
  (p : EncryptPanel) : EncryptPanel :=
  {| encryptPubkey_value := encryptPubkey_value p;
     plaintext_value := plaintext_value p;
     encryptBtn_loading := encryptBtn_loading p;
     encryptStatus := Some (message, type);
     ciphertextOutput_hidden := ciphertextOutput_hidden p;
     ciphertext_value := ciphertext_value p;
     ciphertextSize_text := ciphertextSize_text p |}.

Definition set_ciphertextOutput_hidden (hidden : bool) (p : EncryptPanel)
  : EncryptPanel :=
  {| encryptPubkey_value := encryptPubkey_value p;
     plaintext_value := plaintext_value p;
     encryptBtn_loading := encryptBtn_loading p;
     encryptStatus := encryptStatus p;
     ciphertextOutput_hidden := hidden;
     ciphertext_value := ciphertext_value p;
     ciphertextSize_text := ciphertextSize_text p |}.

Definition set_ciphertext_value (value : JSString) (p : EncryptPanel)
  : EncryptPanel :=
  {| encryptPubkey_value := encryptPubkey_value p;
     plaintext_value := plaintext_value p;
     encryptBtn_loading := encryptBtn_loading p;
     encryptStatus := encryptStatus p;
     ciphertextOutput_hidden := ciphertextOutput_hidden p;
     ciphertext_value := value;
     ciphertextSize_text := ciphertextSize_text p |}.

Definition set_ciphertextSize_text (text : string) (p : EncryptPanel)
  : EncryptPanel :=
  {| encryptPubkey_value := encryptPubkey_value p;
     plaintext_value := plaintext_value p;
     encryptBtn_loading := encryptBtn_loading p;
     encryptStatus := encryptStatus p;
     ciphertextOutput_hidden := ciphertextOutput_hidden p;
     ciphertext_value := ciphertext_value p;
     ciphertextSize_text := text |}.

(** The fields of the decryption panel that other handlers fill in. *)
Definition set_decryptPrivkey_value (value : JSString) (p : Page) : Page :=
  {| decryptPrivkey_value := value;
     ciphertextInput_value := ciphertextInput_value p;
     decryptStatus := decryptStatus p;
     decryptedText_value := decryptedText_value p;
     decryptedOutput_hidden := decryptedOutput_hidden p;
     decryptBtn_loading := decryptBtn_loading p;
     console := console p |}.

Definition set_ciphertextInput_value (value : JSString) (p : Page) : Page :=
  {| decryptPrivkey_value := decryptPrivkey_value p;
     ciphertextInput_value := value;
     decryptStatus := decryptStatus p;
     decryptedText_value := decryptedText_value p;
     decryptedOutput_hidden := decryptedOutput_hidden p;
     decryptBtn_loading := decryptBtn_loading p;
     console := console p |}.

(** [setStatus(elementId, message, type)] *)
Definition setStatusOf (elementId : StatusElement) (message : string)
  (type : StatusType) : App -> App :=
  match elementId with
  | keygen_status => on_keygenPanel (set_keygenStatus message type)
  | encrypt_status => on_encryptPanel (set_encryptStatus message type)
  | decrypt_status => on_decryptPanel (setStatus message type)
  end.

(** [setButtonLoading(button, loading)] *)
Definition setButtonLoadingOf (button : Button) (loading : bool)
  : App -> App :=
  match button with
  | generateBtn => on_keygenPanel (set_generateBtn_loading loading)
  | encryptBtn => on_encryptPanel (set_encryptBtn_loading loading)
  | decryptBtn => on_decryptPanel (setButtonLoading loading)
  end.

Section Handlers.

Context {engine : Engine} {kem : McEliece} {subtle : SubtleCrypto}.

(** [error.message]: the text that the platform or the mceliece package
    gave the error. *)
Variable message : error -> string.

(** The UTF-16 decoders of the platform, for [readFile]. *)
Variable utf16_decode : bool -> Uint8Array -> JSString.

Local Open Scope string_scope.

(** A handler runs from its first statement to its last; [elapsed] is the
    text of the elapsed time, which the handler takes from the clock. *)

(** Key generation *)
Definition generateBtn_click (elapsed : string) (a : App) (w : World)
  : App * World :=
  let a := setButtonLoadingOf generateBtn true a in
  let a := setStatusOf keygen_status
             "Generating keypair... This may take 10-30 seconds." loading a in
  match generateKeyPair w with
  | (Ok keys, w') =>
      let a := set_generatedKeys (publicKey keys) (privateKey keys) a in
      let a := on_keygenPanel (set_publicKeyEl_value (publicKey keys)) a in
      let a := on_keygenPanel (set_privateKeyEl_value (privateKey keys)) a in
      let a := on_keygenPanel
                 (set_pubkeySize_text
                    ("(" ++ formatSize (publicKeySize keys) ++ ")")) a in
      let a := on_keygenPanel
                 (set_privkeySize_text
                    ("(" ++ formatSize (privateKeySize keys) ++ ")")) a in
      let a := on_keygenPanel (set_keysOutput_hidden false) a in
      let a := setStatusOf keygen_status
                 ("✓ Keypair generated in " ++ elapsed ++ "s!") success a in
      (setButtonLoadingOf generateBtn false a, w')
  | (Err e, w') =>
      let a := on_decryptPanel (console_error "Key generation error:" e) a in
      let a := setStatusOf keygen_status ("✗ Error: " ++ message e)
                 error_status a in
      (setButtonLoadingOf generateBtn false a, w')
  end.

(** Download keys *)
Definition downloadPubkey_click (a : App) : App :=
  let a := downloaded
             (downloadFile (publicKeyEl_value (keygenPanel a))
                "mceliece_public_key.txt") a in
  on_toasts (showToast "✓ Public key downloaded") a.

Definition downloadPrivkey_click (a : App) : App :=
  let a := downloaded
             (downloadFile (privateKeyEl_value (keygenPanel a))
                "mceliece_private_key.txt") a in
  on_toasts (showToast "✓ Private key downloaded") a.

(** Use generated public key for encryption *)
Definition useGeneratedPubkey_click (a : App) : App :=
  match generatedKeys_publicKey a with
  | Some (c :: publicKey) =>
      let a := on_encryptPanel (set_encryptPubkey_value (c :: publicKey)) a in
      on_toasts (showToast "✓ Public key loaded") a
  | _ => on_toasts (showToast "✗ Generate a keypair first") a
  end.

(** Load public key from file; [file] is [e.target.files[0]]. *)
Definition pubkeyFileInput_change (file : option File) (a : App) : App :=
  match file with
  | Some file =>
      match readFile utf16_decode file with
      | Some content =>
          let a := on_encryptPanel (set_encryptPubkey_value (trim content))
                     a in
          on_toasts (showToast "✓ Public key loaded from file") a
      | None => a
      end
  | None => a
  end.

(** What the [catch] block of the encrypt button does. *)
Definition encryptBtn_catch (e : error) (a : App) : App :=
  let a := on_decryptPanel (console_error "Encryption error:" e) a in
  setStatusOf encrypt_status ("✗ Error: " ++ message e) error_status a.

(** Encryption *)
Definition encryptBtn_click (elapsed : string) (a : App) (w : World)
  : App * World :=
  let publicKey := trim (encryptPubkey_value (encryptPanel a)) in
  let plaintext := plaintext_value (encryptPanel a) in
  if is_empty publicKey then
    (setStatusOf encrypt_status "✗ Please provide a public key" error_status a,
     w)
  else if is_empty plaintext then
    (setStatusOf encrypt_status "✗ Please enter a message to encrypt"
       error_status a, w)
  else
    let a := setButtonLoadingOf encryptBtn true a in
    let a := setStatusOf encrypt_status "⏳ Encrypting..." loading a in
    match encryptMessage publicKey plaintext w with
    | (Ok ciphertext, w') =>
        let a := set_lastCiphertext ciphertext a in
        let a := on_encryptPanel (set_ciphertext_value ciphertext) a in
        match base64ToArray ciphertext with
        | Ok bytes =>
            let ciphertextBytes := len bytes in
            let a := on_encryptPanel
                       (set_ciphertextSize_text
                          ("(" ++ formatSize ciphertextBytes ++ ")")) a in
            let a := on_encryptPanel (set_ciphertextOutput_hidden false) a in
            let a := setStatusOf encrypt_status
                       ("✓ Encrypted in " ++ elapsed ++ "s!") success a in
            (setButtonLoadingOf encryptBtn false a, w')
        | Err e =>
            (setButtonLoadingOf encryptBtn false (encryptBtn_catch e a), w')
        end
    | (Err e, w') =>
        (setButtonLoadingOf encryptBtn false (encryptBtn_catch e a), w')
    end.

(** Download ciphertext *)
Definition downloadCiphertext_click (a : App) : App :=
  let a := downloaded
             (downloadFile (ciphertext_value (encryptPanel a))
                "encrypted_message.txt") a in
  on_toasts (showToast "✓ Ciphertext downloaded") a.

(** Use generated private key for decryption *)
Definition useGeneratedPrivkey_click (a : App) : App :=
  match generatedKeys_privateKey a with
  | Some (c :: privateKey) =>
      let a := on_decryptPanel (set_decryptPrivkey_value (c :: privateKey))
                 a in
      on_toasts (showToast "✓ Private key loaded") a
  | _ => on_toasts (showToast "✗ Generate a keypair first") a
  end.

(** Use encrypted ciphertext for decryption *)
Definition useEncryptedCiphertext_click (a : App) : App :=
  match lastCiphertext a with
  | Some (c :: ciphertext) =>
      let a := on_decryptPanel (set_ciphertextInput_value (c :: ciphertext))
                 a in
      on_toasts (showToast "✓ Ciphertext loaded") a
  | _ => on_toasts (showToast "✗ Encrypt a message first") a
  end.

(** Load private key from file *)
Definition privkeyFileInput_change (file : option File) (a : App) : App :=
  match file with
  | Some file =>
      match readFile utf16_decode file with
      | Some content =>
          let a := on_decryptPanel (set_decryptPrivkey_value (trim content))
                     a in
          on_toasts (showToast "✓ Private key loaded from file") a
      | None => a
      end
  | None => a
  end.

(** Load ciphertext from file *)
Definition ciphertextFileInput_change (file : option File) (a : App) : App :=
  match file with
  | Some file =>
      match readFile utf16_decode file with
      | Some content =>
          let a := on_decryptPanel (set_ciphertextInput_value (trim content))
                     a in
          on_toasts (showToast "✓ Ciphertext loaded from file") a
      | None => a
      end
  | None => a
  end.

(** Decryption: the handler of the decrypt button, on the whole page. *)
Definition decryptBtn_click_on (elapsed : string) (a : App) (w : World)
  : App * World :=
  let (p, w') := decryptBtn_click elapsed (decryptPanel a) w in
  (on_decryptPanel (fun _ => p) a, w').

End Handlers.

(** A page on which nothing has happened yet. *)
Definition fresh_page : App :=
  {| generatedKeys_publicKey := None;
     generatedKeys_privateKey := None;
     lastCiphertext := None;
     keygenPanel :=
       {| generateBtn_loading := false;
          keygenStatus := None;
          keysOutput_hidden := true;
          publicKeyEl_value := [];
          privateKeyEl_value := [];
          pubkeySize_text := EmptyString;
          privkeySize_text := EmptyString |};
     encryptPanel :=
       {| encryptPubkey_value := [];
          plaintext_value := [];
          encryptBtn_loading := false;
          encryptStatus := None;
          ciphertextOutput_hidden := true;
          ciphertext_value := [];
          ciphertextSize_text := EmptyString |};
     decryptPanel := Toy.page [] [];
     toasts := {| shown := []; created := 0 |};
     downloads := [] |}.

(** Pages for the stand-in collaborators: the text of an error, a
    platform whose UTF-16 decoders are not used, and a page on which a
    public key and a message have been typed. *)
Module Pages.

Definition error_text (e : error) : string :=
  match e with
  | InvalidCharacterError => "The string is not correctly encoded."
  | _ => "failed"
  end.

Definition no_utf16 (big_endian : bool) (bytes : Uint8Array) : JSString := [].

Definition typed (publicKey plaintext : JSString) : App :=
  on_encryptPanel (set_plaintext_value plaintext)
    (on_encryptPanel (set_encryptPubkey_value publicKey) fresh_page).

End Pages.


(* ================================================================== *)
(** * Bytes and bit operations *)
(* ================================================================== *)

Lemma byte_val_range (b : byte) : 0 <= byte_val b < 256.
Proof.
  unfold byte_val. pose proof (Byte.to_N_bounded b). lia.
Qed.

Lemma ToUint8_byte_val (b : byte) : ToUint8 (byte_val b) = b.
Proof.
  unfold ToUint8. rewrite Z.mod_small by apply byte_val_range.
  unfold byte_val. now rewrite N2Z.id, Byte.of_to_N.
Qed.

Lemma byte_val_ToUint8 (z : Z) : byte_val (ToUint8 z) = z mod 256.
Proof.
  unfold ToUint8, byte_val.
  pose proof (Z.mod_pos_bound z 256 eq_refl) as Hr.
  destruct (Byte.of_N (Z.to_N (z mod 256))) as [b|] eqn:E.
  - apply Byte.to_of_N in E. rewrite E. lia.
  - apply Byte.of_N_None_iff in E. lia.
Qed.

Lemma map_ToUint8_byte_val (l : Uint8Array) :
  map ToUint8 (map byte_val l) = l.
Proof.
  induction l as [|b l IH]; simpl; [reflexivity|].
  now rewrite ToUint8_byte_val, IH.
Qed.

Lemma len_app {A} (l1 l2 : list A) : len (l1 ++ l2) = len l1 + len l2.
Proof. unfold len. rewrite length_app. lia. Qed.

Lemma land_low_bits (x k : Z) :
  0 <= k -> Z.land x (2 ^ k - 1) = x mod 2 ^ k.
Proof.
  intros Hk. rewrite <- Z.land_ones by assumption.
  now rewrite Z.ones_equiv, <- Z.sub_1_r.
Qed.

Lemma land_shiftl_low (x y k : Z) :
  0 <= k -> 0 <= y < 2 ^ k -> Z.land (Z.shiftl x k) y = 0.
Proof.
  intros Hk Hy. apply Z.bits_inj'. intros n Hn.
  rewrite Z.land_spec, Z.bits_0.
  destruct (Z.lt_ge_cases n k) as [Hlt|Hge].
  - rewrite Z.shiftl_spec_low by assumption. reflexivity.
  - rewrite <- (Z.mod_small y (2 ^ k)) by assumption.
    rewrite Z.mod_pow2_bits_high by lia. apply andb_false_r.
Qed.

Lemma lor_shiftl_add (x y k : Z) :
  0 <= k -> 0 <= y < 2 ^ k -> Z.lor (Z.shiftl x k) y = x * 2 ^ k + y.
Proof.
  intros Hk Hy.
  pose proof (Z.add_lor_land (Z.shiftl x k) y) as H.
  rewrite land_shiftl_low in H by assumption.
  rewrite Z.shiftl_mul_pow2 in * by assumption. lia.
Qed.

(** The bit operations of the code, as arithmetic. *)
Lemma land_3 x : Z.land x 3 = x mod 4.
Proof. exact (@land_low_bits x 2 ltac:(lia)). Qed.
Lemma land_7 x : Z.land x 7 = x mod 8.
Proof. exact (@land_low_bits x 3 ltac:(lia)). Qed.
Lemma land_15 x : Z.land x 15 = x mod 16.
Proof. exact (@land_low_bits x 4 ltac:(lia)). Qed.
Lemma land_31 x : Z.land x 31 = x mod 32.
Proof. exact (@land_low_bits x 5 ltac:(lia)). Qed.
Lemma land_63 x : Z.land x 63 = x mod 64.
Proof. exact (@land_low_bits x 6 ltac:(lia)). Qed.
Lemma land_255 x : Z.land x 255 = x mod 256.
Proof. exact (@land_low_bits x 8 ltac:(lia)). Qed.
Lemma land_1023 x : Z.land x 1023 = x mod 1024.
Proof. exact (@land_low_bits x 10 ltac:(lia)). Qed.

Lemma shiftr_const (x k : Z) : 0 <= k -> Z.shiftr x k = x / 2 ^ k.
Proof. apply Z.shiftr_div_pow2. Qed.

Lemma shiftl_const (x k : Z) : 0 <= k -> Z.shiftl x k = x * 2 ^ k.
Proof. apply Z.shiftl_mul_pow2. Qed.

Lemma lor_128 (y : Z) : 0 <= y < 64 -> Z.lor 128 y = 128 + y.
Proof.
  intros Hy. change 128 with (Z.shiftl 2 6) at 1.
  rewrite lor_shiftl_add; lia.
Qed.

(** Turns the masks and shifts by constants of a goal into [mod], [/] and
    [*]. *)
Ltac bits :=
  rewrite ?land_3, ?land_7, ?land_15, ?land_31, ?land_63, ?land_255,
    ?land_1023;
  rewrite ?shiftr_const, ?shiftl_const by lia;
  repeat match goal with
    | |- context [2 ^ ?k] =>
        let v := eval compute in (2 ^ k) in change (2 ^ k) with v
    end.

(** Linear arithmetic with division and remainder by constants. *)
Ltac dlia := Z.div_mod_to_equations; lia.

(** Decides the comparisons of a goal and leaves linear arithmetic. *)
Ltac zbool :=
  repeat match goal with
    | |- context [?a <? ?b] => destruct (Z.ltb_spec a b)
    | |- context [?a <=? ?b] => destruct (Z.leb_spec a b)
    | |- context [?a =? ?b] => destruct (Z.eqb_spec a b)
    end; cbn [andb orb negb]; try lia; try reflexivity; try discriminate.

(** Evaluates the comparisons that the hypotheses decide. *)
Ltac zeval :=
  repeat match goal with
    | |- context [?a <? ?b] =>
        first [ replace (a <? b) with true by (symmetry; apply Z.ltb_lt; lia)
              | replace (a <? b) with false by (symmetry; apply Z.ltb_ge; lia) ]
    | |- context [?a <=? ?b] =>
        first [ replace (a <=? b) with true by (symmetry; apply Z.leb_le; lia)
              | replace (a <=? b) with false
                  by (symmetry; apply Z.leb_gt; lia) ]
    | |- context [?a =? ?b] =>
        first [ replace (a =? b) with true by (symmetry; apply Z.eqb_eq; lia)
              | replace (a =? b) with false
                  by (symmetry; apply Z.eqb_neq; lia) ]
    end; cbn [andb orb negb].

(* ================================================================== *)
(** * btoa and atob are inverse on byte strings *)
(* ================================================================== *)

Module Base64Facts.
Import Base64.

Lemma sextet_of_char_of_sextet n :
  sextet n -> sextet_of_char (char_of_sextet n) = Some n.
Proof.
  unfold sextet, char_of_sextet. intros Hn.
  zbool; unfold sextet_of_char; zeval; f_equal; lia.
Qed.

Lemma char_of_sextet_alphabet n :
  sextet n -> is_alphabet (char_of_sextet n) = true.
Proof.
  intros Hn. unfold is_alphabet. now rewrite sextet_of_char_of_sextet.
Qed.

Lemma alphabet_not_pad c : is_alphabet c = true -> (c =? pad) = false.
Proof.
  unfold is_alphabet, sextet_of_char, pad. zbool.
Qed.

Lemma alphabet_range c : is_alphabet c = true -> 43 <= c <= 122.
Proof.
  unfold is_alphabet, sextet_of_char. zbool.
Qed.

Lemma alphabet_not_whitespace c :
  is_alphabet c = true -> is_ascii_whitespace c = false.
Proof.
  intros H%alphabet_range. unfold is_ascii_whitespace. now zeval.
Qed.

Lemma pad_not_alphabet : is_alphabet pad = false.
Proof. reflexivity. Qed.

(** The four sextets of three octets, and back. *)
Lemma sextet_1 a : octet a -> sextet (Z.shiftr a 2).
Proof. unfold octet, sextet. intros. bits. dlia. Qed.

Lemma sextet_2 a b :
  octet a -> octet b ->
  Z.lor (Z.shiftl (Z.land a 3) 4) (Z.shiftr b 4) = a mod 4 * 16 + b / 16.
Proof.
  unfold octet. intros. bits.
  change 16 with (2 ^ 4) at 1.
  rewrite <- (@shiftl_const (a mod 4) 4), lor_shiftl_add by dlia. lia.
Qed.

Lemma sextet_3 b c :
  octet b -> octet c ->
  Z.lor (Z.shiftl (Z.land b 15) 2) (Z.shiftr c 6) = b mod 16 * 4 + c / 64.
Proof.
  unfold octet. intros. bits.
  change 4 with (2 ^ 2) at 1.
  rewrite <- (@shiftl_const (b mod 16) 2), lor_shiftl_add by dlia. lia.
Qed.

Lemma octet_1 s1 s2 :
  sextet s2 -> Z.lor (Z.shiftl s1 2) (Z.shiftr s2 4) = s1 * 4 + s2 / 16.
Proof.
  unfold sextet. intros. rewrite lor_shiftl_add; bits; dlia.
Qed.

Lemma octet_2 s2 s3 :
  sextet s3 ->
  Z.lor (Z.shiftl (Z.land s2 15) 4) (Z.shiftr s3 2) = s2 mod 16 * 16 + s3 / 4.
Proof.
  unfold sextet. intros. rewrite lor_shiftl_add; bits; dlia.
Qed.

Lemma octet_3 s3 s4 :
  sextet s4 -> Z.lor (Z.shiftl (Z.land s3 3) 6) s4 = s3 mod 4 * 64 + s4.
Proof.
  unfold sextet. intros. rewrite lor_shiftl_add; bits; dlia.
Qed.

Lemma list_ind3 {A} (P : list A -> Prop) :
  P [] -> (forall a, P [a]) -> (forall a b, P [a; b]) ->
  (forall a b c l, P l -> P (a :: b :: c :: l)) ->
  forall l, P l.
Proof.
  intros H0 H1 H2 H3. fix IH 1.
  intros [|a [|b [|c l]]]; [exact H0 | apply H1 | apply H2 |].
  apply H3, IH.
Qed.

Lemma sextets_cons n rest :
  sextet n -> sextets (char_of_sextet n :: rest) = n :: sextets rest.
Proof.
  intros Hn. unfold sextets. cbn [map].
  now rewrite sextet_of_char_of_sextet.
Qed.

(** The shape of an encoding: characters of the alphabet that decode to
    the octets, then at most two [=], four characters per group. *)
Lemma encode_shape (l : list Z) :
  Forall octet l ->
  exists body padding,
    encode l = body ++ padding
    /\ forallb is_alphabet body = true
    /\ (padding = [] \/ padding = [pad] \/ padding = [pad; pad])
    /\ (len body + len padding) mod 4 = 0
    /\ decode (sextets body) = l.
Proof.
  induction l as [|a|a b|a b c l IH] using list_ind3; intros Hl.
  - exists [], []. repeat split; auto.
  - apply Forall_cons_iff in Hl as [Ha _].
    assert (Hs2 : sextet (Z.shiftl (Z.land a 3) 4))
      by (unfold octet, sextet in *; bits; dlia).
    exists [char_of_sextet (Z.shiftr a 2);
            char_of_sextet (Z.shiftl (Z.land a 3) 4)], [pad; pad].
    repeat split; auto.
    + cbn [forallb].
      now rewrite !char_of_sextet_alphabet by auto using sextet_1.
    + rewrite !sextets_cons by auto using sextet_1. cbn [sextets map decode].
      rewrite octet_1 by assumption. f_equal.
      unfold octet in *; bits; dlia.
  - apply Forall_cons_iff in Hl as [Ha Hl].
    apply Forall_cons_iff in Hl as [Hb _].
    pose proof (sextet_2 Ha Hb) as E2.
    assert (Hs2 : sextet (a mod 4 * 16 + b / 16))
      by (unfold octet, sextet in *; dlia).
    assert (Hs3 : sextet (Z.shiftl (Z.land b 15) 2))
      by (unfold octet, sextet in *; bits; dlia).
    exists [char_of_sextet (Z.shiftr a 2);
            char_of_sextet (a mod 4 * 16 + b / 16);
            char_of_sextet (Z.shiftl (Z.land b 15) 2)], [pad].
    cbn [encode]. rewrite E2. repeat split; auto.
    + cbn [forallb].
      now rewrite !char_of_sextet_alphabet by auto using sextet_1.
    + rewrite !sextets_cons by auto using sextet_1. cbn [sextets map decode].
      rewrite octet_1, octet_2 by assumption. f_equal; [|f_equal].
      * unfold octet in *; bits; dlia.
      * unfold octet in *; bits; dlia.
  - apply Forall_cons_iff in Hl as [Ha Hl].
    apply Forall_cons_iff in Hl as [Hb Hl].
    apply Forall_cons_iff in Hl as [Hc Hl].
    destruct (IH Hl) as (body & padding & E & Halpha & Hpad & Hlen & Hdec).
    pose proof (sextet_2 Ha Hb) as E2. pose proof (sextet_3 Hb Hc) as E3.
    assert (Hs2 : sextet (a mod 4 * 16 + b / 16))
      by (unfold octet, sextet in *; dlia).
    assert (Hs3 : sextet (b mod 16 * 4 + c / 64))
      by (unfold octet, sextet in *; dlia).
    assert (Hs4 : sextet (Z.land c 63))
      by (unfold octet, sextet in *; bits; dlia).
    exists (char_of_sextet (Z.shiftr a 2)
            :: char_of_sextet (a mod 4 * 16 + b / 16)
            :: char_of_sextet (b mod 16 * 4 + c / 64)
            :: char_of_sextet (Z.land c 63) :: body), padding.
    cbn [encode]. rewrite E2, E3, E. repeat split; auto.
    + cbn [forallb].
      now rewrite !char_of_sextet_alphabet by auto using sextet_1.
    + unfold len in *. cbn [length]. rewrite !Nat2Z.inj_succ.
      revert Hlen.
      generalize (Z.of_nat (length body)), (Z.of_nat (length padding)).
      intros. dlia.
    + rewrite !sextets_cons by auto using sextet_1. cbn [decode].
      rewrite Hdec, octet_1, octet_2, octet_3 by assumption.
      f_equal; [|f_equal; [|f_equal]]; unfold octet in *; bits; dlia.
Qed.

Lemma filter_all {A} (f : A -> bool) (l : list A) :
  forallb f l = true -> filter f l = l.
Proof.
  induction l as [|a l IH]; cbn [forallb filter]; [reflexivity|].
  intros [Ha Hl]%andb_prop. now rewrite Ha, IH.
Qed.

Lemma strip_one_pad_alphabet body :
  forallb is_alphabet body = true -> strip_one_pad body = body.
Proof.
  intros H. unfold strip_one_pad.
  destruct (rev body) as [|c r] eqn:E; [reflexivity|].
  assert (Hc : is_alphabet c = true).
  { rewrite forallb_forall in H. apply H, in_rev. rewrite E. now left. }
  now rewrite alphabet_not_pad.
Qed.

Lemma strip_one_pad_snoc l : strip_one_pad (l ++ [pad]) = l.
Proof.
  unfold strip_one_pad. rewrite rev_app_distr. cbn [rev app].
  rewrite Z.eqb_refl. apply rev_involutive.
Qed.

Lemma strip_padding body padding :
  forallb is_alphabet body = true ->
  padding = [] \/ padding = [pad] \/ padding = [pad; pad] ->
  strip_one_pad (strip_one_pad (body ++ padding)) = body.
Proof.
  intros Hb [->|[->| ->]].
  - rewrite app_nil_r. now rewrite !(strip_one_pad_alphabet _ Hb).
  - rewrite strip_one_pad_snoc. now apply strip_one_pad_alphabet.
  - change [pad; pad] with ([pad] ++ [pad]). rewrite app_assoc.
    now rewrite !strip_one_pad_snoc.
Qed.

Lemma atob_encode (l : list Z) : Forall octet l -> atob (encode l) = Ok l.
Proof.
  intros Hl.
  destruct (encode_shape Hl)
    as (body & padding & E & Halpha & Hpad & Hlen & Hdec).
  unfold atob. rewrite E.
  rewrite filter_all.
  2:{ rewrite forallb_app. apply andb_true_intro. split.
      - rewrite forallb_forall in *. intros c Hc.
        now rewrite alphabet_not_whitespace by auto.
      - now destruct Hpad as [->|[->| ->]]. }
  rewrite len_app, Hlen. cbn [Z.eqb].
  rewrite strip_padding by assumption.
  assert (Hmod : len body mod 4 <> 1).
  { assert (0 <= len padding <= 2)
      by (destruct Hpad as [->|[->| ->]]; cbn; lia).
    intros H1. remember (len body) as x. remember (len padding) as y.
    clear - Hlen H1 H. dlia. }
  apply Z.eqb_neq in Hmod. rewrite Hmod, Halpha. cbn [negb].
  now rewrite Hdec.
Qed.

Lemma btoa_octets {engine : Engine} (l : list Z) :
  Forall octet l -> btoa l = new_string (encode l).
Proof.
  intros Hl. unfold btoa.
  replace (forallb (fun c => c <=? 255) l) with true; [reflexivity|].
  symmetry. apply forallb_forall. intros c Hc.
  rewrite Forall_forall in Hl. specialize (Hl c Hc). unfold octet in Hl.
  apply Z.leb_le. lia.
Qed.

End Base64Facts.

Lemma octets_byte_val (a : Uint8Array) :
  Forall octet (map byte_val a).
Proof.
  apply Forall_forall. intros z [b [<- _]]%in_map_iff. apply byte_val_range.
Qed.

(** The only error of [base64ToArray]. *)
Lemma base64ToArray_error (s : JSString) e :
  base64ToArray s = Err e -> e = InvalidCharacterError.
Proof.
  unfold base64ToArray, Base64.atob.
  repeat match goal with
         | |- context [if ?c then _ else _] => destruct c
         end; cbn [rbind]; congruence.
Qed.

(** [base64ToArray] undoes [arrayToBase64]. *)
Lemma base64ToArray_encode (a : Uint8Array) :
  base64ToArray (Base64.encode (map byte_val a)) = Ok a.
Proof.
  unfold base64ToArray.
  rewrite Base64Facts.atob_encode by apply octets_byte_val.
  cbn [rbind]. now rewrite map_ToUint8_byte_val.
Qed.

(* ================================================================== *)
(** * 32-bit integer operators *)
(* ================================================================== *)

Lemma ToInt32_range x : - 2 ^ 31 <= ToInt32 x < 2 ^ 31.
Proof. unfold ToInt32. zbool; dlia. Qed.

Lemma ToInt32_small x : - 2 ^ 31 <= x < 2 ^ 31 -> ToInt32 x = x.
Proof. unfold ToInt32. intros. zbool; dlia. Qed.

Lemma ToInt32_congr x : (ToInt32 x) mod 2 ^ 32 = x mod 2 ^ 32.
Proof. unfold ToInt32. zbool; dlia. Qed.

(** [(n >> k) & 0xff] is byte [k / 8] of [n], whatever the size of [n]. *)
Ltac header_byte_tac n :=
  unfold js_and, js_sar;
  rewrite (@ToInt32_small 255) by lia; rewrite land_255;
  rewrite Z.shiftr_div_pow2 by (cbv; discriminate);
  pose proof (ToInt32_range n);
  rewrite ToInt32_small by
    (match goal with |- context [2 ^ (?k mod 32)] =>
       let v := eval compute in (2 ^ (k mod 32)) in
       change (2 ^ (k mod 32)) with v end; dlia);
  unfold ToInt32 in *;
  match goal with |- context [2 ^ (?k mod 32)] =>
    let v := eval compute in (2 ^ (k mod 32)) in
    change (2 ^ (k mod 32)) with v end;
  change (2 ^ 32) with 4294967296 in *;
  change (2 ^ 31) with 2147483648 in *;
  zbool; dlia.

Lemma header_byte_0 n : js_and (js_sar n 24) 255 = (n / 2 ^ 24) mod 256.
Proof. change (2 ^ 24) with 16777216. header_byte_tac n. Qed.

Lemma header_byte_1 n : js_and (js_sar n 16) 255 = (n / 2 ^ 16) mod 256.
Proof. change (2 ^ 16) with 65536. header_byte_tac n. Qed.

Lemma header_byte_2 n : js_and (js_sar n 8) 255 = (n / 2 ^ 8) mod 256.
Proof. change (2 ^ 8) with 256. header_byte_tac n. Qed.

Lemma header_byte_3 n : js_and n 255 = n mod 256.
Proof.
  unfold js_and. rewrite (@ToInt32_small 255) by lia. rewrite land_255.
  unfold ToInt32. change (2 ^ 32) with 4294967296.
  change (2 ^ 31) with 2147483648. zbool; dlia.
Qed.

Lemma ToUint8_mod z : ToUint8 (z mod 256) = ToUint8 z.
Proof. unfold ToUint8. now rewrite Z.mod_mod by lia. Qed.

(* ================================================================== *)
(** * Typed arrays *)
(* ================================================================== *)

Lemma len_nonneg {A} (l : list A) : 0 <= len l.
Proof. unfold len. lia. Qed.

Lemma len_cons {A} (a : A) (l : list A) : len (a :: l) = 1 + len l.
Proof. unfold len. cbn [length]. lia. Qed.

Lemma len_nil {A} : len (@nil A) = 0.
Proof. reflexivity. Qed.

Lemma len_repeat {A} (a : A) n : len (repeat a n) = Z.of_nat n.
Proof. unfold len. now rewrite repeat_length. Qed.

Lemma to_nat_len {A} (l : list A) : Z.to_nat (len l) = length l.
Proof. unfold len. apply Nat2Z.id. Qed.

Lemma firstn_len_app {A} (l r : list A) : firstn (length l) (l ++ r) = l.
Proof.
  rewrite firstn_app, Nat.sub_diag, firstn_all. cbn [firstn].
  apply app_nil_r.
Qed.

Lemma skipn_len_app {A} (l r : list A) : skipn (length l) (l ++ r) = r.
Proof.
  rewrite skipn_app, Nat.sub_diag, skipn_all. reflexivity.
Qed.

(** [set] overwrites the part of the target that lies under the source. *)
(* ================================================================== *)
(** * arrayToBase64 and the limits of the engine *)
(* ================================================================== *)

Lemma encode_length (l : list Z) :
  len (Base64.encode l) = 4 * ((len l + 2) / 3).
Proof.
  induction l as [| a | a b | a b c l IH] using Base64Facts.list_ind3.
  - reflexivity.
  - reflexivity.
  - reflexivity.
  - cbn [Base64.encode]. rewrite !len_cons, IH.
    pose proof (len_nonneg l). dlia.
Qed.

Lemma len_map {A B} (f : A -> B) (l : list A) : len (map f l) = len l.
Proof. unfold len. now rewrite length_map. Qed.

(** [arrayToBase64] throws a RangeError, and nothing else, when the array
    is longer than the engine takes through its three steps; otherwise it
    returns the base64 text of the bytes. *)
Lemma arrayToBase64_run {engine : Engine} (a : Uint8Array) :
  arrayToBase64 a
  = if encodable (len a) then Ok (Base64.encode (map byte_val a))
    else Err RangeError.
Proof.
  unfold arrayToBase64, Array_from, join, encodable.
  destruct (len a <=? max_array_length); cbn [andb rbind]; [|reflexivity].
  unfold new_string at 1. rewrite len_map.
  destruct (len a <=? max_string_length); cbn [andb rbind]; [|reflexivity].
  rewrite Base64Facts.btoa_octets by apply octets_byte_val.
  unfold new_string. now rewrite encode_length, len_map.
Qed.

Lemma arrayToBase64_ok {engine : Engine} (a : Uint8Array) :
  encodable (len a) = true ->
  arrayToBase64 a = Ok (Base64.encode (map byte_val a)).
Proof. intros H. now rewrite arrayToBase64_run, H. Qed.

Lemma arrayToBase64_inv {engine : Engine} (a : Uint8Array) text :
  arrayToBase64 a = Ok text ->
  encodable (len a) = true /\ text = Base64.encode (map byte_val a).
Proof.
  rewrite arrayToBase64_run. destruct (encodable (len a)); [|discriminate].
  intros [= <-]. now split.
Qed.

(** Every engine takes an array of up to 2^23 bytes. *)
Lemma encodable_small {engine : Engine} (n : Z) :
  n <= 2 ^ 23 -> encodable n = true.
Proof.
  intros Hn. pose proof engine_limits as H.
  apply andb_true_iff in H as [Ha Hs].
  apply Z.leb_le in Ha, Hs. unfold encodable.
  change (2 ^ 24) with 16777216 in *. change (2 ^ 23) with 8388608 in *.
  rewrite !andb_true_iff, !Z.leb_le. repeat split; dlia.
Qed.

(** A package that the engine takes is shorter than the text of the
    package; an engine whose strings are shorter than 2^31 characters
    takes no KEM ciphertext of 2^31 bytes. *)
Lemma encodable_string {engine : Engine} (n : Z) :
  encodable n = true -> n <= max_string_length.
Proof.
  unfold encodable. rewrite !andb_true_iff, !Z.leb_le. tauto.
Qed.

Lemma set_middle (pre mid post src : Uint8Array) (offset : Z) :
  offset = len pre -> length mid = length src ->
  set (pre ++ mid ++ post) src offset = Ok (pre ++ src ++ post).
Proof.
  intros -> Hmid. unfold set.
  replace (len pre <? 0) with false by (pose proof (len_nonneg pre); zbool).
  replace (len (pre ++ mid ++ post) <? len src + len pre) with false.
  2:{ rewrite !len_app. unfold len. rewrite Hmid. zbool. }
  cbn [orb]. rewrite to_nat_len, firstn_len_app.
  rewrite <- Hmid, <- length_app, (app_assoc pre mid post), skipn_len_app.
  reflexivity.
Qed.

(** What [packageCiphertext] writes for a 12-byte nonce: the length of the
    KEM ciphertext in four bytes, most significant first, then the three
    components. *)
Lemma packageCombined_layout (kem iv enc : Uint8Array) :
  len iv = 12 ->
  packageCombined kem iv enc
  = Ok (be32_bytes (len kem) ++ kem ++ iv ++ enc).
Proof.
  intros Hiv. unfold packageCombined, new_Uint8Array.
  replace (Z.to_nat (4 + len kem + 12 + len enc))
    with (4 + (length kem + (12 + length enc)))%nat by (unfold len; lia).
  rewrite !repeat_app. change (repeat x00 4) with [x00; x00; x00; x00].
  cbn [app]. unfold store. cbn [length Nat.ltb Nat.leb firstn skipn app].
  rewrite header_byte_0, header_byte_1, header_byte_2, header_byte_3.
  rewrite !ToUint8_mod.
  change (?a :: ?b :: ?c :: ?d :: ?rest) with ([a; b; c; d] ++ rest).
  rewrite set_middle by (try reflexivity; now rewrite repeat_length).
  cbn [rbind].
  rewrite (app_assoc _ kem).
  rewrite (@set_middle _ (repeat x00 12) _ iv).
  2:{ rewrite len_app. reflexivity. }
  2:{ rewrite repeat_length. unfold len in Hiv. lia. }
  cbn [rbind].
  rewrite (app_assoc _ iv).
  rewrite <- (app_nil_r (repeat x00 (length enc))).
  rewrite (@set_middle _ (repeat x00 (length enc)) [] enc).
  2:{ rewrite !len_app, Hiv. change (len [_; _; _; _]) with 4. lia. }
  2:{ now rewrite repeat_length. }
  cbn [rbind]. rewrite app_nil_r, <- !app_assoc. reflexivity.
Qed.

(* ================================================================== *)
(** * The length field *)
(* ================================================================== *)

Lemma byte_at_range (a : Uint8Array) i : 0 <= byte_at a i < 256.
Proof.
  unfold byte_at, index. destruct (nth_error a i); cbn [option_map].
  - apply byte_val_range.
  - lia.
Qed.

Lemma int32_of_index (a : Uint8Array) i : int32_of (index a i) = byte_at a i.
Proof.
  pose proof (byte_at_range a i) as Hr. unfold byte_at in *.
  destruct (index a i); cbn [int32_of]; [|reflexivity].
  apply ToInt32_small. lia.
Qed.

Lemma lor_scaled (c y k : Z) :
  0 <= k -> 0 <= y < 2 ^ k -> Z.lor (c * 2 ^ k) y = c * 2 ^ k + y.
Proof.
  intros Hk Hy. rewrite <- (lor_shiftl_add c Hk Hy).
  now rewrite Z.shiftl_mul_pow2.
Qed.

(** The shifts and ors of [unpackageCiphertext] give the four bytes as a
    big-endian integer, converted to a signed 32-bit integer. *)
Lemma shift_or_bytes (b0 b1 b2 b3 : Z) :
  0 <= b0 < 256 -> 0 <= b1 < 256 -> 0 <= b2 < 256 -> 0 <= b3 < 256 ->
  js_or (js_or (js_or (js_shl b0 24) (js_shl b1 16)) (js_shl b2 8)) b3
  = ToInt32 (b0 * 2 ^ 24 + b1 * 2 ^ 16 + b2 * 2 ^ 8 + b3).
Proof.
  intros H0 H1 H2 H3.
  set (c := if b0 <? 128 then b0 else b0 - 256).
  assert (Hc : -128 <= c < 128) by (subst c; zbool).
  assert (E0 : js_shl b0 24 = c * 2 ^ 24).
  { unfold js_shl. rewrite (@ToInt32_small b0) by lia.
    rewrite Z.shiftl_mul_pow2 by (cbv; discriminate).
    change (24 mod 32) with 24. subst c. unfold ToInt32.
    change (2 ^ 24) with 16777216. change (2 ^ 32) with 4294967296.
    change (2 ^ 31) with 2147483648. zbool; dlia. }
  assert (E1 : js_shl b1 16 = b1 * 2 ^ 16).
  { unfold js_shl. rewrite (@ToInt32_small b1) by lia.
    rewrite Z.shiftl_mul_pow2 by (cbv; discriminate).
    change (16 mod 32) with 16. apply ToInt32_small. lia. }
  assert (E2 : js_shl b2 8 = b2 * 2 ^ 8).
  { unfold js_shl. rewrite (@ToInt32_small b2) by lia.
    rewrite Z.shiftl_mul_pow2 by (cbv; discriminate).
    change (8 mod 32) with 8. apply ToInt32_small. lia. }
  rewrite E0, E1, E2. unfold js_or.
  rewrite (@ToInt32_small (c * 2 ^ 24)), (@ToInt32_small (b1 * 2 ^ 16)),
    (@ToInt32_small (b2 * 2 ^ 8)), (@ToInt32_small b3) by lia.
  rewrite (@lor_scaled c (b1 * 2 ^ 16) 24) by lia.
  rewrite (@ToInt32_small (c * 2 ^ 24 + b1 * 2 ^ 16)) by lia.
  replace (c * 2 ^ 24 + b1 * 2 ^ 16) with ((c * 2 ^ 8 + b1) * 2 ^ 16) by lia.
  rewrite (@lor_scaled (c * 2 ^ 8 + b1) (b2 * 2 ^ 8) 16) by lia.
  rewrite (@ToInt32_small ((c * 2 ^ 8 + b1) * 2 ^ 16 + b2 * 2 ^ 8)) by lia.
  replace ((c * 2 ^ 8 + b1) * 2 ^ 16 + b2 * 2 ^ 8)
    with ((c * 2 ^ 16 + b1 * 2 ^ 8 + b2) * 2 ^ 8) by lia.
  rewrite (@lor_scaled (c * 2 ^ 16 + b1 * 2 ^ 8 + b2) b3 8) by lia.
  subst c. unfold ToInt32.
  change (2 ^ 24) with 16777216. change (2 ^ 32) with 4294967296.
  change (2 ^ 31) with 2147483648. change (2 ^ 16) with 65536.
  change (2 ^ 8) with 256. zbool; dlia.
Qed.

Lemma readKemLength_signed (a : Uint8Array) :
  readKemLength a = ToInt32 (be32 a).
Proof.
  unfold readKemLength, be32. rewrite !int32_of_index.
  apply shift_or_bytes; apply byte_at_range.
Qed.

Lemma be32_range (a : Uint8Array) : 0 <= be32 a < 2 ^ 32.
Proof.
  unfold be32.
  pose proof (byte_at_range a 0). pose proof (byte_at_range a 1).
  pose proof (byte_at_range a 2). pose proof (byte_at_range a 3). lia.
Qed.

(** Below 2^31 the length read is the unsigned value; from 2^31 on, that is
    when the first byte is 0x80 or more, it is negative. *)
Lemma readKemLength_low (a : Uint8Array) :
  byte_at a 0 < 128 -> readKemLength a = be32 a.
Proof.
  intros H. rewrite readKemLength_signed. apply ToInt32_small.
  pose proof (be32_range a). unfold be32 in *.
  pose proof (byte_at_range a 1). pose proof (byte_at_range a 2).
  pose proof (byte_at_range a 3). pose proof (byte_at_range a 0). lia.
Qed.

Lemma readKemLength_high (a : Uint8Array) :
  128 <= byte_at a 0 ->
  readKemLength a = be32 a - 2 ^ 32 /\ readKemLength a < 0.
Proof.
  intros H. rewrite readKemLength_signed.
  pose proof (be32_range a) as Hr.
  assert (2 ^ 31 <= be32 a).
  { unfold be32. pose proof (byte_at_range a 1).
    pose proof (byte_at_range a 2). pose proof (byte_at_range a 3). lia. }
  unfold ToInt32. rewrite Z.mod_small by assumption.
  destruct (Z.leb_spec (2 ^ 31) (be32 a)); lia.
Qed.

(** The length field that [packageCiphertext] writes is the length of the
    KEM ciphertext modulo 2^32. *)
Lemma be32_be32_bytes (n : Z) (rest : Uint8Array) :
  be32 (be32_bytes n ++ rest) = n mod 2 ^ 32.
Proof.
  unfold be32, be32_bytes, byte_at, index.
  cbn [app nth_error option_map]. rewrite !byte_val_ToUint8.
  change (2 ^ 24) with 16777216. change (2 ^ 32) with 4294967296.
  change (2 ^ 16) with 65536. change (2 ^ 8) with 256. dlia.
Qed.

(* ================================================================== *)
(** * Slices, and unpacking what was packed *)
(* ================================================================== *)

Lemma rel_index_inside n i : 0 <= i <= n -> rel_index n i = i.
Proof. unfold rel_index. intros. zbool. Qed.

Lemma rel_index_range n i : 0 <= n -> 0 <= rel_index n i <= n.
Proof. unfold rel_index. intros. zbool. Qed.

Lemma slice_middle {A} (pre mid post : list A) (start e : Z) :
  start = len pre -> e = len pre + len mid ->
  slice (pre ++ mid ++ post) start (Some e) = mid.
Proof.
  intros -> ->. unfold slice.
  pose proof (len_nonneg pre). pose proof (len_nonneg mid).
  pose proof (len_nonneg post).
  rewrite !rel_index_inside by (rewrite !len_app; lia).
  replace (len pre + len mid - len pre) with (len mid) by lia.
  rewrite !to_nat_len, skipn_len_app. apply firstn_len_app.
Qed.

Lemma slice_tail {A} (pre post : list A) (start : Z) :
  start = len pre -> slice (pre ++ post) start None = post.
Proof.
  intros ->. unfold slice.
  pose proof (len_nonneg pre). pose proof (len_nonneg post).
  rewrite rel_index_inside by (rewrite len_app; lia).
  rewrite len_app.
  replace (len pre + len post - len pre) with (len post) by lia.
  rewrite !to_nat_len, skipn_len_app. apply firstn_all.
Qed.

Lemma len_slice {A} (a : list A) (start : Z) (e : option Z) :
  len (slice a start e)
  = Z.max 0 (match e with Some e => rel_index (len a) e | None => len a end
             - rel_index (len a) start).
Proof.
  unfold slice.
  pose proof (rel_index_range start (len_nonneg a)) as Hs.
  assert (He : match e with Some e => rel_index (len a) e | None => len a end
               <= len a).
  { destruct e as [e|]; [apply rel_index_range, len_nonneg | lia]. }
  unfold len in *. rewrite length_firstn, length_skipn. lia.
Qed.

Lemma len_be32_bytes n : len (be32_bytes n) = 4.
Proof. reflexivity. Qed.

(** Unpacking the layout of a package gives its components back, as long as
    the KEM ciphertext is shorter than 2^31 bytes. *)
Lemma unpackageCombined_layout (kem iv enc : Uint8Array) :
  len kem < 2 ^ 31 -> len iv = 12 ->
  unpackageCombined (be32_bytes (len kem) ++ kem ++ iv ++ enc)
  = {| kemCiphertext := kem; iv := iv; encryptedData := enc |}.
Proof.
  intros Hkem Hiv. pose proof (len_nonneg kem) as Hk0.
  unfold unpackageCombined.
  rewrite readKemLength_signed, be32_be32_bytes.
  rewrite Z.mod_small by lia. rewrite ToInt32_small by lia.
  f_equal.
  - apply slice_middle; [reflexivity | now rewrite len_be32_bytes].
  - rewrite (app_assoc _ kem). apply slice_middle.
    + now rewrite len_app, len_be32_bytes.
    + rewrite len_app, len_be32_bytes. lia.
  - rewrite (app_assoc _ kem), (app_assoc _ iv). apply slice_tail.
    rewrite !len_app, len_be32_bytes. lia.
Qed.

Lemma unpackageCiphertext_encode (combined : Uint8Array) :
  unpackageCiphertext (Base64.encode (map byte_val combined))
  = Ok (unpackageCombined combined).
Proof.
  unfold unpackageCiphertext. now rewrite base64ToArray_encode.
Qed.

Lemma len_package (kem iv enc : Uint8Array) :
  len iv = 12 ->
  len (be32_bytes (len kem) ++ kem ++ iv ++ enc) = package_size kem enc.
Proof.
  intros Hiv. unfold package_size.
  rewrite !len_app, len_be32_bytes, Hiv. lia.
Qed.

(** [packageCiphertext] with a 12-byte nonce: the base64 text of the
    layout, or a RangeError when the engine does not take a package of
    that size through [arrayToBase64]. *)
Lemma packageCiphertext_run {engine : Engine} (kem iv enc : Uint8Array) :
  len iv = 12 ->
  packageCiphertext kem iv enc
  = if encodable (package_size kem enc)
    then Ok (Base64.encode
               (map byte_val (be32_bytes (len kem) ++ kem ++ iv ++ enc)))
    else Err RangeError.
Proof.
  intros Hiv. unfold packageCiphertext.
  rewrite packageCombined_layout by assumption. cbn [rbind].
  now rewrite arrayToBase64_run, len_package.
Qed.

Lemma packageCiphertext_layout {engine : Engine} (kem iv enc : Uint8Array) :
  len iv = 12 -> encodable (package_size kem enc) = true ->
  packageCiphertext kem iv enc
  = Ok (Base64.encode
          (map byte_val (be32_bytes (len kem) ++ kem ++ iv ++ enc))).
Proof. intros Hiv Hfit. now rewrite packageCiphertext_run, Hfit. Qed.

Lemma packageCiphertext_inv {engine : Engine} (kem iv enc : Uint8Array)
  package :
  len iv = 12 -> packageCiphertext kem iv enc = Ok package ->
  encodable (package_size kem enc) = true
  /\ package
     = Base64.encode
         (map byte_val (be32_bytes (len kem) ++ kem ++ iv ++ enc)).
Proof.
  intros Hiv. rewrite packageCiphertext_run by assumption.
  destruct (encodable (package_size kem enc)); [|discriminate].
  intros [= <-]. now split.
Qed.

(** Envelope round trip, for KEM ciphertexts shorter than 2^31 bytes and
    packages that the engine takes. *)
Lemma unpackage_package {engine : Engine} (kem iv enc : Uint8Array) :
  len kem < 2 ^ 31 -> len iv = 12 ->
  encodable (package_size kem enc) = true ->
  exists package,
    packageCiphertext kem iv enc = Ok package
    /\ unpackageCiphertext package
       = Ok {| kemCiphertext := kem; iv := iv; encryptedData := enc |}.
Proof.
  intros Hkem Hiv Hfit. eexists. split.
  - now apply packageCiphertext_layout.
  - rewrite unpackageCiphertext_encode. f_equal.
    now apply unpackageCombined_layout.
Qed.

(** On an engine whose strings are shorter than 2^31 characters, a package
    that the engine takes has a KEM ciphertext shorter than 2^31 bytes. *)
Lemma encodable_kem_short {engine : Engine} (kem enc : Uint8Array) :
  max_string_length < 2 ^ 31 ->
  encodable (package_size kem enc) = true -> len kem < 2 ^ 31.
Proof.
  intros Hmax Hfit. apply encodable_string in Hfit.
  unfold package_size in Hfit. pose proof (len_nonneg enc). lia.
Qed.

(** With a KEM ciphertext of exactly 2^31 bytes and no sealed data, the
    length field is read back as -2^31 and the KEM ciphertext that comes
    out of the package has 16 bytes. *)
Lemma unpackageCombined_layout_2GiB (kem iv : Uint8Array) :
  len kem = 2 ^ 31 -> len iv = 12 ->
  readKemLength (be32_bytes (len kem) ++ kem ++ iv ++ []) = - 2 ^ 31
  /\ len (kemCiphertext
            (unpackageCombined (be32_bytes (len kem) ++ kem ++ iv ++ [])))
     = 16.
Proof.
  intros Hkem Hiv.
  assert (HL : readKemLength (be32_bytes (len kem) ++ kem ++ iv ++ [])
               = - 2 ^ 31).
  { rewrite readKemLength_signed, be32_be32_bytes, Hkem. reflexivity. }
  split; [exact HL|].
  unfold unpackageCombined. cbn [kemCiphertext]. rewrite HL, len_slice.
  rewrite !len_app, len_be32_bytes, Hiv. change (len (@nil byte)) with 0.
  unfold rel_index. zbool.
Qed.

Lemma slice_nonneg {A} (a : list A) (s e : Z) :
  0 <= s <= e ->
  slice a s (Some e) = firstn (Z.to_nat (e - s)) (skipn (Z.to_nat s) a).
Proof.
  intros Hse. unfold slice, rel_index.
  replace (s <? 0) with false by zbool. replace (e <? 0) with false by zbool.
  pose proof (len_nonneg a) as Hn.
  destruct (Z.le_gt_cases s (len a)) as [Hs|Hs].
  - rewrite (Z.min_l s) by lia.
    destruct (Z.le_gt_cases e (len a)) as [He|He].
    + now rewrite Z.min_l by lia.
    + rewrite Z.min_r by lia.
      rewrite !firstn_all2; [reflexivity | |];
        rewrite length_skipn; unfold len in *; lia.
  - rewrite !Z.min_r by lia. rewrite Z.sub_diag. cbn [Z.to_nat firstn].
    rewrite skipn_all2 by (unfold len in *; lia). now rewrite firstn_nil.
Qed.

(** The length field of a package is the length of the KEM ciphertext as an
    unsigned 32-bit big-endian integer. *)
Lemma package_length_field (kem iv enc : Uint8Array) :
  len iv = 12 -> len kem < 2 ^ 32 ->
  exists combined,
    packageCombined kem iv enc = Ok combined
    /\ firstn 4 combined = be32_bytes (len kem)
    /\ be32 combined = len kem.
Proof.
  intros Hiv Hkem. eexists. split; [now apply packageCombined_layout|].
  split; [reflexivity|].
  rewrite be32_be32_bytes. apply Z.mod_small.
  pose proof (len_nonneg kem). lia.
Qed.

Lemma len_two_GiB : len two_GiB = 2 ^ 31.
Proof.
  unfold two_GiB. rewrite len_repeat. apply Z2Nat.id. lia.
Qed.

(** Counterexample to C2 as stated: on an engine with limits of the order
    of V8's, [packageCiphertext] throws a RangeError on a KEM ciphertext
    of 2^31 zero bytes with a 12-byte nonce and no sealed data, so that
    there is no package to unpack. *)
Lemma package_2GiB_throws :
  len (repeat x00 12) = 12
  /\ @packageCiphertext Toy.engine two_GiB (repeat x00 12) []
     = Err RangeError
  /\ ~ (exists package,
          @packageCiphertext Toy.engine two_GiB (repeat x00 12) []
          = Ok package
          /\ unpackageCiphertext package
             = Ok {| kemCiphertext := two_GiB; iv := repeat x00 12;
                     encryptedData := [] |}).
Proof.
  assert (H : @packageCiphertext Toy.engine two_GiB (repeat x00 12) []
              = Err RangeError).
  { rewrite packageCiphertext_run by reflexivity.
    unfold package_size. rewrite len_two_GiB. reflexivity. }
  split; [reflexivity|]. split; [exact H|].
  intros (package & Hp & _). rewrite H in Hp. discriminate.
Qed.

(** C2, as amended.  With a 12-byte nonce and a KEM ciphertext shorter
    than 2^31 bytes (which every KEM ciphertext is that packs on an engine
    whose strings are shorter than 2^31 characters): when the engine takes
    an array of the size of the package through [arrayToBase64],
    [packageCiphertext] returns a package and [unpackageCiphertext]
    returns the three components from it, byte for byte; when it does
    not, [packageCiphertext] throws a RangeError. *)
Theorem unpackage_package_fits {engine : Engine} (kem iv enc : Uint8Array) :
  len iv = 12 ->
  len kem < 2 ^ 31 \/ max_string_length < 2 ^ 31 ->
  if encodable (package_size kem enc)
  then exists package,
         packageCiphertext kem iv enc = Ok package
         /\ unpackageCiphertext package
            = Ok {| kemCiphertext := kem; iv := iv; encryptedData := enc |}
  else packageCiphertext kem iv enc = Err RangeError.
Proof.
  intros Hiv Hkem.
  destruct (encodable (package_size kem enc)) eqn:Hfit.
  - apply unpackage_package; [|assumption|assumption].
    destruct Hkem as [Hkem|Hmax]; [exact Hkem|].
    now apply encodable_kem_short with enc.
  - now rewrite packageCiphertext_run, Hfit.
Qed.

Lemma unpackage_package_fits_witness :
  exists package,
    @packageCiphertext Toy.engine Scenario.kem_ct Scenario.nonce
      Scenario.sealed = Ok package
    /\ unpackageCiphertext package
       = Ok {| kemCiphertext := Scenario.kem_ct; iv := Scenario.nonce;
               encryptedData := Scenario.sealed |}.
Proof.
  exact (@unpackage_package_fits Toy.engine Scenario.kem_ct Scenario.nonce
           Scenario.sealed eq_refl (or_intror eq_refl)).
Defined.

(** C4 (at the failing input).  The four bytes 80 00 00 00, which
    [arrayToBase64] writes as [gAAAAA==], hold the unsigned big-endian
    length 2^31; [unpackageCiphertext] reads the length -2^31 from them and
    returns the whole buffer as the sealed data. *)
Theorem length_field_read_signed :
  base64ToArray (js "gAAAAA==") = Ok [x80; x00; x00; x00]
  /\ be32 [x80; x00; x00; x00] = 2 ^ 31
  /\ readKemLength [x80; x00; x00; x00] = - 2 ^ 31
  /\ unpackageCiphertext (js "gAAAAA==")
     = Ok {| kemCiphertext := []; iv := [];
             encryptedData := [x80; x00; x00; x00] |}.
Proof. repeat split; vm_compute; reflexivity. Qed.

(** C5.  The concrete scenario: the bytes that [packageCiphertext] encodes
    are 00 00 00 F0, the 240 zero bytes, the nonce and de ad be ef, and
    unpacking the package returns the three components. *)
Theorem package_scenario {engine : Engine} :
  packageCombined Scenario.kem_ct Scenario.nonce Scenario.sealed
  = Ok Scenario.packaged
  /\ exists package,
      packageCiphertext Scenario.kem_ct Scenario.nonce Scenario.sealed
      = Ok package
      /\ base64ToArray package = Ok Scenario.packaged
      /\ unpackageCiphertext package
         = Ok {| kemCiphertext := Scenario.kem_ct;
                 iv := Scenario.nonce;
                 encryptedData := Scenario.sealed |}.
Proof.
  split; [vm_compute; reflexivity|].
  eexists. split.
  - apply packageCiphertext_layout; [reflexivity|].
    apply encodable_small. vm_compute. discriminate.
  - split.
    + rewrite base64ToArray_encode. vm_compute. reflexivity.
    + rewrite unpackageCiphertext_encode. vm_compute. reflexivity.
Qed.

Unset Implicit Arguments.

(** The components that come out of a buffer shorter than its length
    field announces are the bytes that are there. *)
Lemma unpackageCombined_truncated (buffer : Uint8Array) (L : Z) :
  L = readKemLength buffer ->
  0 <= L -> len buffer < 4 + L + 12 ->
  kemCiphertext (unpackageCombined buffer)
  = firstn (Z.to_nat L) (skipn 4 buffer)
  /\ iv (unpackageCombined buffer) = skipn (4 + Z.to_nat L) buffer
  /\ encryptedData (unpackageCombined buffer) = []
  /\ len (kemCiphertext (unpackageCombined buffer)) <= L
  /\ len (iv (unpackageCombined buffer)) < 12.
Proof.
  intros EL HL Hshort. unfold unpackageCombined.
  cbn [kemCiphertext iv encryptedData]. rewrite <- EL. clear EL.
  pose proof (len_nonneg buffer) as Hn.
  assert (Ekem : slice buffer 4 (Some (4 + L))
                 = firstn (Z.to_nat L) (skipn 4 buffer)).
  { rewrite slice_nonneg by lia. do 2 f_equal. lia. }
  assert (Eiv : slice buffer (4 + L) (Some (4 + L + 12))
                = skipn (4 + Z.to_nat L) buffer).
  { rewrite slice_nonneg by lia.
    replace (Z.to_nat (4 + L)) with (4 + Z.to_nat L)%nat by lia.
    apply firstn_all2. rewrite length_skipn. unfold len in *. lia. }
  rewrite Ekem, Eiv. repeat split.
  - unfold slice, rel_index.
    replace (4 + L + 12 <? 0) with false by zbool.
    rewrite Z.min_r by lia. rewrite Z.sub_diag. reflexivity.
  - unfold len. rewrite length_firstn. lia.
  - unfold len in *. rewrite length_skipn. lia.
Qed.

Set Implicit Arguments.

(** [unpackageCiphertext] returns for every decoded buffer.  The length it
    reads is the big-endian value of the first four bytes, a byte the
    buffer does not have counting as 0, converted to a signed 32-bit
    integer.  When that length [L] is not negative and the buffer has
    fewer than [4 + L + 12] bytes, the components are the bytes that are
    there: at most [L] bytes of KEM ciphertext, fewer than 12 bytes of
    nonce, no sealed data. *)
Lemma unpackageCiphertext_total (s : JSString) (buffer : Uint8Array) :
  base64ToArray s = Ok buffer ->
  let L := readKemLength buffer in
  let envelope := unpackageCombined buffer in
  unpackageCiphertext s = Ok envelope
  /\ L = ToInt32 (be32 buffer)
  /\ (0 <= L -> len buffer < 4 + L + 12 ->
      kemCiphertext envelope = firstn (Z.to_nat L) (skipn 4 buffer)
      /\ iv envelope = skipn (4 + Z.to_nat L) buffer
      /\ encryptedData envelope = []
      /\ len (kemCiphertext envelope) <= L
      /\ len (iv envelope) < 12).
Proof.
  intros Hs L envelope. split; [|split].
  - unfold unpackageCiphertext. now rewrite Hs.
  - apply readKemLength_signed.
  - now apply unpackageCombined_truncated.
Qed.

(** The single byte 01, which [arrayToBase64] writes as [AQ==]: the three
    bytes that are not there count as 0, the length read is 0x01000000,
    and the components are empty. *)
Lemma unpackageCiphertext_one_byte :
  base64ToArray (js "AQ==") = Ok [x01]
  /\ unpackageCiphertext (js "AQ==")
     = Ok {| kemCiphertext := []; iv := []; encryptedData := [] |}
  /\ readKemLength [x01] = 16777216.
Proof.
  split; [reflexivity|].
  pose proof (@unpackageCiphertext_total (js "AQ==") [x01] eq_refl)
    as (Hu & HL & _).
  split; [exact Hu | exact HL].
Qed.

(** C9 (at the failing input).  The eight bytes ff ff ff fb 01 02 03 04,
    which [arrayToBase64] writes as [////+wECAwQ=], hold the length field
    4294967291 and four more bytes, fewer than the field announces.
    [unpackageCiphertext] reads the length -5 from them; the buffer has
    fewer than 4 + (-5) + 12 = 11 bytes, and the slices, taken with
    indexes counted from the end, are a KEM ciphertext of three bytes,
    01 02 03, more than the length read, and a nonce that is the byte 04,
    the last of the four bytes that follow the length field. *)
Theorem truncated_slices_signed :
  let buffer := [xff; xff; xff; xfb; x01; x02; x03; x04] in
  base64ToArray (js "////+wECAwQ=") = Ok buffer
  /\ be32 buffer = 4294967291
  /\ readKemLength buffer = -5
  /\ len buffer < 4 + readKemLength buffer + 12
  /\ unpackageCiphertext (js "////+wECAwQ=")
     = Ok {| kemCiphertext := [x01; x02; x03]; iv := [x04];
             encryptedData := [] |}
  /\ readKemLength buffer
     < len (kemCiphertext (unpackageCombined buffer))
  /\ skipn 4 buffer = [x01; x02; x03; x04].
Proof. repeat split; vm_compute; reflexivity. Qed.

(* ================================================================== *)
(** * UTF-16: scalar values and code units *)
(* ================================================================== *)

Module UnicodeFacts.
Import Unicode.

Lemma scalar_values_pair c d rest :
  is_lead c = true -> is_trail d = true ->
  scalar_values (c :: d :: rest)
  = 0x10000 + Z.shiftl (c - 0xD800) 10 + (d - 0xDC00) :: scalar_values rest.
Proof. intros Hc Hd. cbn [scalar_values]. now rewrite Hc, Hd. Qed.

Lemma scalar_values_single c rest :
  is_lead c = false -> is_trail c = false ->
  scalar_values (c :: rest) = c :: scalar_values rest.
Proof. intros Hc Hd. cbn [scalar_values]. now rewrite Hc, Hd. Qed.

Lemma scalar_values_lone_lead c d rest :
  is_lead c = true -> is_trail d = false ->
  scalar_values (c :: d :: rest) = REPLACEMENT :: scalar_values (d :: rest).
Proof. intros Hc Hd. cbn [scalar_values]. now rewrite Hc, Hd. Qed.

Lemma scalar_values_lone_trail c rest :
  is_lead c = false -> is_trail c = true ->
  scalar_values (c :: rest) = REPLACEMENT :: scalar_values rest.
Proof. intros Hc Hd. cbn [scalar_values]. now rewrite Hc, Hd. Qed.

(** Induction on a string two code units at a time. *)
Lemma list_ind2 {A} (P : list A -> Prop) :
  P [] -> (forall a, P [a]) ->
  (forall a b l, P l -> P (b :: l) -> P (a :: b :: l)) ->
  forall l, P l.
Proof.
  intros H0 H1 H2 l.
  enough (P l /\ forall a, P (a :: l)) by tauto.
  induction l as [|b l [IH1 IH2]]; split; auto.
Qed.

Lemma pair_scalar c d :
  is_lead c = true -> is_trail d = true ->
  scalar_value (0x10000 + Z.shiftl (c - 0xD800) 10 + (d - 0xDC00)).
Proof.
  unfold is_lead, is_trail, scalar_value. intros Hc Hd.
  rewrite Z.shiftl_mul_pow2 by lia. change (2 ^ 10) with 1024.
  revert Hc Hd. zbool.
Qed.

Lemma replacement_scalar : scalar_value REPLACEMENT.
Proof. unfold scalar_value, REPLACEMENT. lia. Qed.

Lemma scalar_values_scalar (s : JSString) :
  Forall code_unit s -> Forall scalar_value (scalar_values s).
Proof.
  induction s as [|c|c d rest IH1 IH2] using list_ind2; intros Hs.
  - constructor.
  - apply Forall_cons_iff in Hs as [Hc _]. cbn [scalar_values].
    destruct (is_lead c) eqn:El;
      [constructor; [apply replacement_scalar | constructor]|].
    destruct (is_trail c) eqn:Et;
      [constructor; [apply replacement_scalar | constructor]|].
    constructor; [|constructor].
    unfold is_lead, is_trail, scalar_value, code_unit in *.
    revert El Et. zbool.
  - pose proof Hs as Hs'.
    apply Forall_cons_iff in Hs as [Hc Hs].
    pose proof Hs as Hdrest. apply Forall_cons_iff in Hs as [Hd Hs].
    destruct (is_lead c) eqn:El.
    + destruct (is_trail d) eqn:Et.
      * rewrite scalar_values_pair by assumption.
        constructor; [now apply pair_scalar | auto].
      * rewrite scalar_values_lone_lead by assumption.
        constructor; [apply replacement_scalar | auto].
    + destruct (is_trail c) eqn:Etc.
      * rewrite scalar_values_lone_trail by assumption.
        constructor; [apply replacement_scalar | auto].
      * rewrite scalar_values_single by assumption.
        constructor; [|auto].
        unfold is_lead, is_trail, scalar_value, code_unit in *.
        revert El Etc. zbool.
Qed.

Lemma code_units_pair c d :
  is_lead c = true -> is_trail d = true ->
  code_units (0x10000 + Z.shiftl (c - 0xD800) 10 + (d - 0xDC00)) = [c; d].
Proof.
  unfold is_lead, is_trail, code_units. intros Hc Hd.
  assert (0xD800 <= c <= 0xDBFF /\ 0xDC00 <= d <= 0xDFFF) as [Hc' Hd']
    by (revert Hc Hd; zbool).
  clear Hc Hd.
  rewrite Z.shiftl_mul_pow2 by lia. change (2 ^ 10) with 1024.
  replace (0x10000 + (c - 0xD800) * 1024 + (d - 0xDC00) <=? 0xFFFF)
    with false by (symmetry; apply Z.leb_gt; lia).
  bits. f_equal; [|f_equal]; dlia.
Qed.

(** A well-formed string is the code units of its scalar values. *)
Lemma code_units_scalar_values (s : JSString) :
  Forall code_unit s -> well_formed s = true ->
  flat_map code_units (scalar_values s) = s.
Proof.
  induction s as [|c|c d rest IH1 IH2] using list_ind2; intros Hs Hw.
  - reflexivity.
  - apply Forall_cons_iff in Hs as [Hc _]. cbn [well_formed] in Hw.
    destruct (is_lead c) eqn:El; [discriminate|].
    destruct (is_trail c) eqn:Et; [discriminate|].
    cbn [scalar_values]. rewrite El, Et. cbn [flat_map app].
    unfold code_units, code_unit in *.
    replace (c <=? 0xFFFF) with true by (symmetry; apply Z.leb_le; lia).
    reflexivity.
  - pose proof Hs as Hs'.
    apply Forall_cons_iff in Hs as [Hc Hs].
    pose proof Hs as Hdrest. apply Forall_cons_iff in Hs as [Hd Hs].
    destruct (is_lead c) eqn:El.
    + cbn [well_formed] in Hw. rewrite El in Hw.
      apply andb_prop in Hw as [Et Hw].
      rewrite scalar_values_pair by assumption. cbn [flat_map].
      rewrite code_units_pair by assumption. cbn [app].
      now rewrite IH1.
    + change (well_formed (c :: d :: rest))
        with (if is_lead c then is_trail d && well_formed rest
              else negb (is_trail c) && well_formed (d :: rest)) in Hw.
      rewrite El in Hw. apply andb_prop in Hw as [Et Hw].
      apply negb_true_iff in Et.
      rewrite scalar_values_single by assumption. cbn [flat_map].
      rewrite IH2 by assumption.
      unfold code_units, code_unit in *.
      replace (c <=? 0xFFFF) with true by (symmetry; apply Z.leb_le; lia).
      reflexivity.
Qed.

(* ================================================================== *)
(** * UTF-8: the decoder undoes the encoder *)
(* ================================================================== *)

(** The bytes of a code point, by arithmetic. *)
Lemma utf8_encode_cp_arith cp :
  0 <= cp ->
  utf8_encode_cp cp =
    if cp <=? 0x7F then [cp]
    else if cp <=? 0x7FF then [cp / 64 + 192; 128 + cp mod 64]
    else if cp <=? 0xFFFF then
      [cp / 4096 + 224; 128 + (cp / 64) mod 64; 128 + cp mod 64]
    else [cp / 262144 + 240; 128 + (cp / 4096) mod 64;
          128 + (cp / 64) mod 64; 128 + cp mod 64].
Proof.
  intros Hcp. unfold utf8_encode_cp. bits.
  rewrite !lor_128 by dlia. reflexivity.
Qed.

(** A continuation byte in the awaited range adds six bits. *)
Lemma handle_continuation d b :
  bytes_needed d <> 0 ->
  lower_boundary d <= b <= upper_boundary d -> 0 <= b mod 64 < 64 ->
  handle d b =
    let cp := code_point d * 64 + b mod 64 in
    if bytes_seen d + 1 =? bytes_needed d then (initial, [Some cp])
    else ({| code_point := cp; bytes_seen := bytes_seen d + 1;
             bytes_needed := bytes_needed d;
             lower_boundary := 0x80; upper_boundary := 0xBF |}, []).
Proof.
  intros Hn Hb Hm. unfold handle, between.
  replace (bytes_needed d =? 0) with false by (symmetry; now apply Z.eqb_neq).
  replace (lower_boundary d <=? b) with true by (symmetry; apply Z.leb_le; lia).
  replace (b <=? upper_boundary d) with true by (symmetry; apply Z.leb_le; lia).
  cbn [andb negb]. rewrite land_63.
  rewrite lor_shiftl_add by (try lia; exact Hm). reflexivity.
Qed.

Ltac lead_byte :=
  cbn [run app]; unfold handle at 1; cbn [bytes_needed initial];
  cbn [Z.eqb]; unfold handle_lead, between.

Ltac continuation_byte :=
  cbn [run app]; rewrite handle_continuation;
  cbn [bytes_needed bytes_seen code_point lower_boundary upper_boundary];
  [ zeval; cbv zeta | lia | zbool | dlia ].

Lemma run_encode_cp cp rest :
  scalar_value cp ->
  run initial (utf8_encode_cp cp ++ rest) = Some cp :: run initial rest.
Proof.
  intros Hcp. unfold scalar_value in Hcp.
  rewrite utf8_encode_cp_arith by lia.
  destruct (Z.leb_spec cp 0x7F); [|destruct (Z.leb_spec cp 0x7FF);
    [|destruct (Z.leb_spec cp 0xFFFF)]].
  - lead_byte. zeval. reflexivity.
  - assert (E : exists a b, cp = a * 64 + b /\ 2 <= a < 32 /\ 0 <= b < 64
                  /\ cp / 64 = a /\ cp mod 64 = b)
      by (exists (cp / 64), (cp mod 64); dlia).
    destruct E as (a & b & -> & Ha & Hb & -> & ->).
    lead_byte. bits. zeval.
    replace ((a + 192) mod 32) with a by dlia.
    continuation_byte.
    replace ((128 + b) mod 64) with b by dlia. reflexivity.
  - assert (E : exists a b c, cp = a * 4096 + b * 64 + c
                  /\ 0 <= a < 16 /\ 0 <= b < 64 /\ 0 <= c < 64
                  /\ cp / 4096 = a /\ (cp / 64) mod 64 = b /\ cp mod 64 = c)
      by (exists (cp / 4096), ((cp / 64) mod 64), (cp mod 64); dlia).
    destruct E as (a & b & c & E & Ha & Hb & Hc & -> & -> & ->).
    lead_byte. bits. zeval.
    replace ((a + 224) mod 16) with a by dlia.
    continuation_byte.
    replace ((128 + b) mod 64) with b by dlia.
    continuation_byte.
    replace ((128 + c) mod 64) with c by dlia. cbn [app].
    do 2 f_equal. lia.
  - assert (E : exists a b c d, cp = a * 262144 + b * 4096 + c * 64 + d
                  /\ 0 <= a < 5 /\ 0 <= b < 64 /\ 0 <= c < 64 /\ 0 <= d < 64
                  /\ cp / 262144 = a /\ (cp / 4096) mod 64 = b
                  /\ (cp / 64) mod 64 = c /\ cp mod 64 = d)
      by (exists (cp / 262144), ((cp / 4096) mod 64), ((cp / 64) mod 64),
            (cp mod 64); dlia).
    destruct E as (a & b & c & d & E & Ha & Hb & Hc & Hd & -> & -> & -> & ->).
    lead_byte. bits. zeval.
    replace ((a + 240) mod 8) with a by dlia.
    continuation_byte.
    replace ((128 + b) mod 64) with b by dlia.
    continuation_byte.
    replace ((128 + c) mod 64) with c by dlia.
    continuation_byte.
    replace ((128 + d) mod 64) with d by dlia. cbn [app].
    do 2 f_equal. lia.
Qed.

Lemma utf8_encode_cp_octets cp :
  scalar_value cp -> Forall octet (utf8_encode_cp cp).
Proof.
  intros Hcp. unfold scalar_value in Hcp.
  rewrite utf8_encode_cp_arith by lia. unfold octet.
  destruct (Z.leb_spec cp 0x7F); [|destruct (Z.leb_spec cp 0x7FF);
    [|destruct (Z.leb_spec cp 0xFFFF)]];
    repeat (constructor; [dlia|]); constructor.
Qed.

Lemma run_encode cps :
  Forall scalar_value cps ->
  run initial (flat_map utf8_encode_cp cps) = map Some cps.
Proof.
  induction 1 as [|cp cps Hcp _ IH]; [reflexivity|].
  cbn [flat_map map]. now rewrite run_encode_cp, IH.
Qed.

Lemma forallb_is_code_point cps :
  forallb is_code_point (map Some cps) = true.
Proof. induction cps; cbn; auto. Qed.

(** The encoder's output is valid UTF-8 and decodes to the code points. *)
Lemma utf8_decode_encode fatal cps :
  Forall scalar_value cps ->
  utf8_decode fatal (flat_map utf8_encode_cp cps) = Ok cps.
Proof.
  intros H. unfold utf8_decode. rewrite run_encode by assumption.
  rewrite forallb_is_code_point, andb_false_r. now rewrite map_map, map_id.
Qed.

Lemma map_byte_val_ToUint8 l :
  Forall octet l -> map byte_val (map ToUint8 l) = l.
Proof.
  induction 1 as [|z l Hz _ IH]; [reflexivity|]. cbn [map].
  rewrite byte_val_ToUint8, IH. f_equal. now apply Z.mod_small.
Qed.

Lemma flat_map_octets cps :
  Forall scalar_value cps ->
  Forall octet (flat_map utf8_encode_cp cps).
Proof.
  induction 1 as [|cp cps Hcp _ IH]; [constructor|].
  cbn [flat_map]. apply Forall_app.
  split; [now apply utf8_encode_cp_octets | auto].
Qed.

End UnicodeFacts.

(* ================================================================== *)
(** * UTF-8: what the decoder accepts is an encoding *)
(* ================================================================== *)

Module DecoderFacts.
Import Unicode UnicodeFacts.

Lemma error_at_head items : ~ decoded_without_error (None :: items).
Proof. unfold decoded_without_error. cbn. discriminate. Qed.

Lemma run_lead b rest :
  run initial (b :: rest)
  = snd (handle_lead b) ++ run (fst (handle_lead b)) rest.
Proof.
  cbn [run]. unfold handle. cbn [bytes_needed initial Z.eqb].
  now destruct (handle_lead b).
Qed.

Lemma handle_lead_1 b :
  0 <= b <= 0x7F -> handle_lead b = (initial, [Some b]).
Proof. intros. unfold handle_lead, between. now zeval. Qed.

Lemma handle_lead_2 b :
  0xC2 <= b <= 0xDF ->
  handle_lead b
  = ({| code_point := b mod 32; bytes_seen := 0; bytes_needed := 1;
        lower_boundary := 0x80; upper_boundary := 0xBF |}, []).
Proof. intros. unfold handle_lead, between. zeval. now rewrite land_31. Qed.

Lemma handle_lead_3 b :
  0xE0 <= b <= 0xEF ->
  handle_lead b
  = ({| code_point := b mod 16; bytes_seen := 0; bytes_needed := 2;
        lower_boundary := if b =? 0xE0 then 0xA0 else 0x80;
        upper_boundary := if b =? 0xED then 0x9F else 0xBF |}, []).
Proof.
  intros. unfold handle_lead, between.
  replace (0 <=? b) with true by (symmetry; apply Z.leb_le; lia).
  replace (b <=? 127) with false by (symmetry; apply Z.leb_gt; lia).
  replace (194 <=? b) with true by (symmetry; apply Z.leb_le; lia).
  replace (b <=? 223) with false by (symmetry; apply Z.leb_gt; lia).
  replace (224 <=? b) with true by (symmetry; apply Z.leb_le; lia).
  replace (b <=? 239) with true by (symmetry; apply Z.leb_le; lia).
  cbn [andb]. now rewrite land_15.
Qed.

Lemma handle_lead_4 b :
  0xF0 <= b <= 0xF4 ->
  handle_lead b
  = ({| code_point := b mod 8; bytes_seen := 0; bytes_needed := 3;
        lower_boundary := if b =? 0xF0 then 0x90 else 0x80;
        upper_boundary := if b =? 0xF4 then 0x8F else 0xBF |}, []).
Proof.
  intros. unfold handle_lead, between.
  replace (0 <=? b) with true by (symmetry; apply Z.leb_le; lia).
  replace (b <=? 127) with false by (symmetry; apply Z.leb_gt; lia).
  replace (194 <=? b) with true by (symmetry; apply Z.leb_le; lia).
  replace (b <=? 223) with false by (symmetry; apply Z.leb_gt; lia).
  replace (224 <=? b) with true by (symmetry; apply Z.leb_le; lia).
  replace (b <=? 239) with false by (symmetry; apply Z.leb_gt; lia).
  replace (240 <=? b) with true by (symmetry; apply Z.leb_le; lia).
  replace (b <=? 244) with true by (symmetry; apply Z.leb_le; lia).
  cbn [andb]. now rewrite land_7.
Qed.

Lemma handle_lead_bad b :
  0x80 <= b <= 0xC1 \/ 0xF5 <= b ->
  handle_lead b = (initial, [None]).
Proof. intros [H|H]; unfold handle_lead, between; now zeval. Qed.

(** While a sequence is open, the end of the input or a byte outside the
    awaited range is an error. *)
Lemma run_open_end d : bytes_needed d <> 0 -> run d [] = [None].
Proof. intros H. cbn [run]. apply Z.eqb_neq in H. now rewrite H. Qed.

Lemma run_open_continue d b rest :
  bytes_needed d <> 0 -> decoded_without_error (run d (b :: rest)) ->
  lower_boundary d <= b <= upper_boundary d.
Proof.
  intros Hn H.
  destruct (Z.le_gt_cases (lower_boundary d) b) as [Hlo|Hlo];
    [destruct (Z.le_gt_cases b (upper_boundary d)) as [Hhi|Hhi]|];
    [lia| |]; exfalso; revert H; cbn [run]; unfold handle, between;
    apply Z.eqb_neq in Hn; rewrite Hn.
  - replace (b <=? upper_boundary d) with false
      by (symmetry; apply Z.leb_gt; lia).
    rewrite andb_false_r. cbn [negb]. destruct (handle_lead b).
    apply error_at_head.
  - replace (lower_boundary d <=? b) with false
      by (symmetry; apply Z.leb_gt; lia).
    cbn [andb negb]. destruct (handle_lead b). apply error_at_head.
Qed.

Lemma run_continuation d b rest :
  bytes_needed d <> 0 ->
  lower_boundary d <= b <= upper_boundary d ->
  run d (b :: rest)
  = if bytes_seen d + 1 =? bytes_needed d
    then Some (code_point d * 64 + b mod 64) :: run initial rest
    else run {| code_point := code_point d * 64 + b mod 64;
                bytes_seen := bytes_seen d + 1;
                bytes_needed := bytes_needed d;
                lower_boundary := 0x80; upper_boundary := 0xBF |} rest.
Proof.
  intros Hn Hb. cbn [run].
  rewrite handle_continuation by (try assumption; dlia).
  cbv zeta. now destruct (bytes_seen d + 1 =? bytes_needed d).
Qed.

(** Reads the next byte of a sequence that is open in [H]: the input goes
    on, with a byte [b] in the awaited range [Hb]. *)
Ltac next_byte H rest b Hb :=
  match type of H with
  | decoded_without_error (run ?d0 _) =>
      let d := fresh "d" in
      let Hn := fresh "Hn" in
      set (d := d0) in *;
      assert (Hn : bytes_needed d <> 0) by (cbn; lia);
      destruct rest as [|b rest];
      [ rewrite (@run_open_end d Hn) in H; now apply error_at_head in H | ];
      pose proof (@run_open_continue d b rest Hn H) as Hb;
      rewrite (@run_continuation d b rest Hn Hb) in *;
      subst d;
      cbn [bytes_seen bytes_needed code_point lower_boundary upper_boundary
           Z.add Z.eqb Pos.eqb Pos.add] in *
  end.

(** Decides a comparison of the goal by linear arithmetic. *)
Ltac decide_leb c v :=
  replace c with v
    by (symmetry; first [apply Z.leb_le | apply Z.leb_gt]; lia).

(** The first code point of an input that decodes without error. *)
Lemma decode_first b rest :
  octet b -> decoded_without_error (run initial (b :: rest)) ->
  exists cp rest',
    scalar_value cp
    /\ b :: rest = utf8_encode_cp cp ++ rest'
    /\ run initial (b :: rest) = Some cp :: run initial rest'.
Proof.
  unfold octet. intros Hb H. rewrite run_lead in *.
  destruct (Z.le_gt_cases b 0x7F) as [H1|H1].
  { rewrite handle_lead_1 in * by lia. exists b, rest.
    unfold scalar_value. rewrite utf8_encode_cp_arith by lia.
    decide_leb (b <=? 127) true.
    repeat split; auto. lia. }
  destruct (Z.le_gt_cases b 0xC1) as [H2|H2].
  { rewrite handle_lead_bad in H by lia. now apply error_at_head in H. }
  destruct (Z.le_gt_cases b 0xDF) as [H3|H3].
  { rewrite handle_lead_2 in * by lia. cbn [fst snd app] in *.
    next_byte H rest b2 Hb2.
    assert (E : exists a x, b = 192 + a /\ b2 = 128 + x
                            /\ 2 <= a < 32 /\ 0 <= x < 64)
      by (exists (b - 192), (b2 - 128); lia).
    destruct E as (a & x & -> & -> & Ha & Hx). clear Hb2 H.
    replace ((192 + a) mod 32) with a by dlia.
    replace ((128 + x) mod 64) with x by dlia.
    exists (a * 64 + x), rest.
    unfold scalar_value. rewrite utf8_encode_cp_arith by lia.
    decide_leb (a * 64 + x <=? 127) false.
    decide_leb (a * 64 + x <=? 2047) true.
    split; [lia|]. split; [|reflexivity].
    cbn [app]. f_equal; [|f_equal]; dlia. }
  destruct (Z.le_gt_cases b 0xEF) as [H4|H4].
  { rewrite handle_lead_3 in * by lia. cbn [fst snd app] in *.
    next_byte H rest b2 Hb2. next_byte H rest b3 Hb3.
    assert (E : exists a x y,
               b = 224 + a /\ b2 = 128 + x /\ b3 = 128 + y
               /\ 0 <= a < 16 /\ 0 <= x < 64 /\ 0 <= y < 64
               /\ (a = 0 -> 32 <= x) /\ (a = 13 -> x < 32)).
    { exists (b - 224), (b2 - 128), (b3 - 128).
      destruct (Z.eqb_spec b 224); destruct (Z.eqb_spec b 237); lia. }
    destruct E as (a & x & y & -> & -> & -> & Ha & Hx & Hy & Ha0 & Ha13).
    clear Hb2 Hb3 H.
    replace ((224 + a) mod 16) with a by dlia.
    replace ((128 + x) mod 64) with x by dlia.
    replace ((128 + y) mod 64) with y by dlia.
    exists ((a * 64 + x) * 64 + y), rest.
    unfold scalar_value. rewrite utf8_encode_cp_arith by lia.
    decide_leb ((a * 64 + x) * 64 + y <=? 127) false.
    decide_leb ((a * 64 + x) * 64 + y <=? 2047) false.
    decide_leb ((a * 64 + x) * 64 + y <=? 65535) true.
    split; [lia|]. split; [|reflexivity].
    cbn [app]. f_equal; [|f_equal; [|f_equal]]; dlia. }
  destruct (Z.le_gt_cases b 0xF4) as [H5|H5].
  2:{ rewrite handle_lead_bad in H by lia. now apply error_at_head in H. }
  rewrite handle_lead_4 in * by lia. cbn [fst snd app] in *.
  next_byte H rest b2 Hb2. next_byte H rest b3 Hb3. next_byte H rest b4 Hb4.
  assert (E : exists a x y z,
             b = 240 + a /\ b2 = 128 + x /\ b3 = 128 + y /\ b4 = 128 + z
             /\ 0 <= a < 5 /\ 0 <= x < 64 /\ 0 <= y < 64 /\ 0 <= z < 64
             /\ (a = 0 -> 16 <= x) /\ (a = 4 -> x < 16)).
  { exists (b - 240), (b2 - 128), (b3 - 128), (b4 - 128).
    destruct (Z.eqb_spec b 240); destruct (Z.eqb_spec b 244); lia. }
  destruct E
    as (a & x & y & z & -> & -> & -> & -> & Ha & Hx & Hy & Hz & Ha0 & Ha4).
  clear Hb2 Hb3 Hb4 H.
  replace ((240 + a) mod 8) with a by dlia.
  replace ((128 + x) mod 64) with x by dlia.
  replace ((128 + y) mod 64) with y by dlia.
  replace ((128 + z) mod 64) with z by dlia.
  exists (((a * 64 + x) * 64 + y) * 64 + z), rest.
  unfold scalar_value. rewrite utf8_encode_cp_arith by lia.
  decide_leb (((a * 64 + x) * 64 + y) * 64 + z <=? 127) false.
  decide_leb (((a * 64 + x) * 64 + y) * 64 + z <=? 2047) false.
  decide_leb (((a * 64 + x) * 64 + y) * 64 + z <=? 65535) false.
  split; [lia|]. split; [|reflexivity].
  cbn [app]. f_equal; [|f_equal; [|f_equal; [|f_equal]]]; dlia.
Qed.

Lemma utf8_encode_cp_length cp : (0 < length (utf8_encode_cp cp))%nat.
Proof.
  unfold utf8_encode_cp.
  destruct (cp <=? 127); [|destruct (cp <=? 2047); [|destruct (cp <=? 65535)]];
    cbn; lia.
Qed.

(** An input that the decoder reads without error is the encoding of the
    code points it gives. *)
Lemma decode_sound bytes :
  Forall octet bytes -> decoded_without_error (run initial bytes) ->
  exists cps,
    Forall scalar_value cps
    /\ bytes = flat_map utf8_encode_cp cps
    /\ run initial bytes = map Some cps.
Proof.
  remember (length bytes) as n eqn:En. revert bytes En.
  induction n as [n IH] using lt_wf_ind. intros bytes -> Hoct H.
  destruct bytes as [|b rest]; [now exists []|].
  pose proof Hoct as Hoct'. apply Forall_cons_iff in Hoct' as [Hb _].
  destruct (@decode_first b rest Hb H) as (cp & rest' & Hcp & E & Hrun).
  assert (Hlen : (length rest' < length (b :: rest))%nat).
  { rewrite E, length_app. pose proof (utf8_encode_cp_length cp). lia. }
  assert (Hoct' : Forall octet rest').
  { rewrite E in Hoct. now apply Forall_app in Hoct. }
  assert (H' : decoded_without_error (run initial rest')).
  { rewrite Hrun in H. unfold decoded_without_error in *. now cbn in H. }
  destruct (IH _ Hlen rest' eq_refl Hoct' H') as (cps & Hcps & E' & Hrun').
  exists (cp :: cps). repeat split.
  - now constructor.
  - cbn [flat_map]. now rewrite <- E'.
  - cbn [map]. now rewrite Hrun, Hrun'.
Qed.

End DecoderFacts.

(** The fatal decoder throws exactly on the inputs that are not valid
    UTF-8. *)
Lemma utf8_decode_fatal_iff (bytes : list Z) :
  Forall octet bytes ->
  Unicode.utf8_decode true bytes = Err TypeError <-> ~ valid_utf8 bytes.
Proof.
  intros Hoct. split.
  - intros Hthrow (cps & Hcps & ->).
    rewrite UnicodeFacts.utf8_decode_encode in Hthrow by assumption.
    discriminate.
  - intros Hinvalid. unfold Unicode.utf8_decode. cbn [andb].
    destruct (forallb Unicode.is_code_point
                (Unicode.run Unicode.initial bytes)) eqn:E; [|reflexivity].
    exfalso. apply Hinvalid.
    destruct (DecoderFacts.decode_sound Hoct E) as (cps & Hcps & Hb & _).
    now exists cps.
Qed.

(** What [TextDecoder] makes of the bytes of [TextEncoder]. *)
Lemma TextDecoder_TextEncoder (fatal ignoreBOM : bool) (s : JSString) :
  Forall code_unit s ->
  TextDecoder_decode fatal ignoreBOM (TextEncoder_encode s)
  = Ok (flat_map Unicode.code_units
          (Unicode.strip_bom ignoreBOM (Unicode.scalar_values s))).
Proof.
  intros Hs. unfold TextDecoder_decode, TextEncoder_encode.
  pose proof (UnicodeFacts.scalar_values_scalar Hs) as Hsv.
  rewrite UnicodeFacts.map_byte_val_ToUint8
    by now apply UnicodeFacts.flat_map_octets.
  now rewrite UnicodeFacts.utf8_decode_encode.
Qed.

(** A well-formed string that does not start with U+FEFF comes back as it
    was. *)
Lemma through_utf8_well_formed (s : JSString) :
  Forall code_unit s -> well_formed s = true -> starts_with_BOM s = false ->
  through_utf8 s = s.
Proof.
  intros Hs Hw Hb. unfold through_utf8.
  replace (Unicode.strip_bom false (Unicode.scalar_values s))
    with (Unicode.scalar_values s).
  - now apply UnicodeFacts.code_units_scalar_values.
  - destruct s as [|c rest]; [reflexivity|].
    cbn [starts_with_BOM] in Hb.
    assert (Hpair : forall d, Unicode.is_lead c = true ->
              Unicode.is_trail d = true ->
              (0x10000 + Z.shiftl (c - 0xD800) 10 + (d - 0xDC00)
               =? Unicode.BOM) = false).
    { intros d Hc Hd. unfold Unicode.is_lead, Unicode.is_trail in *.
      rewrite Z.shiftl_mul_pow2 by lia. change (2 ^ 10) with 1024.
      unfold Unicode.BOM. apply Z.eqb_neq. revert Hc Hd. zbool. }
    destruct (Unicode.is_lead c) eqn:El.
    + destruct rest as [|d rest'];
        [cbn [Unicode.scalar_values]; now rewrite El|].
      destruct (Unicode.is_trail d) eqn:Et.
      * rewrite UnicodeFacts.scalar_values_pair by assumption.
        unfold Unicode.strip_bom. now rewrite Hpair.
      * now rewrite UnicodeFacts.scalar_values_lone_lead by assumption.
    + destruct (Unicode.is_trail c) eqn:Et.
      * now rewrite UnicodeFacts.scalar_values_lone_trail by assumption.
      * rewrite UnicodeFacts.scalar_values_single by assumption.
        unfold Unicode.strip_bom. now rewrite Hb.
Qed.

(** The decoder of [decryptMessage] never throws, and puts U+FFFD into the
    text when the bytes are not valid UTF-8. *)
Lemma TextDecoder_nonfatal (ignoreBOM : bool) (data : Uint8Array) :
  exists text,
    TextDecoder_decode false ignoreBOM data = Ok text
    /\ (~ valid_utf8 (map byte_val data) -> In Unicode.REPLACEMENT text).
Proof.
  unfold TextDecoder_decode, Unicode.utf8_decode. cbn [andb rbind].
  eexists. split; [reflexivity|].
  intros Hinvalid.
  apply utf8_decode_fatal_iff in Hinvalid; [|apply octets_byte_val].
  unfold Unicode.utf8_decode in Hinvalid. cbn [andb] in Hinvalid.
  set (items := Unicode.run Unicode.initial (map byte_val data)) in *.
  destruct (forallb Unicode.is_code_point items) eqn:E; [discriminate|].
  assert (Hnone : In None items).
  { clear - E. induction items as [|[cp|] items IH]; cbn in *;
      [discriminate | right; auto | now left]. }
  apply in_flat_map. exists Unicode.REPLACEMENT. split; [|now left].
  assert (Hin : In Unicode.REPLACEMENT
                  (map (fun o => match o with
                                 | Some cp => cp
                                 | None => Unicode.REPLACEMENT
                                 end) items)).
  { apply in_map_iff. now exists None. }
  revert Hin. generalize (map (fun o : option Z => match o with
                                 | Some cp => cp
                                 | None => Unicode.REPLACEMENT
                                 end) items).
  intros cps Hin. unfold Unicode.strip_bom.
  destruct ignoreBOM; [assumption|].
  destruct cps as [|cp cps]; [assumption|].
  destruct (Z.eqb_spec cp Unicode.BOM) as [->|]; [|assumption].
  destruct Hin as [Hin|Hin]; [discriminate|assumption].
Qed.

(* ================================================================== *)
(** * Running the cryptographic functions *)
(* ================================================================== *)

Section Execution.

Context {engine : Engine} {kem : McEliece} {subtle : SubtleCrypto}.

Lemma length_drawn w n : length (drawn w n) = n.
Proof. unfold drawn. now rewrite length_map, length_seq. Qed.

Lemma calls_advanced n w : calls (advanced n w) = calls w.
Proof. reflexivity. Qed.

Lemma mceliece_encrypt_run publicKey w :
  mceliece_encrypt publicKey w
  = (kem_outcome (kem_encrypt (drawn w encrypt_coins) publicKey),
     advanced encrypt_coins (logged (call_mceliece_encrypt publicKey) w)).
Proof. reflexivity. Qed.

Lemma mceliece_decrypt_run cyphertext privateKey w :
  mceliece_decrypt cyphertext privateKey w
  = (kem_outcome (kem_decrypt cyphertext privateKey),
     logged (call_mceliece_decrypt cyphertext privateKey) w).
Proof. reflexivity. Qed.

Lemma subtle_importKey_run keyData usage w :
  subtle_importKey keyData usage w
  = (subtle_outcome (aes_importKey keyData usage),
     logged (call_importKey keyData usage) w).
Proof. reflexivity. Qed.

Lemma subtle_encrypt_run iv key data w :
  subtle_encrypt iv key data w
  = (subtle_outcome (aes_encrypt key iv data),
     logged (call_subtle_encrypt iv data) w).
Proof. reflexivity. Qed.

Lemma subtle_decrypt_run iv key data w :
  subtle_decrypt iv key data w
  = (subtle_outcome (aes_decrypt key iv data),
     logged (call_subtle_decrypt iv data) w).
Proof. reflexivity. Qed.

(** [decryptMessage] once the package and the private key are decoded:
    decapsulation, key import, AES-GCM decryption, text decoding, each
    stage after the call of the one before is recorded. *)
Lemma decryptMessage_run sk package envelope privateKey w :
  unpackageCiphertext package = Ok envelope ->
  base64ToArray sk = Ok privateKey ->
  let w1 := logged (call_mceliece_decrypt (kemCiphertext envelope) privateKey)
              w in
  decryptMessage sk package w =
    match kem_decrypt (kemCiphertext envelope) privateKey with
    | inl code => (Err (KemError code), w1)
    | inr secret =>
        let w2 := logged (call_importKey secret usage_decrypt) w1 in
        match aes_importKey secret usage_decrypt with
        | inl name => (Err (SubtleError name), w2)
        | inr aesKey =>
            let w3 := logged (call_subtle_decrypt (iv envelope)
                                (encryptedData envelope)) w2 in
            match aes_decrypt aesKey (iv envelope) (encryptedData envelope)
            with
            | inl name => (Err (SubtleError name), w3)
            | inr decryptedData =>
                (TextDecoder_decode false false decryptedData, w3)
            end
        end
    end.
Proof.
  intros Hu Hk. unfold decryptMessage, bind, lift. rewrite Hu, Hk.
  rewrite mceliece_decrypt_run.
  destruct (kem_decrypt (kemCiphertext envelope) privateKey) as [code|secret];
    cbn [kem_outcome]; [reflexivity|].
  rewrite subtle_importKey_run.
  destruct (aes_importKey secret usage_decrypt) as [name|aesKey];
    cbn [subtle_outcome]; [reflexivity|].
  rewrite subtle_decrypt_run.
  destruct (aes_decrypt aesKey (iv envelope) (encryptedData envelope))
    as [name|data]; cbn [subtle_outcome]; reflexivity.
Qed.

(** A package that is not base64 is refused before any primitive is
    called. *)
Lemma decryptMessage_not_base64 sk package e w :
  base64ToArray package = Err e ->
  decryptMessage sk package w = (Err InvalidCharacterError, w).
Proof.
  intros H. pose proof (base64ToArray_error _ H) as ->.
  unfold decryptMessage, bind, lift, unpackageCiphertext. now rewrite H.
Qed.

(** A key pair that [generateKeyPair] returns is a pair of the KEM, each
    key in base64. *)
Lemma generateKeyPair_inv w keys w' :
  generateKeyPair w = (Ok keys, w') ->
  exists sk pk,
    kem_keyPair (drawn w keyPair_coins) = inr (sk, pk)
    /\ privateKey keys = Base64.encode (map byte_val sk)
    /\ publicKey keys = Base64.encode (map byte_val pk).
Proof.
  unfold generateKeyPair, bind, mceliece_keyPair, bind, record,
    getRandomValues, lift, ret.
  change (drawn (logged call_keyPair w) keyPair_coins)
    with (drawn w keyPair_coins).
  destruct (kem_keyPair (drawn w keyPair_coins)) as [code|[sk pk]];
    cbn [kem_outcome]; [discriminate|].
  rewrite !arrayToBase64_run.
  destruct (encodable (len sk)); [|discriminate].
  destruct (encodable (len pk)); [|discriminate].
  intros [= <- _]. now exists sk, pk.
Qed.

Lemma calls_logged c w : calls (logged c w) = calls w ++ [c].
Proof. reflexivity. Qed.

(** [encryptMessage] once the public key is decoded: encapsulation, key
    import, the nonce, AES-GCM encryption, packaging, each stage after the
    call of the one before is recorded. *)
Lemma encryptMessage_run publicKeyBase64 pk m w :
  base64ToArray publicKeyBase64 = Ok pk ->
  let w1 := advanced encrypt_coins (logged (call_mceliece_encrypt pk) w) in
  encryptMessage publicKeyBase64 m w =
    match kem_encrypt (drawn w encrypt_coins) pk with
    | inl code => (Err (KemError code), w1)
    | inr (kemCt, secret) =>
        let w2 := logged (call_importKey secret usage_encrypt) w1 in
        match aes_importKey secret usage_encrypt with
        | inl name => (Err (SubtleError name), w2)
        | inr aesKey =>
            let w3 := logged (call_subtle_encrypt (fresh_nonce w)
                                (TextEncoder_encode m))
                        (advanced 12 w2) in
            match aes_encrypt aesKey (fresh_nonce w) (TextEncoder_encode m)
            with
            | inl name => (Err (SubtleError name), w3)
            | inr sealed =>
                (packageCiphertext kemCt (fresh_nonce w) sealed, w3)
            end
        end
    end.
Proof.
  intros Hpk. unfold encryptMessage, bind, lift. rewrite Hpk.
  rewrite mceliece_encrypt_run.
  change (drawn (logged (call_mceliece_encrypt pk) w) encrypt_coins)
    with (drawn w encrypt_coins).
  destruct (kem_encrypt (drawn w encrypt_coins) pk)
    as [code|[kemCt secret]]; cbn [kem_outcome]; [reflexivity|].
  rewrite subtle_importKey_run.
  destruct (aes_importKey secret usage_encrypt) as [name|aesKey];
    cbn [subtle_outcome]; [reflexivity|].
  unfold getRandomValues. rewrite subtle_encrypt_run. cbv zeta.
  match goal with
  | |- context [aes_encrypt aesKey ?n ?d] => change n with (fresh_nonce w)
  end.
  destruct (aes_encrypt aesKey (fresh_nonce w) (TextEncoder_encode m))
    as [name|sealed]; cbn [subtle_outcome]; reflexivity.
Qed.

(** A public key that is not base64 is refused before any primitive is
    called. *)
Lemma encryptMessage_not_base64 publicKeyBase64 m e w :
  base64ToArray publicKeyBase64 = Err e ->
  encryptMessage publicKeyBase64 m w = (Err InvalidCharacterError, w).
Proof.
  intros H. pose proof (base64ToArray_error _ H) as ->.
  unfold encryptMessage, bind, lift. now rewrite H.
Qed.

Lemma length_fresh_nonce w : len (fresh_nonce w) = 12.
Proof. unfold fresh_nonce, len. now rewrite length_drawn. Qed.

(** What a successful [encryptMessage] did, stage by stage. *)
Lemma encryptMessage_steps publicKeyBase64 m w package w' :
  encryptMessage publicKeyBase64 m w = (Ok package, w') ->
  exists pk kemCt secret aesKey sealed,
    base64ToArray publicKeyBase64 = Ok pk
    /\ kem_encrypt (drawn w encrypt_coins) pk = inr (kemCt, secret)
    /\ aes_importKey secret usage_encrypt = inr aesKey
    /\ aes_encrypt aesKey (fresh_nonce w) (TextEncoder_encode m) = inr sealed
    /\ encodable (package_size kemCt sealed) = true
    /\ package
       = Base64.encode
           (map byte_val
              (be32_bytes (len kemCt) ++ kemCt ++ fresh_nonce w ++ sealed))
    /\ w'
       = logged (call_subtle_encrypt (fresh_nonce w) (TextEncoder_encode m))
           (advanced 12
              (logged (call_importKey secret usage_encrypt)
                 (advanced encrypt_coins
                    (logged (call_mceliece_encrypt pk) w)))).
Proof.
  intros H.
  destruct (base64ToArray publicKeyBase64) as [pk|e] eqn:Hpk.
  2:{ rewrite (@encryptMessage_not_base64 _ m e w Hpk) in H. discriminate. }
  rewrite (@encryptMessage_run _ pk m w Hpk) in H. cbv zeta in H.
  destruct (kem_encrypt (drawn w encrypt_coins) pk)
    as [code|[kemCt secret]] eqn:Hke; [discriminate|].
  destruct (aes_importKey secret usage_encrypt) as [name|aesKey] eqn:Hi;
    [discriminate|].
  destruct (aes_encrypt aesKey (fresh_nonce w) (TextEncoder_encode m))
    as [name|sealed] eqn:Hs; [discriminate|].
  rewrite packageCiphertext_run in H by apply length_fresh_nonce.
  destruct (encodable (package_size kemCt sealed)) eqn:Hfit; [|discriminate].
  exists pk, kemCt, secret, aesKey, sealed.
  repeat split; try assumption; congruence.
Qed.

(** [encryptMessage] with a generated public key goes through every
    primitive; it returns a package when the engine takes one of that
    size, and throws a RangeError when it does not.  [decryptMessage] with
    the private key of the pair returns from the package the text that
    UTF-8 leaves of the plaintext. *)
Lemma encrypt_decrypt_through_utf8 w keys w1 m w2 :
  McEliece_contract kem -> SubtleCrypto_contract subtle ->
  generateKeyPair w = (Ok keys, w1) ->
  Forall code_unit m ->
  exists pk kemCt secret aesKey sealed w3,
    base64ToArray (publicKey keys) = Ok pk
    /\ kem_encrypt (drawn w2 encrypt_coins) pk = inr (kemCt, secret)
    /\ aes_importKey secret usage_encrypt = inr aesKey
    /\ aes_encrypt aesKey (fresh_nonce w2) (TextEncoder_encode m)
       = inr sealed
    /\ if encodable (package_size kemCt sealed)
       then exists package,
              encryptMessage (publicKey keys) m w2 = (Ok package, w3)
              /\ forall w4,
                  fst (decryptMessage (privateKey keys) package w4)
                  = Ok (through_utf8 m)
       else encryptMessage (publicKey keys) m w2 = (Err RangeError, w3).
Proof.
  intros Ckem Caes Hgen Hm.
  destruct (generateKeyPair_inv _ Hgen) as (sk & pk & Hkp & Esk & Epk).
  destruct (kem_encrypt_ok Ckem _ (drawn w2 encrypt_coins) (length_drawn _ _)
              Hkp (length_drawn _ _)) as (ct & secret & Henc).
  pose proof (kem_secret_length Ckem _ _ (length_drawn _ _) Henc) as Hsecret.
  pose proof (kem_cyphertext_length Ckem _ _ (length_drawn _ _) Henc) as Hct.
  pose proof (kem_decrypt_encrypt Ckem _ _ (length_drawn _ _) Hkp
                (length_drawn _ _) Henc) as Hdec.
  destruct (aes_importKey_ok Caes _ usage_encrypt Hsecret) as (key_e & Hke).
  destruct (aes_importKey_ok Caes _ usage_decrypt Hsecret) as (key_d & Hkd).
  pose proof (length_fresh_nonce w2) as Hnonce.
  assert (Hnonce' : length (fresh_nonce w2) = 12%nat)
    by (unfold fresh_nonce; apply length_drawn).
  destruct (aes_encrypt_ok Caes _ (fresh_nonce w2) (TextEncoder_encode m) Hke
              Hnonce') as (sealed & Hseal).
  pose proof (aes_decrypt_encrypt Caes _ _ _ Hke Hkd Hseal) as Hopen.
  assert (Hpk : base64ToArray (publicKey keys) = Ok pk)
    by (rewrite Epk; apply base64ToArray_encode).
  exists pk, ct, secret, key_e, sealed. eexists.
  split; [exact Hpk|]. split; [exact Henc|]. split; [exact Hke|].
  split; [exact Hseal|].
  rewrite (@encryptMessage_run _ pk m w2 Hpk). cbv zeta.
  rewrite Henc, Hke, Hseal, packageCiphertext_run by assumption.
  destruct (encodable (package_size ct sealed)); [|reflexivity].
  eexists. split; [reflexivity|]. intros w4.
  rewrite (@decryptMessage_run _ _
             {| kemCiphertext := ct; iv := fresh_nonce w2;
                encryptedData := sealed |} sk).
  - cbn [kemCiphertext iv encryptedData]. rewrite Hdec. cbv zeta.
    rewrite Hkd, Hopen. cbn [fst].
    now apply TextDecoder_TextEncoder.
  - rewrite unpackageCiphertext_encode. f_equal.
    now apply unpackageCombined_layout.
  - rewrite Esk. apply base64ToArray_encode.
Qed.

(** C1, as amended.  For a key pair that [generateKeyPair] returned and a
    plaintext that is a well-formed string and does not start with U+FEFF,
    the empty plaintext being one of them: [encryptMessage] goes through
    the encapsulation, the key import and the sealing; when the engine
    takes an array of the size of the package through [arrayToBase64], it
    returns a package, from which [decryptMessage] returns the plaintext;
    when it does not, [encryptMessage] throws a RangeError. *)
Theorem encrypt_decrypt_round_trip w keys w1 m w2 :
  McEliece_contract kem -> SubtleCrypto_contract subtle ->
  generateKeyPair w = (Ok keys, w1) ->
  Forall code_unit m -> well_formed m = true -> starts_with_BOM m = false ->
  exists pk kemCt secret aesKey sealed w3,
    base64ToArray (publicKey keys) = Ok pk
    /\ kem_encrypt (drawn w2 encrypt_coins) pk = inr (kemCt, secret)
    /\ aes_importKey secret usage_encrypt = inr aesKey
    /\ aes_encrypt aesKey (fresh_nonce w2) (TextEncoder_encode m)
       = inr sealed
    /\ if encodable (package_size kemCt sealed)
       then exists package,
              encryptMessage (publicKey keys) m w2 = (Ok package, w3)
              /\ forall w4,
                  fst (decryptMessage (privateKey keys) package w4) = Ok m
       else encryptMessage (publicKey keys) m w2 = (Err RangeError, w3).
Proof.
  intros Ckem Caes Hgen Hm Hw Hb.
  destruct (@encrypt_decrypt_through_utf8 w keys w1 m w2 Ckem Caes Hgen Hm)
    as (pk & kemCt & secret & aesKey & sealed & w3 & H1 & H2 & H3 & H4 & H).
  exists pk, kemCt, secret, aesKey, sealed, w3.
  repeat (split; [assumption|]).
  destruct (encodable (package_size kemCt sealed)); [|exact H].
  destruct H as (package & Henc & Hdec).
  exists package. split; [assumption|]. intros w4.
  rewrite Hdec. f_equal. now apply through_utf8_well_formed.
Qed.

(** C3, as amended.  A buffer shorter than its length field announces is
    not rejected by [unpackageCiphertext]: the components are cut to the
    bytes that are there (for a length field below 2^31: no sealed data and
    fewer than 12 bytes of nonce).  [decryptMessage] hands the KEM
    ciphertext it got from the buffer to the decapsulation, and when it
    fails, the error is one of a cryptographic primitive. *)
Theorem truncated_package_reaches_decapsulation
  sk package (buffer privateKey : Uint8Array) w :
  base64ToArray package = Ok buffer ->
  len buffer < 4 + be32 buffer + 12 ->
  base64ToArray sk = Ok privateKey ->
  let envelope := unpackageCombined buffer in
  unpackageCiphertext package = Ok envelope
  /\ (be32 buffer < 2 ^ 31 ->
      kemCiphertext envelope
      = firstn (Z.to_nat (be32 buffer)) (skipn 4 buffer)
      /\ len (iv envelope) < 12
      /\ encryptedData envelope = [])
  /\ (exists later,
        calls (snd (decryptMessage sk package w))
        = calls w
          ++ call_mceliece_decrypt (kemCiphertext envelope) privateKey
          :: later)
  /\ (forall e,
        fst (decryptMessage sk package w) = Err e ->
        (exists code, e = KemError code)
        \/ (exists name, e = SubtleError name)).
Proof.
  intros Hbuf Hshort Hsk envelope.
  assert (Hu : unpackageCiphertext package = Ok envelope)
    by (unfold unpackageCiphertext; now rewrite Hbuf).
  split; [exact Hu|]. split.
  { intros Hlow. pose proof (be32_range buffer) as Hr.
    assert (HL : readKemLength buffer = be32 buffer)
      by (rewrite readKemLength_signed; apply ToInt32_small; lia).
    destruct (unpackageCombined_truncated buffer (be32 buffer))
      as (Hkem & _ & Henc & _ & Hiv); auto; lia. }
  rewrite (@decryptMessage_run sk package envelope privateKey w Hu Hsk).
  destruct (kem_decrypt (kemCiphertext envelope) privateKey) as [code|secret].
  { split; [now exists [] | intros e [= <-]; left; now exists code]. }
  cbv zeta.
  destruct (aes_importKey secret usage_decrypt) as [name|aesKey].
  { split; [eexists; cbn; now rewrite <- app_assoc
           | intros e [= <-]; right; now exists name]. }
  destruct (aes_decrypt aesKey (iv envelope) (encryptedData envelope))
    as [name|data].
  { split; [eexists; cbn; now rewrite <- !app_assoc
           | intros e [= <-]; right; now exists name]. }
  split; [eexists; cbn; now rewrite <- !app_assoc|].
  intros e He. cbn [fst] in He.
  destruct (TextDecoder_nonfatal false data) as (text & Htext & _).
  congruence.
Qed.

(** C10.  Once AES-GCM decryption has succeeded, [decryptMessage] returns
    a string: the text decoding does not throw, and when the decrypted
    bytes are not valid UTF-8 -- not the encoding of any sequence of scalar
    values, which is when a fatal decoder would throw -- the string holds
    U+FFFD. *)
Theorem decrypt_text_decoding_total
  sk package envelope privateKey secret aesKey decryptedData w :
  unpackageCiphertext package = Ok envelope ->
  base64ToArray sk = Ok privateKey ->
  kem_decrypt (kemCiphertext envelope) privateKey = inr secret ->
  aes_importKey secret usage_decrypt = inr aesKey ->
  aes_decrypt aesKey (iv envelope) (encryptedData envelope)
  = inr decryptedData ->
  exists text,
    fst (decryptMessage sk package w) = Ok text
    /\ TextDecoder_decode false false decryptedData = Ok text
    /\ (~ valid_utf8 (map byte_val decryptedData) ->
        In Unicode.REPLACEMENT text)
    /\ (Unicode.utf8_decode true (map byte_val decryptedData) = Err TypeError
        <-> ~ valid_utf8 (map byte_val decryptedData)).
Proof.
  intros Hu Hsk Hkem Hkey Hopen.
  destruct (TextDecoder_nonfatal false decryptedData) as (text & Htext & Hrep).
  exists text.
  rewrite (@decryptMessage_run sk package envelope privateKey w Hu Hsk), Hkem.
  cbv zeta. rewrite Hkey, Hopen. cbn [fst].
  repeat split; auto; apply utf8_decode_fatal_iff, octets_byte_val.
Qed.

(** What a successful [encryptMessage] did. *)
Lemma encryptMessage_inv publicKeyBase64 m w package w' :
  encryptMessage publicKeyBase64 m w = (Ok package, w') ->
  exists publicKey kemCt secret sealed,
    base64ToArray publicKeyBase64 = Ok publicKey
    /\ kem_encrypt (drawn w encrypt_coins) publicKey = inr (kemCt, secret)
    /\ packageCiphertext kemCt (fresh_nonce w) sealed = Ok package
    /\ rng_tape w' = rng_tape w
    /\ rng_pos w' = (rng_pos w + encrypt_coins + 12)%nat.
Proof.
  unfold encryptMessage, bind, lift.
  destruct (base64ToArray publicKeyBase64) as [publicKey|]; [|discriminate].
  rewrite mceliece_encrypt_run.
  destruct (kem_encrypt (drawn w encrypt_coins) publicKey)
    as [|[kemCt secret]] eqn:Henc; cbn [kem_outcome]; [discriminate|].
  rewrite subtle_importKey_run.
  destruct (aes_importKey secret usage_encrypt) as [|aesKey];
    cbn [subtle_outcome]; [discriminate|].
  unfold getRandomValues. rewrite subtle_encrypt_run.
  match goal with
  | |- context [aes_encrypt aesKey ?n ?d] =>
      change n with (fresh_nonce w);
      destruct (aes_encrypt aesKey (fresh_nonce w) d) as [|sealed];
      cbn [subtle_outcome]; [discriminate|]
  end.
  destruct (packageCiphertext kemCt (fresh_nonce w) sealed) as [p|] eqn:Hp;
    [|discriminate].
  intros [= <- <-]. exists publicKey, kemCt, secret, sealed.
  repeat split; auto.
Qed.

(** C7.  The nonce of a call of [encryptMessage] is the 12 values that
    [crypto.getRandomValues] gives in this call: it is read off the random
    source alone, whatever the public key and the plaintext.  It is the
    nonce under which the one call of [crypto.subtle.encrypt] seals the
    plaintext, and the nonce that the package carries beside the data
    sealed under it.  The call uses those values up, so that a later call
    draws further on; and two calls whose draws differ seal under
    different nonces and give packages with different nonces. *)
Theorem encrypt_nonce_fresh publicKey m w package w' :
  (forall ec pk ct secret,
      length ec = encrypt_coins -> kem_encrypt ec pk = inr (ct, secret) ->
      len ct < 2 ^ 31) ->
  encryptMessage publicKey m w = (Ok package, w') ->
  exists envelope pk secret aesKey,
    unpackageCiphertext package = Ok envelope
    /\ iv envelope = fresh_nonce w
    /\ aes_importKey secret usage_encrypt = inr aesKey
    /\ aes_encrypt aesKey (fresh_nonce w) (TextEncoder_encode m)
       = inr (encryptedData envelope)
    /\ calls w'
       = calls w
         ++ [call_mceliece_encrypt pk;
             call_importKey secret usage_encrypt;
             call_subtle_encrypt (fresh_nonce w) (TextEncoder_encode m)]
    /\ fresh_nonce w = map (rng_tape w) (seq (rng_pos w + encrypt_coins) 12)
    /\ rng_tape w' = rng_tape w
    /\ rng_pos w' = (rng_pos w + encrypt_coins + 12)%nat
    /\ fresh_nonce w'
       = map (rng_tape w)
           (seq (rng_pos w + encrypt_coins + 12 + encrypt_coins) 12)
    /\ (forall publicKey2 m2 w2 package2 w2' envelope2,
          encryptMessage publicKey2 m2 w2 = (Ok package2, w2') ->
          unpackageCiphertext package2 = Ok envelope2 ->
          fresh_nonce w2 <> fresh_nonce w ->
          iv envelope2 <> iv envelope
          /\ forall data2,
              In (call_subtle_encrypt (fresh_nonce w) data2) (calls w2') ->
              In (call_subtle_encrypt (fresh_nonce w) data2) (calls w2)).
Proof.
  intros Hct Henc.
  assert (Hiv : forall pk0 m0 w0 package0 w0',
             encryptMessage pk0 m0 w0 = (Ok package0, w0') ->
             exists pk secret aesKey kemCt sealed,
               unpackageCiphertext package0
               = Ok {| kemCiphertext := kemCt; iv := fresh_nonce w0;
                       encryptedData := sealed |}
               /\ aes_importKey secret usage_encrypt = inr aesKey
               /\ aes_encrypt aesKey (fresh_nonce w0) (TextEncoder_encode m0)
                  = inr sealed
               /\ w0'
                  = logged (call_subtle_encrypt (fresh_nonce w0)
                              (TextEncoder_encode m0))
                      (advanced 12
                         (logged (call_importKey secret usage_encrypt)
                            (advanced encrypt_coins
                               (logged (call_mceliece_encrypt pk) w0))))).
  { intros pk0 m0 w0 package0 w0' H0.
    destruct (encryptMessage_steps _ _ _ H0)
      as (pk & kemCt & secret & aesKey & sealed & _ & Hkem & Hi & Hs & _
          & Hp & Hw).
    pose proof (Hct _ _ _ _ (length_drawn _ _) Hkem) as Hshort.
    exists pk, secret, aesKey, kemCt, sealed.
    split; [|now repeat split].
    rewrite Hp, unpackageCiphertext_encode. f_equal.
    apply unpackageCombined_layout; [exact Hshort|].
    apply length_fresh_nonce. }
  destruct (Hiv _ _ _ _ _ Henc)
    as (pk & secret & aesKey & kemCt & sealed & Hu & Hi & Hs & Hw).
  exists {| kemCiphertext := kemCt; iv := fresh_nonce w;
            encryptedData := sealed |}, pk, secret, aesKey.
  cbn [iv encryptedData].
  split; [exact Hu|]. split; [reflexivity|]. split; [exact Hi|].
  split; [exact Hs|].
  split.
  { rewrite Hw. cbn [calls logged advanced]. now rewrite <- !app_assoc. }
  split; [reflexivity|].
  split; [now rewrite Hw|]. split.
  { rewrite Hw. cbn [rng_pos logged advanced]. lia. }
  split.
  { rewrite Hw. unfold fresh_nonce, drawn, advanced.
    cbn [rng_tape rng_pos logged]. reflexivity. }
  intros publicKey2 m2 w2 package2 w2' envelope2 Henc2 Hu2 Hdiff.
  destruct (Hiv _ _ _ _ _ Henc2)
    as (pk2 & secret2 & aesKey2 & kemCt2 & sealed2 & Hu2' & _ & _ & Hw2).
  rewrite Hu2 in Hu2'. split.
  - assert (envelope2
            = {| kemCiphertext := kemCt2; iv := fresh_nonce w2;
                 encryptedData := sealed2 |}) as -> by congruence.
    exact Hdiff.
  - intros data2. rewrite Hw2. cbn [calls logged advanced].
    rewrite !in_app_iff. cbn [In].
    intros [[[H|[H|[]]]|[H|[]]]|[H|[]]]; try assumption; try discriminate.
    exfalso. apply Hdiff. congruence.
Qed.

(** C6.  When [decryptMessage] fails, at whatever stage and with whatever
    error, the decrypt button leaves the same thing to see: the one
    message, the output area hidden, the fields as they were.  Only the
    console holds the error. *)
Theorem decrypt_failure_uniform elapsed (p : Page) w e w' :
  is_empty (trim (decryptPrivkey_value p)) = false ->
  is_empty (trim (ciphertextInput_value p)) = false ->
  decryptMessage (trim (decryptPrivkey_value p))
    (trim (ciphertextInput_value p)) w = (Err e, w') ->
  let p' := fst (decryptBtn_click elapsed p w) in
  visible p'
  = (decryptPrivkey_value p, ciphertextInput_value p,
     Some ("✗ Decryption failed. Wrong key or corrupted data."%string,
           error_status),
     decryptedText_value p, true, false)
  /\ console p' = console p ++ [("Decryption error:"%string, e)].
Proof.
  intros Hsk Hct Hfail. unfold decryptBtn_click.
  rewrite Hsk, Hct.
  cbn [setButtonLoading setStatus decryptPrivkey_value ciphertextInput_value].
  rewrite Hfail. split; reflexivity.
Qed.
End Execution.

(* ================================================================== *)
(** * The textual transport encoding *)
(* ================================================================== *)

Lemma in_strip_one_pad c l :
  In c l -> c <> Base64.pad -> In c (Base64.strip_one_pad l).
Proof.
  intros Hin Hc. unfold Base64.strip_one_pad.
  destruct (rev l) as [|c0 r] eqn:E; [assumption|].
  destruct (Z.eqb_spec c0 Base64.pad) as [->|]; [|assumption].
  apply in_rev in Hin. rewrite E in Hin. destruct Hin as [Hin|Hin].
  - congruence.
  - now apply in_rev in Hin.
Qed.

Lemma atob_foreign_character (s : JSString) :
  existsb foreign_character s = true ->
  Base64.atob s = Err InvalidCharacterError.
Proof.
  intros [c [Hin Hc]]%existsb_exists. unfold foreign_character in Hc.
  apply negb_true_iff in Hc. apply orb_false_elim in Hc as [Hc Hws].
  apply orb_false_elim in Hc as [Halpha Hpad]. apply Z.eqb_neq in Hpad.
  unfold Base64.atob.
  set (data := filter (fun c => negb (Base64.is_ascii_whitespace c)) s).
  assert (Hd : In c data) by (apply filter_In; now rewrite Hws).
  set (data' := if len data mod 4 =? 0
                then Base64.strip_one_pad (Base64.strip_one_pad data)
                else data).
  assert (Hd' : In c data').
  { subst data'. destruct (len data mod 4 =? 0); [|assumption].
    apply in_strip_one_pad; [apply in_strip_one_pad|]; assumption. }
  destruct (len data' mod 4 =? 1); [reflexivity|].
  replace (forallb Base64.is_alphabet data') with false; [reflexivity|].
  symmetry. apply not_true_is_false. intros Hall.
  rewrite forallb_forall in Hall. specialize (Hall c Hd'). congruence.
Qed.

Lemma encode_characters (l : list Z) :
  Forall octet l ->
  forallb (fun c => Base64.is_alphabet c || (c =? Base64.pad))
    (Base64.encode l) = true.
Proof.
  intros Hl.
  destruct (Base64Facts.encode_shape Hl)
    as (body & padding & -> & Halpha & Hpad & _).
  rewrite forallb_app. apply andb_true_intro. split.
  - rewrite forallb_forall in *. intros c Hc. now rewrite Halpha.
  - now destruct Hpad as [->|[->| ->]].
Qed.

(** [atob] is the forgiving decoder: it skips ASCII white space and does
    not ask for the padding. *)
Lemma base64ToArray_forgiving :
  base64ToArray (js "QQ==") = Ok [x41]
  /\ base64ToArray (js "QQ") = Ok [x41]
  /\ base64ToArray (js " Q Q = = ") = Ok [x41]
  /\ base64ToArray (js "Q") = Err InvalidCharacterError
  /\ base64ToArray (js "Q=Q=") = Err InvalidCharacterError.
Proof. repeat split. Qed.

Lemma strip_one_pad_cases (l : JSString) :
  Base64.strip_one_pad l = l
  \/ l = Base64.strip_one_pad l ++ [Base64.pad].
Proof.
  unfold Base64.strip_one_pad.
  destruct (rev l) as [|c r] eqn:E; [now left|].
  destruct (Z.eqb_spec c Base64.pad) as [->|]; [right | now left].
  rewrite <- (rev_involutive l), E. reflexivity.
Qed.

Lemma len_snoc {A} (l : list A) (a : A) : len (l ++ [a]) = len l + 1.
Proof. rewrite len_app. reflexivity. Qed.

(** What [atob] decodes. *)
Lemma atob_forgiving (s : JSString) :
  (exists text, Base64.atob s = Ok text) <-> forgiving_base64 s.
Proof.
  unfold forgiving_base64, Base64.atob.
  set (data := filter (fun c => negb (Base64.is_ascii_whitespace c)) s).
  split.
  - intros [text H].
    destruct (Z.eqb_spec (len data mod 4) 0) as [H0|H0].
    + destruct (strip_one_pad_cases data) as [E1|E1].
      * rewrite !E1 in H.
        destruct (len data mod 4 =? 1); [discriminate|].
        destruct (forallb Base64.is_alphabet data) eqn:Ha; [|discriminate].
        exists data, []. rewrite app_nil_r. repeat split; auto.
        left. split; [reflexivity | lia].
      * set (d1 := Base64.strip_one_pad data) in *.
        destruct (strip_one_pad_cases d1) as [E2|E2].
        -- rewrite E2 in H.
           destruct (len d1 mod 4 =? 1); [discriminate|].
           destruct (forallb Base64.is_alphabet d1) eqn:Ha; [|discriminate].
           exists d1, [Base64.pad]. repeat split; auto.
           right. left. split; [reflexivity|].
           rewrite E1, len_snoc in H0. dlia.
        -- set (d2 := Base64.strip_one_pad d1) in *.
           destruct (len d2 mod 4 =? 1); [discriminate|].
           destruct (forallb Base64.is_alphabet d2) eqn:Ha; [|discriminate].
           exists d2, [Base64.pad; Base64.pad]. repeat split; auto.
           ++ rewrite E1, E2, <- app_assoc. reflexivity.
           ++ right. right. split; [reflexivity|].
              rewrite E1, E2, !len_snoc in H0. dlia.
    + destruct (Z.eqb_spec (len data mod 4) 1); [discriminate|].
      destruct (forallb Base64.is_alphabet data) eqn:Ha; [|discriminate].
      exists data, []. rewrite app_nil_r. repeat split; auto.
  - intros (body & padding & -> & Ha & Hp).
    assert (Hs : Base64.strip_one_pad
                   (Base64.strip_one_pad (body ++ padding)) = body).
    { apply Base64Facts.strip_padding; [assumption|].
      destruct Hp as [[-> _]|[[-> _]|[-> _]]]; auto. }
    assert (Hb : Base64.strip_one_pad (Base64.strip_one_pad body) = body)
      by now rewrite !(@Base64Facts.strip_one_pad_alphabet body Ha).
    destruct Hp as [[-> Hm]|[[-> Hm]|[-> Hm]]].
    + rewrite app_nil_r. rewrite Hb.
      destruct (len body mod 4 =? 0);
        (replace (len body mod 4 =? 1) with false
           by (symmetry; now apply Z.eqb_neq));
        rewrite Ha; cbn [negb]; eauto.
    + replace (len (body ++ [Base64.pad]) mod 4 =? 0) with true
        by (symmetry; apply Z.eqb_eq; rewrite len_snoc; dlia).
      rewrite Hs.
      replace (len body mod 4 =? 1) with false
        by (symmetry; apply Z.eqb_neq; lia).
      rewrite Ha. cbn [negb]. eauto.
    + replace (len (body ++ [Base64.pad; Base64.pad]) mod 4 =? 0) with true
        by (symmetry; apply Z.eqb_eq; rewrite len_app, !len_cons, len_nil;
            dlia).
      rewrite Hs.
      replace (len body mod 4 =? 1) with false
        by (symmetry; apply Z.eqb_neq; lia).
      rewrite Ha. cbn [negb]. eauto.
Qed.

Lemma base64ToArray_forgiving_iff (s : JSString) :
  (exists bytes, base64ToArray s = Ok bytes) <-> forgiving_base64 s.
Proof.
  rewrite <- atob_forgiving. unfold base64ToArray.
  destruct (Base64.atob s) as [text|e]; cbn [rbind]; split;
    intros [x H]; try discriminate; eauto.
Qed.

(** The shape of a standard text: characters of the alphabet in a number
    that the padding fills up to a multiple of 4. *)
Lemma standard_base64_shape (s : JSString) :
  standard_base64 s = true <->
  exists body padding,
    s = body ++ padding
    /\ forallb Base64.is_alphabet body = true
    /\ (padding = [] /\ len body mod 4 = 0
        \/ padding = [Base64.pad] /\ len body mod 4 = 3
        \/ padding = [Base64.pad; Base64.pad] /\ len body mod 4 = 2).
Proof.
  assert (Hgroups : forall n (s : JSString), (length s <= n)%nat ->
            (standard_base64 s = true <->
             exists body padding,
               s = body ++ padding
               /\ forallb Base64.is_alphabet body = true
               /\ (padding = [] /\ len body mod 4 = 0
                   \/ padding = [Base64.pad] /\ len body mod 4 = 3
                   \/ padding = [Base64.pad; Base64.pad]
                      /\ len body mod 4 = 2))).
  2:{ apply (Hgroups (length s)). reflexivity. }
  clear s. induction n as [|n IH]; intros s Hn.
  { destruct s; [|cbn [length] in Hn; lia]. split; [|reflexivity].
    intros _. exists [], []. repeat split. now left. }
  assert (Hlen : forall (body padding : JSString),
            padding = [] /\ len body mod 4 = 0
            \/ padding = [Base64.pad] /\ len body mod 4 = 3
            \/ padding = [Base64.pad; Base64.pad] /\ len body mod 4 = 2 ->
            len (body ++ padding) mod 4 = 0).
  { intros body padding [[-> Hm]|[[-> Hm]|[-> Hm]]];
      rewrite len_app, ?len_cons, ?len_nil; dlia. }
  destruct s as [|a [|b [|c [|d rest]]]].
  - split; [|reflexivity]. intros _. exists [], []. repeat split. now left.
  - split; [discriminate|].
    intros (body & padding & E & _ & Hp). apply Hlen in Hp.
    rewrite <- E in Hp. cbv in Hp. discriminate.
  - split; [discriminate|].
    intros (body & padding & E & _ & Hp). apply Hlen in Hp.
    rewrite <- E in Hp. cbv in Hp. discriminate.
  - split; [discriminate|].
    intros (body & padding & E & _ & Hp). apply Hlen in Hp.
    rewrite <- E in Hp. cbv in Hp. discriminate.
  - cbn [standard_base64]. destruct rest as [|e rest].
    + split.
      * intros H. apply andb_true_iff in H as [Hab H].
        apply andb_true_iff in Hab as [Ha Hb].
        apply orb_true_iff in H as [H|H].
        -- apply andb_true_iff in H as [Hc Hd].
           apply orb_true_iff in Hd as [Hd|Hd].
           ++ exists [a; b; c; d], []. cbn [forallb app].
              rewrite Ha, Hb, Hc, Hd. repeat split. now left.
           ++ apply Z.eqb_eq in Hd. subst d.
              exists [a; b; c], [Base64.pad]. cbn [forallb app].
              rewrite Ha, Hb, Hc. repeat split. right. now left.
        -- apply andb_true_iff in H as [Hc Hd].
           apply Z.eqb_eq in Hc, Hd. subst c d.
           exists [a; b], [Base64.pad; Base64.pad]. cbn [forallb app].
           rewrite Ha, Hb. repeat split. right. now right.
      * intros (body & padding & E & Ha & Hp).
        assert (Hl : (length body + length padding = 4)%nat).
        { apply (f_equal (@length Z)) in E. rewrite length_app in E.
          cbn [length] in E. lia. }
        destruct Hp as [[-> Hm]|[[-> Hm]|[-> Hm]]]; cbn [length] in Hl;
          destruct body as [|x [|y [|z [|t [|u body]]]]];
          cbn [length] in Hl; try lia;
          cbn [app] in E; injection E as -> -> -> ->;
          cbn [forallb] in Ha; rewrite !andb_true_iff in Ha;
          repeat match goal with H : _ /\ _ |- _ => destruct H end;
          repeat match goal with
            | H : Base64.is_alphabet _ = true |- _ => rewrite H; clear H
            end;
          rewrite ?Z.eqb_refl, ?orb_true_r; reflexivity.
    + assert (Hrest : (length (e :: rest) <= n)%nat)
        by (cbn [length] in *; lia).
      specialize (IH (e :: rest) Hrest). split.
      * intros H. rewrite !andb_true_iff in H.
        destruct H as ((Ha & Hb) & (Hc & Hd) & H).
        apply IH in H as (body & padding & E & Hbody & Hp).
        exists (a :: b :: c :: d :: body), padding.
        split; [cbn [app]; now rewrite E|]. split.
        { cbn [forallb]. now rewrite Ha, Hb, Hc, Hd. }
        rewrite !len_cons.
        destruct Hp as [[-> Hm]|[[-> Hm]|[-> Hm]]];
          [left | right; left | right; right]; split; auto; dlia.
      * intros (body & padding & E & Hbody & Hp).
        pose proof (Hlen _ _ Hp) as H4. rewrite <- E in H4.
        rewrite !len_cons in H4. unfold len in H4.
        assert (Hl : (length body + length padding = 5 + length rest)%nat).
        { apply (f_equal (@length Z)) in E. rewrite length_app in E.
          cbn [length] in E. lia. }
        assert (Hpl : (length padding <= 2)%nat)
          by (destruct Hp as [[-> _]|[[-> _]|[-> _]]]; cbn [length]; lia).
        destruct body as [|x [|y [|z [|t body]]]]; cbn [length] in Hl.
        -- exfalso. dlia.
        -- exfalso. dlia.
        -- exfalso. dlia.
        -- exfalso. dlia.
        -- injection E as -> -> -> -> E. cbn [forallb] in Hbody.
           rewrite !andb_true_iff in Hbody.
           destruct Hbody as (Ha & Hb & Hc & Hd & Hbody).
           rewrite !andb_true_iff. repeat split; auto.
           apply IH. exists body, padding. split; [exact E|].
           split; [exact Hbody|]. rewrite !len_cons in Hp.
           destruct Hp as [[-> Hm]|[[-> Hm]|[-> Hm]]];
             [left | right; left | right; right]; split; auto; dlia.
Qed.

(** The text of the encoder is standard. *)
Lemma standard_base64_encode (l : list Z) :
  Forall octet l -> standard_base64 (Base64.encode l) = true.
Proof.
  intros Hl. apply standard_base64_shape.
  destruct (Base64Facts.encode_shape Hl)
    as (body & padding & E & Ha & Hp & Hm & _).
  exists body, padding. split; [exact E|]. split; [exact Ha|].
  destruct Hp as [->|[->| ->]]; rewrite ?len_cons, ?len_nil in Hm;
    [left | right; left | right; right]; split; auto; dlia.
Qed.

(** The forgiving decoder takes every standard text. *)
Lemma standard_base64_forgiving (s : JSString) :
  standard_base64 s = true -> forgiving_base64 s.
Proof.
  intros (body & padding & -> & Ha & Hp)%standard_base64_shape.
  exists body, padding. split.
  - apply Base64Facts.filter_all. rewrite forallb_app.
    apply andb_true_intro. split.
    + rewrite forallb_forall in *. intros c Hc.
      now rewrite Base64Facts.alphabet_not_whitespace by auto.
    + destruct Hp as [[-> _]|[[-> _]|[-> _]]]; reflexivity.
  - split; [exact Ha|].
    destruct Hp as [[-> Hm]|[[-> Hm]|[-> Hm]]];
      [left | right; left | right; right]; split; auto; lia.
Qed.

(** Counterexample to C8 as stated: the text [QQ] is not standard base64,
    its padding is missing, and [base64ToArray] decodes it all the same;
    and on an engine with limits of the order of V8's, [arrayToBase64]
    throws a RangeError on an array of 2^31 bytes, so that there is no
    text to decode. *)
Lemma base64_transport_forgiving :
  standard_base64 (js "QQ") = false
  /\ base64ToArray (js "QQ") = Ok [x41]
  /\ @arrayToBase64 Toy.engine two_GiB = Err RangeError.
Proof.
  split; [reflexivity|]. split; [reflexivity|].
  rewrite arrayToBase64_run, len_two_GiB. reflexivity.
Qed.

(** C8, as amended.  When the engine takes the array through
    [arrayToBase64], the text is standard base64 without line breaks and
    [base64ToArray] gives the bytes back; when it does not,
    [arrayToBase64] throws a RangeError.  [base64ToArray] is the forgiving
    decoder: it decodes the texts that, ASCII white space apart, are
    characters of the alphabet, not 1 modulo 4 in number, or filled up to
    a multiple of 4 by one or two [=], every standard text among them,
    and no other string; on every other string it throws an
    [InvalidCharacterError], the only error it throws, which is none of
    the errors of the envelope code or of the cryptographic primitives. *)
Theorem base64_transport {engine : Engine} (a : Uint8Array) (s : JSString) :
  (if encodable (len a)
   then exists text,
          arrayToBase64 a = Ok text
          /\ standard_base64 text = true
          /\ base64ToArray text = Ok a
   else arrayToBase64 a = Err RangeError)
  /\ ((exists bytes, base64ToArray s = Ok bytes) <-> forgiving_base64 s)
  /\ (~ forgiving_base64 s -> base64ToArray s = Err InvalidCharacterError)
  /\ (standard_base64 s = true -> forgiving_base64 s)
  /\ (forall e,
        base64ToArray s = Err e ->
        e = InvalidCharacterError
        /\ e <> RangeError /\ e <> TypeError
        /\ (forall code, e <> KemError code)
        /\ (forall name, e <> SubtleError name)).
Proof.
  split; [|split; [|split; [|split]]].
  - rewrite arrayToBase64_run. destruct (encodable (len a)); [|reflexivity].
    eexists. split; [reflexivity|]. split.
    + apply standard_base64_encode, octets_byte_val.
    + apply base64ToArray_encode.
  - apply base64ToArray_forgiving_iff.
  - intros Hno. destruct (base64ToArray s) as [bytes|e] eqn:E.
    + exfalso. apply Hno, base64ToArray_forgiving_iff. now exists bytes.
    + now rewrite (base64ToArray_error _ E).
  - apply standard_base64_forgiving.
  - intros e ->%base64ToArray_error. repeat split; intros; discriminate.
Qed.

(** The byte 41 and the text [Q], one character where a group has at
    least two. *)
Lemma base64_transport_witness :
  @arrayToBase64 Toy.engine [x41] = Ok (js "QQ==")
  /\ base64ToArray (js "QQ==") = Ok [x41]
  /\ ~ forgiving_base64 (js "Q")
  /\ base64ToArray (js "Q") = Err InvalidCharacterError.
Proof.
  destruct (@base64_transport Toy.engine [x41] (js "Q"))
    as (_ & Hiff & Hfail & _).
  assert (Hno : ~ forgiving_base64 (js "Q")).
  { intros (bytes & Hb)%Hiff. vm_compute in Hb. discriminate. }
  split; [reflexivity|]. split; [reflexivity|].
  split; [exact Hno | exact (Hfail Hno)].
Defined.

(** Texts that are not base64: one character, and padding inside the
    text. *)
Lemma base64ToArray_invalid :
  base64ToArray (js "Q") = Err InvalidCharacterError
  /\ base64ToArray (js "Q=Q=") = Err InvalidCharacterError
  /\ base64ToArray (js "QQ=") = Err InvalidCharacterError
  /\ standard_base64 (js "Q") = false
  /\ standard_base64 (js "Q=Q=") = false
  /\ standard_base64 (js "QR==") = true
  /\ base64ToArray (js "QR==") = Ok [x41].
Proof. repeat split. Qed.

(* ================================================================== *)
(** * The stand-ins keep the promises of the collaborators *)
(* ================================================================== *)

Lemma bytes_eqb_refl (a : Uint8Array) : Toy.bytes_eqb a a = true.
Proof.
  induction a as [|b a IH]; [reflexivity|]. cbn [Toy.bytes_eqb].
  rewrite IH, andb_true_r. now apply Byte.byte_dec_lb.
Qed.

Lemma Toy_kem_contract : McEliece_contract Toy.kem.
Proof.
  split; cbn [kem_keyPair kem_encrypt kem_decrypt keyPair_coins encrypt_coins
              Toy.kem].
  - intros kc ec sk pk _ _ _. now eexists; eexists.
  - intros ec pk ct secret Hec [= <- <-]. exact Hec.
  - intros ec pk ct secret Hec Henc.
    assert (ct = ec ++ firstn 4 pk) as -> by congruence.
    rewrite len_app. unfold len. rewrite Hec, length_firstn. lia.
  - intros kc ec sk pk ct secret Hkc [= <- <-] Hec Henc.
    assert (ct = ec ++ firstn 4 (rev kc)) as -> by congruence.
    assert (secret = ec) as -> by congruence. clear Henc.
    assert (Hpk : firstn 4 (rev kc) = rev kc)
      by (apply firstn_all2; rewrite length_rev; lia).
    rewrite Hpk, length_app, length_rev, Hec, Hkc. cbn [Nat.eqb Nat.add andb].
    rewrite <- Hec, skipn_len_app, firstn_len_app, bytes_eqb_refl.
    reflexivity.
Qed.

Lemma length_tag key iv : length (Toy.tag key iv) = 16%nat.
Proof.
  unfold Toy.tag. rewrite length_firstn, !length_app, repeat_length. lia.
Qed.

Lemma Toy_subtle_contract : SubtleCrypto_contract Toy.subtle.
Proof.
  split; cbn [aes_importKey aes_encrypt aes_decrypt Toy.subtle CryptoKey].
  - intros keyData usage ->. now eexists.
  - intros keyData key iv data Hkey _.
    destruct (_ || _) in Hkey; [|discriminate].
    injection Hkey as <-. now eexists.
  - intros keyData key_e key_d iv data sealed He Hd.
    destruct (_ || _) in He, Hd; [|discriminate].
    injection He as <-. injection Hd as <-. cbn [fst snd].
    intros [= <-].
    rewrite length_app, length_tag.
    replace (length data + 16 <? 16)%nat with false
      by (symmetry; apply Nat.ltb_ge; lia).
    replace (length data + 16 - 16)%nat with (length data) by lia.
    now rewrite skipn_len_app, firstn_len_app, bytes_eqb_refl.
Qed.

(* ================================================================== *)
(** * The theorems on the stand-ins *)
(* ================================================================== *)

Section OnTheStandIns.

#[local] Existing Instance Toy.engine.
#[local] Existing Instance Toy.kem.
#[local] Existing Instance Toy.subtle.

(** Counterexample to C1 as stated: the plaintext made of the single code
    unit D800, an unpaired surrogate, comes back as U+FFFD. *)
Lemma round_trip_lone_surrogate :
  exists keys w1 package w2,
    generateKeyPair Toy.world = (Ok keys, w1)
    /\ encryptMessage (publicKey keys) [0xD800] w1 = (Ok package, w2)
    /\ fst (decryptMessage (privateKey keys) package w2) = Ok [0xFFFD]
    /\ fst (decryptMessage (privateKey keys) package w2) <> Ok [0xD800].
Proof.
  eexists _, _, _, _. split; [reflexivity|].
  split; [vm_compute; reflexivity|].
  split; [vm_compute; reflexivity | vm_compute; discriminate].
Qed.

(** A leading U+FEFF is lost as well: the plaintext FEFF "hi" comes back as
    "hi". *)
Lemma round_trip_leading_BOM :
  exists keys w1 package w2,
    generateKeyPair Toy.world = (Ok keys, w1)
    /\ encryptMessage (publicKey keys) (0xFEFF :: js "hi") w1
       = (Ok package, w2)
    /\ fst (decryptMessage (privateKey keys) package w2) = Ok (js "hi").
Proof.
  eexists _, _, _, _. split; [reflexivity|].
  split; [vm_compute; reflexivity|]. vm_compute; reflexivity.
Qed.

Lemma letters_well_formed n :
  Forall code_unit (repeat 0x41 n)
  /\ well_formed (repeat 0x41 n) = true
  /\ starts_with_BOM (repeat 0x41 n) = false
  /\ TextEncoder_encode (repeat 0x41 n) = repeat x41 n.
Proof.
  split; [|split; [|split]].
  - apply Forall_forall. intros c ->%repeat_spec. unfold code_unit. lia.
  - induction n as [|n IH]; [reflexivity|].
    cbn [repeat well_formed].
    change (Unicode.is_lead 0x41) with false.
    change (Unicode.is_trail 0x41) with false. exact IH.
  - destruct n; reflexivity.
  - unfold TextEncoder_encode.
    induction n as [|n IH]; [reflexivity|].
    cbn [repeat]. rewrite UnicodeFacts.scalar_values_single by reflexivity.
    cbn [flat_map]. change (Unicode.utf8_encode_cp 0x41) with [0x41].
    cbn [app map]. rewrite IH. reflexivity.
Qed.

Lemma encrypt_letters_throws n keys w1 :
  2 ^ 27 <= Z.of_nat n ->
  generateKeyPair Toy.world = (Ok keys, w1) ->
  fst (encryptMessage (publicKey keys) (repeat 0x41 n) w1) = Err RangeError.
Proof.
  intros Hn Hgen.
  destruct (letters_well_formed n) as (Hcu & _ & _ & Henc).
  destruct (@encrypt_decrypt_through_utf8 Toy.engine Toy.kem Toy.subtle
              Toy.world keys w1 (repeat 0x41 n) w1 Toy_kem_contract
              Toy_subtle_contract Hgen Hcu)
    as (pk & kemCt & secret & aesKey & sealed & w3 & _ & _ & _ & Hseal & H).
  assert (Hbig : encodable (package_size kemCt sealed) = false).
  { cbn [aes_encrypt Toy.subtle] in Hseal.
    destruct (snd aesKey); [|discriminate].
    assert (sealed = TextEncoder_encode (repeat 0x41 n)
                     ++ Toy.tag (fst aesKey) (fresh_nonce w1)) as ->
      by congruence.
    rewrite Henc. unfold encodable, package_size.
    rewrite len_app, len_repeat.
    pose proof (len_nonneg kemCt).
    pose proof (len_nonneg (Toy.tag (fst aesKey) (fresh_nonce w1))).
    cbn [max_array_length Toy.engine].
    replace (_ <=? 2 ^ 27) with false by (symmetry; apply Z.leb_gt; lia).
    reflexivity. }
  rewrite Hbig in H. now rewrite H.
Qed.

(** A plaintext too long for the engine: 2^27 letters A, a well-formed
    string.  On the stand-ins, with the limits of [Toy.engine],
    [encryptMessage] throws a RangeError when it comes to the package. *)
Lemma encrypt_long_text_throws :
  Forall code_unit long_text
  /\ well_formed long_text = true
  /\ starts_with_BOM long_text = false
  /\ exists keys w1,
      generateKeyPair Toy.world = (Ok keys, w1)
      /\ fst (encryptMessage (publicKey keys) long_text w1) = Err RangeError.
Proof.
  unfold long_text.
  destruct (letters_well_formed (Z.to_nat (2 ^ 27))) as (Hcu & Hwf & Hbom & _).
  split; [exact Hcu|]. split; [exact Hwf|]. split; [exact Hbom|].
  destruct (generateKeyPair Toy.world) as [[keys|e] w1] eqn:Hgen;
    [|vm_compute in Hgen; discriminate].
  exists keys, w1. split; [reflexivity|].
  apply encrypt_letters_throws; [|exact Hgen].
  rewrite Z2Nat.id; lia.
Qed.

(** Witness for the round trip: the plaintext "hi" and the
    empty plaintext. *)
Lemma encrypt_decrypt_round_trip_witness :
  exists keys w1,
    generateKeyPair Toy.world = (Ok keys, w1)
    /\ (exists package w3,
          encryptMessage (publicKey keys) (js "hi") w1 = (Ok package, w3)
          /\ forall w4,
              fst (decryptMessage (privateKey keys) package w4)
              = Ok (js "hi"))
    /\ (exists package w3,
          encryptMessage (publicKey keys) [] w1 = (Ok package, w3)
          /\ forall w4,
              fst (decryptMessage (privateKey keys) package w4) = Ok []).
Proof.
  destruct (generateKeyPair Toy.world) as [[keys|e] w1] eqn:Hgen;
    [|vm_compute in Hgen; discriminate].
  exists keys, w1. split; [reflexivity|]. split.
  - destruct (@encrypt_decrypt_round_trip Toy.engine Toy.kem Toy.subtle
                Toy.world keys w1 (js "hi") w1 Toy_kem_contract
                Toy_subtle_contract Hgen)
      as (pk & kemCt & secret & aesKey & sealed & w3 & _ & _ & _ & _ & H).
    + repeat constructor; unfold code_unit; lia.
    + reflexivity.
    + reflexivity.
    + destruct (encodable (package_size kemCt sealed)).
      * destruct H as (package & H). now exists package, w3.
      * exfalso. vm_compute in Hgen. inversion Hgen; subst keys w1.
        vm_compute in H. discriminate.
  - destruct (@encrypt_decrypt_round_trip Toy.engine Toy.kem Toy.subtle
                Toy.world keys w1 [] w1 Toy_kem_contract
                Toy_subtle_contract Hgen)
      as (pk & kemCt & secret & aesKey & sealed & w3 & _ & _ & _ & _ & H).
    + constructor.
    + reflexivity.
    + reflexivity.
    + destruct (encodable (package_size kemCt sealed)).
      * destruct H as (package & H). now exists package, w3.
      * exfalso. vm_compute in Hgen. inversion Hgen; subst keys w1.
        vm_compute in H. discriminate.
Defined.

(** Counterexample to C3 as stated: the four bytes 00 00 00 F0 announce a
    KEM ciphertext of 240 bytes, of which there is none;
    [unpackageCiphertext] returns three empty components, and
    [decryptMessage] calls the decapsulation on the empty KEM ciphertext. *)
Lemma truncated_package_not_rejected :
  base64ToArray Samples.truncated64 = Ok [x00; x00; x00; xf0]
  /\ len [x00; x00; x00; xf0] < 4 + be32 [x00; x00; x00; xf0] + 12
  /\ unpackageCiphertext Samples.truncated64
     = Ok {| kemCiphertext := []; iv := []; encryptedData := [] |}
  /\ calls (snd (decryptMessage Samples.privateKey64 Samples.truncated64
                   Toy.world))
     = [call_mceliece_decrypt [] Samples.privateKey].
Proof. repeat split. Qed.

(** Witness for the truncated package: the same four
    bytes. *)
Lemma truncated_package_reaches_decapsulation_witness :
  base64ToArray Samples.truncated64 = Ok [x00; x00; x00; xf0]
  /\ len [x00; x00; x00; xf0] < 4 + be32 [x00; x00; x00; xf0] + 12
  /\ base64ToArray Samples.privateKey64 = Ok Samples.privateKey
  /\ unpackageCiphertext Samples.truncated64
     = Ok (unpackageCombined [x00; x00; x00; xf0]).
Proof.
  split; [reflexivity|]. split; [reflexivity|]. split; [reflexivity|].
  exact (proj1 (@truncated_package_reaches_decapsulation Toy.kem Toy.subtle
                  Samples.privateKey64 Samples.truncated64
                  [x00; x00; x00; xf0] Samples.privateKey Toy.world
                  eq_refl eq_refl eq_refl)).
Defined.

(** Witness for the uniform failure: a ciphertext field that is not
    base64. *)
Lemma decrypt_failure_uniform_witness :
  visible (fst (decryptBtn_click "0.01"
                  (Toy.page (js " AAECAw== ") (js "!!")) Toy.world))
  = (js " AAECAw== ", js "!!",
     Some ("✗ Decryption failed. Wrong key or corrupted data."%string,
           error_status),
     [], true, false).
Proof.
  exact (proj1 (@decrypt_failure_uniform Toy.kem Toy.subtle "0.01"
                  (Toy.page (js " AAECAw== ") (js "!!")) Toy.world
                  InvalidCharacterError Toy.world eq_refl eq_refl eq_refl)).
Defined.

(** A failure of each stage: text that is not base64, a KEM ciphertext that
    the decapsulation refuses, sealed data whose tag is wrong.  The console
    tells them apart, what the user sees does not. *)
Lemma decrypt_failure_stages_alike :
  let click ciphertext :=
    fst (decryptBtn_click "0.01"
           (Toy.page Samples.privateKey64 ciphertext) Toy.world) in
  let p1 := click (js "!!") in
  let p2 := click Samples.truncated64 in
  let p3 := click (Samples.package_of Samples.tampered) in
  console p1 = [("Decryption error:"%string, InvalidCharacterError)]
  /\ console p2 = [("Decryption error:"%string, KemError 1)]
  /\ console p3 = [("Decryption error:"%string, SubtleError OperationError)]
  /\ decryptStatus p1 = decryptStatus p2
  /\ decryptStatus p2 = decryptStatus p3
  /\ decryptedOutput_hidden p1 = true
  /\ decryptedOutput_hidden p2 = true
  /\ decryptedOutput_hidden p3 = true.
Proof. repeat split; vm_compute; reflexivity. Qed.

(** Witness for the fresh nonce: a call on the stand-ins. *)
Lemma encrypt_nonce_fresh_witness :
  exists package w',
    encryptMessage Samples.publicKey64 (js "hi") Toy.world = (Ok package, w')
    /\ exists envelope,
        unpackageCiphertext package = Ok envelope
        /\ iv envelope = fresh_nonce Toy.world
        /\ In (call_subtle_encrypt (fresh_nonce Toy.world)
                 (TextEncoder_encode (js "hi")))
             (calls w').
Proof.
  eexists _, _. split; [vm_compute; reflexivity|].
  destruct (@encrypt_nonce_fresh Toy.engine Toy.kem Toy.subtle
              Samples.publicKey64 (js "hi") Toy.world _ _
              (kem_cyphertext_length Toy_kem_contract) eq_refl)
    as (envelope & pk & secret & aesKey & Hu & Hiv & _ & _ & Hcalls & _).
  exists envelope. split; [exact Hu|]. split; [exact Hiv|].
  refine (eq_ind_r (fun log => In _ log) _ Hcalls).
  apply in_or_app. right. cbn [In]. tauto.
Defined.

(** Witness for the text decoding: sealed data that opens to the
    byte ff. *)
Lemma decrypt_text_decoding_total_witness :
  exists text,
    fst (decryptMessage Samples.privateKey64
           (Samples.package_of Samples.garbled) Toy.world) = Ok text
    /\ In Unicode.REPLACEMENT text.
Proof.
  destruct (@decrypt_text_decoding_total Toy.kem Toy.subtle
              Samples.privateKey64 (Samples.package_of Samples.garbled)
              {| kemCiphertext := Samples.kem_ct; iv := Scenario.nonce;
                 encryptedData := Samples.garbled |}
              Samples.privateKey Samples.secret
              (Samples.secret, usage_decrypt) [xff] Toy.world
              eq_refl eq_refl eq_refl eq_refl eq_refl)
    as (text & Hdec & _ & Hrep & Hfatal).
  exists text. split; [exact Hdec | apply Hrep, Hfatal; reflexivity].
Defined.

End OnTheStandIns.
(* ================================================================== *)
(** * More on the base64 helpers *)
(* ================================================================== *)

(** X1.  The text of [arrayToBase64] has four characters for every three
    bytes, the last group filled up: 4 * ceil(n / 3) characters for n
    bytes, whenever the engine takes the array through; and the function
    throws nothing but a RangeError. *)
Theorem arrayToBase64_length {engine : Engine} (a : Uint8Array) :
  (forall text,
      arrayToBase64 a = Ok text -> len text = 4 * ((len a + 2) / 3))
  /\ (forall e, arrayToBase64 a = Err e -> e = RangeError)
  /\ (len a <= 2 ^ 23 -> exists text, arrayToBase64 a = Ok text).
Proof.
  rewrite arrayToBase64_run. split; [|split].
  - destruct (encodable (len a)); [|discriminate].
    intros text [= <-]. now rewrite encode_length, len_map.
  - destruct (encodable (len a)); [discriminate|]. now intros e [= <-].
  - intros Hn. rewrite encodable_small by (pose proof (len_nonneg a); lia).
    now eexists.
Qed.

Lemma arrayToBase64_length_witness :
  exists text, @arrayToBase64 Toy.engine [x00; x01; x02; x03] = Ok text.
Proof.
  apply (@arrayToBase64_length Toy.engine [x00; x01; x02; x03]).
  vm_compute. discriminate.
Defined.

Lemma filter_filter {A} (f : A -> bool) (l : list A) :
  filter f (filter f l) = filter f l.
Proof.
  induction l as [|x l IH]; [reflexivity|]. cbn [filter].
  destruct (f x) eqn:E; [cbn [filter]; rewrite E; now f_equal | assumption].
Qed.

(** [atob] looks at its argument with the ASCII white space taken out. *)
Lemma atob_without_whitespace (s : JSString) :
  Base64.atob (filter (fun c => negb (Base64.is_ascii_whitespace c)) s)
  = Base64.atob s.
Proof. unfold Base64.atob. now rewrite filter_filter. Qed.

Lemma filter_not_pad body padding :
  forallb Base64.is_alphabet body = true ->
  padding = [] \/ padding = [Base64.pad] \/ padding = [Base64.pad; Base64.pad] ->
  filter (fun c => negb (c =? Base64.pad)) (body ++ padding) = body.
Proof.
  intros Hb Hp. rewrite filter_app.
  replace (filter _ padding) with (@nil Z)
    by (destruct Hp as [->|[->| ->]]; reflexivity).
  rewrite app_nil_r. apply Base64Facts.filter_all.
  rewrite forallb_forall in *. intros c Hc.
  now rewrite Base64Facts.alphabet_not_pad by auto.
Qed.

Lemma atob_unpadded (l : list Z) :
  Forall octet l ->
  Base64.atob (filter (fun c => negb (c =? Base64.pad)) (Base64.encode l))
  = Ok l.
Proof.
  intros Hl.
  destruct (Base64Facts.encode_shape Hl)
    as (body & padding & -> & Hbody & Hpad & Hlen & Hdec).
  rewrite filter_not_pad by assumption.
  unfold Base64.atob.
  rewrite Base64Facts.filter_all.
  2:{ rewrite forallb_forall in *. intros c Hc.
      now rewrite Base64Facts.alphabet_not_whitespace by auto. }
  assert (Hmod : len body mod 4 <> 1).
  { destruct Hpad as [->|[->| ->]]; rewrite ?len_cons, ?len_nil in Hlen;
      dlia. }
  rewrite !(@Base64Facts.strip_one_pad_alphabet body Hbody).
  destruct (len body mod 4 =? 0);
    (replace (len body mod 4 =? 1) with false
       by (symmetry; now apply Z.eqb_neq));
    rewrite Hbody; cbn [negb]; now rewrite Hdec.
Qed.

(** X2.  [base64ToArray] is forgiving: a text whose characters, ASCII white
    space apart, are those that [arrayToBase64] writes for [a], with or
    without the [=] at its end, decodes to [a]. *)
Theorem base64ToArray_whitespace_padding (a : Uint8Array) (s : JSString) :
  let text := Base64.encode (map byte_val a) in
  let bare := filter (fun c => negb (Base64.is_ascii_whitespace c)) s in
  bare = text \/ bare = filter (fun c => negb (c =? Base64.pad)) text ->
  base64ToArray s = Ok a.
Proof.
  intros text bare H.
  unfold base64ToArray. rewrite <- atob_without_whitespace. fold bare.
  destruct H as [-> | ->].
  - unfold text. rewrite Base64Facts.atob_encode by apply octets_byte_val.
    cbn [rbind]. now rewrite map_ToUint8_byte_val.
  - unfold text. rewrite atob_unpadded by apply octets_byte_val.
    cbn [rbind]. now rewrite map_ToUint8_byte_val.
Qed.

Lemma base64ToArray_whitespace_padding_witness :
  filter (fun c => negb (Base64.is_ascii_whitespace c)) (js " AAE CAw ")
  = filter (fun c => negb (c =? Base64.pad))
      (Base64.encode (map byte_val [x00; x01; x02; x03]))
  /\ base64ToArray (js " AAE CAw ") = Ok [x00; x01; x02; x03].
Proof.
  split; [reflexivity|].
  apply (@base64ToArray_whitespace_padding [x00; x01; x02; x03]
           (js " AAE CAw ")).
  right. reflexivity.
Defined.

(* ================================================================== *)
(** * More on the envelope *)
(* ================================================================== *)

Lemma set_at (pre rest src : Uint8Array) (offset : Z) :
  offset = len pre -> len src <= len rest ->
  set (pre ++ rest) src offset
  = Ok (pre ++ src ++ skipn (length src) rest).
Proof.
  intros -> Hfit. unfold set.
  replace (len pre <? 0) with false by (pose proof (len_nonneg pre); zbool).
  replace (len (pre ++ rest) <? len src + len pre) with false
    by (rewrite len_app; zbool).
  cbn [orb]. rewrite to_nat_len, firstn_len_app.
  rewrite skipn_app, (skipn_all2 pre) by lia.
  replace (length pre + length src - length pre)%nat with (length src) by lia.
  reflexivity.
Qed.

Lemma set_too_long (pre rest src : Uint8Array) (offset : Z) :
  offset = len pre -> len rest < len src ->
  set (pre ++ rest) src offset = Err RangeError.
Proof.
  intros -> Hlong. unfold set.
  replace (len (pre ++ rest) <? len src + len pre) with true
    by (rewrite len_app; zbool).
  now rewrite orb_true_r.
Qed.

Lemma firstn_repeat {A} (x : A) (j m : nat) :
  (j <= m)%nat -> firstn j (repeat x m) = repeat x j.
Proof.
  revert m. induction j as [|j IH]; intros m Hjm; [reflexivity|].
  destruct m as [|m]; [lia|]. cbn [repeat firstn]. f_equal. apply IH. lia.
Qed.

Lemma skipn_repeat {A} (x : A) (j m : nat) :
  skipn j (repeat x m) = repeat x (m - j).
Proof.
  revert m. induction j as [|j IH]; intros m.
  - now rewrite Nat.sub_0_r.
  - destruct m as [|m]; [reflexivity|]. cbn [repeat skipn Nat.sub]. apply IH.
Qed.

Lemma firstn_zero_filled (iv : Uint8Array) (m : nat) :
  (12 <= length iv + m)%nat ->
  firstn 12 (iv ++ repeat x00 m) = nonce_field iv.
Proof.
  intros H. unfold nonce_field. rewrite !firstn_app.
  rewrite !firstn_repeat by lia. reflexivity.
Qed.

Lemma packageCombined_any_nonce (kem iv enc : Uint8Array) :
  packageCombined kem iv enc
  = if len iv <=? 12 + len enc
    then Ok (be32_bytes (len kem) ++ kem ++ nonce_field iv ++ enc)
    else Err RangeError.
Proof.
  unfold packageCombined, new_Uint8Array.
  replace (Z.to_nat (4 + len kem + 12 + len enc))
    with (4 + (length kem + (12 + length enc)))%nat by (unfold len; lia).
  rewrite !repeat_app. change (repeat x00 4) with [x00; x00; x00; x00].
  cbn [app]. unfold store. cbn [length Nat.ltb Nat.leb firstn skipn app].
  rewrite header_byte_0, header_byte_1, header_byte_2, header_byte_3.
  rewrite !ToUint8_mod.
  change (?a :: ?b :: ?c :: ?d :: ?rest) with ([a; b; c; d] ++ rest).
  rewrite set_middle by (try reflexivity; now rewrite repeat_length).
  cbn [rbind]. fold (be32_bytes (len kem)).
  rewrite (app_assoc _ kem), <- repeat_app.
  set (pre := be32_bytes (len kem) ++ kem).
  assert (Hpre : len pre = 4 + len kem)
    by (unfold pre; now rewrite len_app, len_be32_bytes).
  destruct (Z.leb_spec (len iv) (12 + len enc)) as [Hfit|Hlong].
  - rewrite set_at; [| lia | rewrite len_repeat; unfold len in *; lia].
    cbn [rbind]. rewrite skipn_repeat.
    unfold set.
    replace (4 + len kem + 12 <? 0) with false
      by (pose proof (len_nonneg kem); zbool).
    replace (len (pre ++ iv ++ repeat x00 (12 + length enc - length iv))
             <? len enc + (4 + len kem + 12)) with false.
    2:{ rewrite !len_app, len_repeat, Hpre. unfold len in *. zbool. }
    cbn [orb rbind]. f_equal.
    replace (Z.to_nat (4 + len kem + 12)) with (length pre + 12)%nat
      by (unfold len in *; lia).
    rewrite firstn_app_2, skipn_all2.
    2:{ rewrite !length_app, repeat_length. unfold len in *. lia. }
    rewrite app_nil_r, firstn_zero_filled by (unfold len in *; lia).
    unfold pre. now rewrite <- !app_assoc.
  - rewrite set_too_long; [reflexivity | lia |].
    rewrite len_repeat. unfold len in *. lia.
Qed.

(** X3.  [packageCiphertext] does not check the length of the nonce.  It
    throws a RangeError when the nonce is more than 12 bytes longer than
    the sealed data; otherwise it succeeds, and the package holds the
    first 12 bytes of a longer nonce, or a shorter nonce filled with zero
    bytes. *)
Theorem packageCiphertext_any_nonce {engine : Engine}
  (kem iv enc : Uint8Array) :
  packageCiphertext kem iv enc
  = if len iv <=? 12 + len enc
    then arrayToBase64 (be32_bytes (len kem) ++ kem
                        ++ firstn 12 (iv ++ repeat x00 12) ++ enc)
    else Err RangeError.
Proof.
  unfold packageCiphertext. rewrite packageCombined_any_nonce.
  now destruct (len iv <=? 12 + len enc).
Qed.

Lemma slice_from {A} (a : list A) (s : Z) :
  0 <= s -> slice a s None = skipn (Z.to_nat s) a.
Proof.
  intros Hs. unfold slice, rel_index.
  replace (s <? 0) with false by zbool.
  destruct (Z.min_spec s (len a)) as [[Hlt ->] | [Hge ->]].
  - replace (Z.to_nat (len a - s)) with (length a - Z.to_nat s)%nat
      by (unfold len; lia).
    rewrite <- length_skipn. apply firstn_all.
  - rewrite Z.sub_diag, to_nat_len. cbn [Z.to_nat firstn].
    symmetry. apply skipn_all2. unfold len in Hge. lia.
Qed.

Unset Implicit Arguments.

Lemma unpackageCombined_nonneg (buffer : Uint8Array) (L : Z) :
  L = readKemLength buffer -> 0 <= L ->
  unpackageCombined buffer
  = {| kemCiphertext := firstn (Z.to_nat L) (skipn 4 buffer);
       iv := firstn 12 (skipn (Z.to_nat L) (skipn 4 buffer));
       encryptedData := skipn 12 (skipn (Z.to_nat L) (skipn 4 buffer)) |}.
Proof.
  intros HL H0. unfold unpackageCombined. rewrite <- HL.
  rewrite !slice_nonneg by lia. rewrite slice_from by lia.
  rewrite !skipn_skipn. f_equal.
  - f_equal. lia.
  - f_equal; [lia|]. f_equal. lia.
  - f_equal. lia.
Qed.

(** X4.  When the length field L is read as a non-negative number,
    [unpackageCiphertext] cuts the bytes after the four of the field into
    three consecutive pieces: no byte is lost, repeated or reordered, the
    KEM ciphertext has at most L bytes and the nonce at most 12. *)
Theorem unpackageCiphertext_partition (s : JSString) (buffer : Uint8Array) :
  base64ToArray s = Ok buffer -> 0 <= readKemLength buffer ->
  exists envelope,
    unpackageCiphertext s = Ok envelope
    /\ kemCiphertext envelope ++ iv envelope ++ encryptedData envelope
       = skipn 4 buffer
    /\ len (kemCiphertext envelope) <= readKemLength buffer
    /\ len (iv envelope) <= 12.
Proof.
  intros Hs HL. exists (unpackageCombined buffer).
  unfold unpackageCiphertext. rewrite Hs. cbn [rbind].
  split; [reflexivity|].
  rewrite (unpackageCombined_nonneg buffer _ eq_refl HL).
  cbn [kemCiphertext iv encryptedData].
  repeat split.
  - now rewrite !firstn_skipn.
  - unfold len. rewrite length_firstn. lia.
  - unfold len. rewrite length_firstn. lia.
Qed.

Lemma unpackageCiphertext_partition_witness :
  exists envelope,
    unpackageCiphertext (js "AAAAAQIDBAU=") = Ok envelope
    /\ kemCiphertext envelope ++ iv envelope ++ encryptedData envelope
       = [x02; x03; x04; x05].
Proof.
  destruct (unpackageCiphertext_partition (js "AAAAAQIDBAU=")
              [x00; x00; x00; x01; x02; x03; x04; x05])
    as (envelope & H1 & H2 & _).
  - reflexivity.
  - vm_compute. discriminate.
  - exists envelope. split; [exact H1 | exact H2].
Defined.

Set Implicit Arguments.


Unset Implicit Arguments.


Set Implicit Arguments.



(* ================================================================== *)
(** * More on the cryptographic functions *)
(* ================================================================== *)

Section MoreExecution.

Context {engine : Engine} {kem : McEliece} {subtle : SubtleCrypto}.

Lemma generateKeyPair_run w :
  generateKeyPair w
  = let w' := advanced keyPair_coins (logged call_keyPair w) in
    match kem_keyPair (drawn w keyPair_coins) with
    | inl code => (Err (KemError code), w')
    | inr (sk, pk) =>
        if encodable (len sk) && encodable (len pk)
        then (Ok {| privateKey := Base64.encode (map byte_val sk);
                    publicKey := Base64.encode (map byte_val pk);
                    privateKeySize := len sk;
                    publicKeySize := len pk |}, w')
        else (Err RangeError, w')
    end.
Proof.
  unfold generateKeyPair, bind, mceliece_keyPair, bind, record,
    getRandomValues, lift, ret.
  change (drawn (logged call_keyPair w) keyPair_coins)
    with (drawn w keyPair_coins).
  destruct (kem_keyPair (drawn w keyPair_coins)) as [code|[sk pk]];
    cbn [kem_outcome]; [reflexivity|].
  rewrite !arrayToBase64_run.
  destruct (encodable (len sk)); [|reflexivity].
  destruct (encodable (len pk)); reflexivity.
Qed.

(** X6.  [generateKeyPair] calls [mceliece.keyPair] once and nothing else.
    The keys it returns are base64 texts that [base64ToArray] decodes to
    the keys of the package, and the sizes it reports are their numbers of
    bytes; when it throws, the error is the package's, or a RangeError for
    a key that the engine does not take through [arrayToBase64]. *)
Theorem generateKeyPair_keys w :
  calls (snd (generateKeyPair w)) = calls w ++ [call_keyPair]
  /\ (forall keys,
        fst (generateKeyPair w) = Ok keys ->
        exists sk pk,
          kem_keyPair (drawn w keyPair_coins) = inr (sk, pk)
          /\ base64ToArray (privateKey keys) = Ok sk
          /\ base64ToArray (publicKey keys) = Ok pk
          /\ privateKeySize keys = len sk
          /\ publicKeySize keys = len pk)
  /\ (forall e,
        fst (generateKeyPair w) = Err e ->
        (exists code,
            e = KemError code
            /\ kem_keyPair (drawn w keyPair_coins) = inl code)
        \/ (exists sk pk,
              e = RangeError
              /\ kem_keyPair (drawn w keyPair_coins) = inr (sk, pk)
              /\ encodable (len sk) && encodable (len pk) = false)).
Proof.
  rewrite generateKeyPair_run. cbv zeta.
  destruct (kem_keyPair (drawn w keyPair_coins)) as [code|[sk pk]].
  - cbn [fst snd]. split; [reflexivity|]. split; [discriminate|].
    intros e [= <-]. left. now exists code.
  - destruct (encodable (len sk) && encodable (len pk)) eqn:Hfit;
      cbn [fst snd]; (split; [reflexivity|]); split.
    + intros keys [= <-]. exists sk, pk.
      cbn [privateKey publicKey privateKeySize publicKeySize].
      now rewrite !base64ToArray_encode.
    + discriminate.
    + discriminate.
    + intros e [= <-]. right. now exists sk, pk.
Qed.

(** Once the public key is decoded, [mceliece.encrypt] is the first
    call of [encryptMessage]. *)
Lemma encryptMessage_first_call publicKeyBase64 publicKey m w :
  base64ToArray publicKeyBase64 = Ok publicKey ->
  exists later,
    calls (snd (encryptMessage publicKeyBase64 m w))
    = calls w ++ call_mceliece_encrypt publicKey :: later.
Proof.
  intros Hpk. rewrite (@encryptMessage_run _ _ _ _ _ m w Hpk). cbv zeta.
  destruct (kem_encrypt (drawn w encrypt_coins) publicKey)
    as [code|[kemCt secret]]; cbn [fst snd]; [now exists []|].
  destruct (aes_importKey secret usage_encrypt) as [name|aesKey];
    cbn [fst snd].
  { eexists. rewrite calls_logged, calls_advanced, calls_logged.
    now rewrite <- app_assoc. }
  destruct (aes_encrypt aesKey (fresh_nonce w) (TextEncoder_encode m))
    as [name|sealed]; cbn [fst snd];
    (eexists;
     rewrite calls_logged, calls_advanced, calls_logged, calls_advanced,
       calls_logged;
     now rewrite <- !app_assoc).
Qed.

(** X7.  What [encryptMessage] can throw.  A public key that is not
    base64 gives an InvalidCharacterError before a primitive is called or
    a random value drawn; after that [mceliece.encrypt] is the first call,
    and the only errors are those of [mceliece.encrypt] and of
    [crypto.subtle], and the RangeError of a package that the engine does
    not take through [arrayToBase64]: the packaging itself never throws
    (the nonce has 12 bytes), nor does the text encoder. *)
Theorem encryptMessage_errors publicKeyBase64 m w :
  match base64ToArray publicKeyBase64 with
  | Err _ => encryptMessage publicKeyBase64 m w = (Err InvalidCharacterError, w)
  | Ok publicKey =>
      (exists later,
          calls (snd (encryptMessage publicKeyBase64 m w))
          = calls w ++ call_mceliece_encrypt publicKey :: later)
      /\ forall e,
          fst (encryptMessage publicKeyBase64 m w) = Err e ->
          (exists code, e = KemError code)
          \/ (exists name, e = SubtleError name)
          \/ (e = RangeError
              /\ exists kemCt secret aesKey sealed,
                  kem_encrypt (drawn w encrypt_coins) publicKey
                  = inr (kemCt, secret)
                  /\ aes_importKey secret usage_encrypt = inr aesKey
                  /\ aes_encrypt aesKey (fresh_nonce w)
                       (TextEncoder_encode m) = inr sealed
                  /\ encodable (package_size kemCt sealed) = false)
  end.
Proof.
  destruct (base64ToArray publicKeyBase64) as [publicKey|e0] eqn:Hpk.
  2:{ now apply encryptMessage_not_base64 with e0. }
  split; [now apply encryptMessage_first_call|].
  rewrite (@encryptMessage_run _ _ _ _ _ m w Hpk). cbv zeta.
  destruct (kem_encrypt (drawn w encrypt_coins) publicKey)
    as [code|[kemCt secret]] eqn:Hke; cbn [fst snd].
  { intros e [= <-]; left; now exists code. }
  destruct (aes_importKey secret usage_encrypt) as [name|aesKey] eqn:Hi;
    cbn [fst snd].
  { intros e [= <-]; right; left; now exists name. }
  destruct (aes_encrypt aesKey (fresh_nonce w) (TextEncoder_encode m))
    as [name|sealed] eqn:Hs; cbn [fst snd].
  { intros e [= <-]; right; left; now exists name. }
  rewrite packageCiphertext_run by apply length_fresh_nonce.
  destruct (encodable (package_size kemCt sealed)) eqn:Hfit;
    [discriminate|].
  intros e [= <-]. right. right. split; [reflexivity|].
  now exists kemCt, secret, aesKey, sealed.
Qed.

Lemma decryptMessage_key_not_base64 sk package e w :
  base64ToArray sk = Err e ->
  decryptMessage sk package w = (Err InvalidCharacterError, w).
Proof.
  intros H. pose proof (base64ToArray_error _ H) as ->.
  unfold decryptMessage, bind, lift, unpackageCiphertext.
  destruct (base64ToArray package) as [buffer|e] eqn:Hp; cbn [rbind].
  - now rewrite H.
  - now rewrite (base64ToArray_error _ Hp).
Qed.

(** X8.  [decryptMessage] throws an InvalidCharacterError exactly when
    the package or the private key is not base64, and then no primitive
    has been called; an undecodable private key is found out before the
    KEM ciphertext is touched. *)
Theorem decryptMessage_text_errors sk package w :
  (fst (decryptMessage sk package w) = Err InvalidCharacterError
   <-> (exists e, base64ToArray package = Err e)
       \/ (exists e, base64ToArray sk = Err e))
  /\ (fst (decryptMessage sk package w) = Err InvalidCharacterError ->
      snd (decryptMessage sk package w) = w).
Proof.
  destruct (base64ToArray package) as [buffer|e1] eqn:Hp.
  2:{ rewrite (@decryptMessage_not_base64 _ _ sk package e1 w Hp).
      split; [|reflexivity]. split; [|reflexivity].
      intros _. left. now exists e1. }
  destruct (base64ToArray sk) as [privateKey|e2] eqn:Hk.
  2:{ rewrite (@decryptMessage_key_not_base64 sk package e2 w Hk).
      split; [|reflexivity]. split; [|reflexivity].
      intros _. right. now exists e2. }
  assert (Hu : unpackageCiphertext package = Ok (unpackageCombined buffer))
    by (unfold unpackageCiphertext; now rewrite Hp).
  assert (Hno : fst (decryptMessage sk package w)
                <> Err InvalidCharacterError).
  { rewrite (@decryptMessage_run _ _ sk package _ privateKey w Hu Hk).
    cbv zeta.
    destruct (kem_decrypt _ privateKey) as [code|secret];
      [discriminate|].
    destruct (aes_importKey secret usage_decrypt) as [name|aesKey];
      [discriminate|].
    destruct (aes_decrypt aesKey _ _) as [name|data]; [discriminate|].
    cbn [fst].
    destruct (TextDecoder_nonfatal false data) as (text & -> & _).
    discriminate. }
  split; [split|]; intros H.
  - contradiction.
  - destruct H as [[e H]|[e H]]; discriminate.
  - contradiction.
Qed.

(** X19.  The package of a successful [encryptMessage]: the base64 text
    of the length field, the KEM ciphertext that [mceliece.encrypt] gave,
    the nonce and the data that [crypto.subtle.encrypt] gave, which
    [base64ToArray] reads back; it has 4 * ceil((16 + k + s) / 3)
    characters for a KEM ciphertext of k bytes and sealed data of s
    bytes. *)
Theorem encryptMessage_anatomy publicKeyBase64 m w package w' :
  encryptMessage publicKeyBase64 m w = (Ok package, w') ->
  exists publicKey kemCt secret aesKey sealed,
    base64ToArray publicKeyBase64 = Ok publicKey
    /\ kem_encrypt (drawn w encrypt_coins) publicKey = inr (kemCt, secret)
    /\ aes_importKey secret usage_encrypt = inr aesKey
    /\ aes_encrypt aesKey (fresh_nonce w) (TextEncoder_encode m) = inr sealed
    /\ base64ToArray package
       = Ok (be32_bytes (len kemCt) ++ kemCt ++ fresh_nonce w ++ sealed)
    /\ len package = 4 * ((4 + len kemCt + 12 + len sealed + 2) / 3).
Proof.
  intros H.
  destruct (encryptMessage_steps _ _ _ H)
    as (publicKey & kemCt & secret & aesKey & sealed & Hpk & Hke & Hi & Hs
        & _ & Hp & _).
  exists publicKey, kemCt, secret, aesKey, sealed.
  repeat split; try assumption.
  - rewrite Hp. apply base64ToArray_encode.
  - rewrite Hp, encode_length, len_map.
    rewrite !len_app, len_be32_bytes, length_fresh_nonce.
    f_equal. f_equal. lia.
Qed.

(** X20.  What a successful [decryptMessage] has done: unpacked the
    package, decoded the private key, called [mceliece.decrypt] on the KEM
    ciphertext, imported the secret as an AES key for decryption, opened
    the sealed data under the nonce of the package, in this order and
    nothing else; the text is the opened data decoded as UTF-8. *)
Theorem decryptMessage_anatomy sk package w text w' :
  decryptMessage sk package w = (Ok text, w') ->
  exists envelope privateKey secret aesKey data,
    unpackageCiphertext package = Ok envelope
    /\ base64ToArray sk = Ok privateKey
    /\ kem_decrypt (kemCiphertext envelope) privateKey = inr secret
    /\ aes_importKey secret usage_decrypt = inr aesKey
    /\ aes_decrypt aesKey (iv envelope) (encryptedData envelope) = inr data
    /\ TextDecoder_decode false false data = Ok text
    /\ calls w'
       = calls w
         ++ [call_mceliece_decrypt (kemCiphertext envelope) privateKey;
             call_importKey secret usage_decrypt;
             call_subtle_decrypt (iv envelope) (encryptedData envelope)].
Proof.
  intros H.
  destruct (base64ToArray package) as [buffer|e1] eqn:Hp.
  2:{ rewrite (@decryptMessage_not_base64 _ _ sk package e1 w Hp) in H.
      discriminate. }
  destruct (base64ToArray sk) as [privateKey|e2] eqn:Hk.
  2:{ rewrite (@decryptMessage_key_not_base64 sk package e2 w Hk) in H.
      discriminate. }
  assert (Hu : unpackageCiphertext package = Ok (unpackageCombined buffer))
    by (unfold unpackageCiphertext; now rewrite Hp).
  rewrite (@decryptMessage_run _ _ sk package _ privateKey w Hu Hk) in H.
  cbv zeta in H.
  destruct (kem_decrypt _ privateKey) as [code|secret] eqn:Hd;
    [discriminate|].
  destruct (aes_importKey secret usage_decrypt) as [name|aesKey] eqn:Hi;
    [discriminate|].
  destruct (aes_decrypt aesKey _ _) as [name|data] eqn:Ho; [discriminate|].
  exists (unpackageCombined buffer), privateKey, secret, aesKey, data.
  repeat split; try assumption.
  - congruence.
  - assert (Hw : w'
                 = logged (call_subtle_decrypt
                             (iv (unpackageCombined buffer))
                             (encryptedData (unpackageCombined buffer)))
                     (logged (call_importKey secret usage_decrypt)
                        (logged (call_mceliece_decrypt
                                   (kemCiphertext (unpackageCombined buffer))
                                   privateKey) w))) by congruence.
    rewrite Hw. cbn [calls logged]. now rewrite <- !app_assoc.
Qed.

Lemma base64ToArray_without_whitespace (s1 s2 : JSString) :
  filter (fun c => negb (Base64.is_ascii_whitespace c)) s1
  = filter (fun c => negb (Base64.is_ascii_whitespace c)) s2 ->
  base64ToArray s1 = base64ToArray s2.
Proof.
  intros H. unfold base64ToArray.
  rewrite <- (atob_without_whitespace s1), <- (atob_without_whitespace s2).
  now rewrite H.
Qed.

(** X21.  ASCII white space in base64 text counts for nothing: two public
    keys, private keys or packages that differ only by spaces, tabs or
    line breaks, anywhere in the text, make [encryptMessage] and
    [decryptMessage] do the same. *)
Theorem white_space_is_ignored (key1 key2 s1 s2 : JSString) m w :
  filter (fun c => negb (Base64.is_ascii_whitespace c)) key1
  = filter (fun c => negb (Base64.is_ascii_whitespace c)) key2 ->
  filter (fun c => negb (Base64.is_ascii_whitespace c)) s1
  = filter (fun c => negb (Base64.is_ascii_whitespace c)) s2 ->
  encryptMessage key1 m w = encryptMessage key2 m w
  /\ decryptMessage key1 s1 w = decryptMessage key2 s2 w.
Proof.
  intros Hk Hs.
  apply base64ToArray_without_whitespace in Hk, Hs.
  unfold encryptMessage, decryptMessage, unpackageCiphertext.
  now rewrite Hk, Hs.
Qed.

End MoreExecution.

(* ================================================================== *)
(** * formatSize *)
(* ================================================================== *)

(** X9.  [formatSize] chooses the unit before it rounds: from 1048525
    bytes up to one byte below 1024 * 1024 the label reads 1024.0 KB, and
    from there up to 1053818 bytes it reads 1.00 MB. *)
Theorem formatSize_around_one_MiB (bytes : Z) :
  (1048525 <= bytes < 1048576 -> formatSize bytes = "1024.0 KB"%string)
  /\ (1048576 <= bytes <= 1053818 -> formatSize bytes = "1.00 MB"%string).
Proof.
  split; intros H; unfold formatSize, JSNumber.toFixed;
    change (1024 * 1024) with 1048576; zeval.
  - replace ((2 * bytes * 10 ^ Z.of_nat 1 + 1024) / (2 * 1024)) with 10240
      by (change (10 ^ Z.of_nat 1) with 10; dlia).
    reflexivity.
  - replace ((2 * bytes * 10 ^ Z.of_nat 2 + 1048576) / (2 * 1048576))
      with 100 by (change (10 ^ Z.of_nat 2) with 100; dlia).
    reflexivity.
Qed.

Lemma formatSize_around_one_MiB_witness :
  formatSize 1048575 = "1024.0 KB"%string
  /\ formatSize 1048576 = "1.00 MB"%string.
Proof.
  split.
  - apply (proj1 (formatSize_around_one_MiB 1048575)). lia.
  - apply (proj2 (formatSize_around_one_MiB 1048576)). lia.
Defined.

(* ================================================================== *)
(** * Toasts *)
(* ================================================================== *)

Lemma length_filter_le {A} (f : A -> bool) (l : list A) :
  (length (filter f l) <= length l)%nat.
Proof.
  induction l as [|x l IH]; [reflexivity|]. cbn [filter].
  destruct (f x); cbn [length]; lia.
Qed.

Lemma showToast_single message t :
  (length (shown t) <= 1)%nat ->
  shown (showToast message t) = [(created t, message)].
Proof.
  unfold showToast. cbn [shown].
  destruct (shown t) as [|existing [|]]; cbn [length]; intros H;
    [reflexivity | reflexivity | lia].
Qed.

(** After a run of calls and timers, the page shows at most one toast,
    and a toast that is shown carries the message of the last call. *)
Lemma toast_run_inv events : forall t before,
  (length (shown t) <= 1)%nat ->
  (forall toast message,
      In toast (shown t) -> before = Some message -> snd toast = message) ->
  (length (shown (toast_run events t)) <= 1)%nat
  /\ forall toast message,
      In toast (shown (toast_run events t)) ->
      last_shown events before = Some message -> snd toast = message.
Proof.
  induction events as [|e events IH]; intros t before Hlen Hmsg.
  - split; assumption.
  - cbn [toast_run fold_left last_shown]. destruct e as [message|id].
    + apply IH; cbn [toast_step]; rewrite showToast_single by assumption.
      * reflexivity.
      * intros toast message' [<-|[]] [= <-]. reflexivity.
    + apply IH; cbn [toast_step toast_timeout shown].
      * pose proof (length_filter_le
                      (fun toast => negb (fst toast =? id)%nat) (shown t)).
        lia.
      * intros toast message Hin. apply Hmsg.
        now apply filter_In in Hin.
Qed.

Lemma toast_run_expiries id message later : forall t,
  shown t = [(id, message)] ->
  forallb (is_expiry_of_other id) later = true ->
  shown (toast_run later t) = [(id, message)].
Proof.
  induction later as [|e later IH]; intros t Ht Hl; [exact Ht|].
  cbn [forallb] in Hl. apply andb_true_iff in Hl as [He Hl].
  cbn [toast_run fold_left]. apply IH; [|assumption].
  destruct e as [|id']; [discriminate|].
  cbn [toast_step toast_timeout shown is_expiry_of_other] in *.
  rewrite Ht. cbn [filter fst]. rewrite Nat.eqb_sym.
  now rewrite He.
Qed.

(** X10.  Toasts.  On a page that shows at most one toast, whatever calls
    of [showToast] and timers follow, at most one toast is shown and it
    carries the message of the last call; and the toast of a call stays
    until its own timer fires: the timers of earlier toasts do not remove
    it. *)
Theorem toasts_one_at_a_time (t : Toasts) (events : list ToastEvent) :
  (length (shown t) <= 1)%nat ->
  (length (shown (toast_run events t)) <= 1)%nat
  /\ (forall toast message,
        In toast (shown (toast_run events t)) ->
        last_shown events None = Some message -> snd toast = message)
  /\ (forall message later,
        forallb (is_expiry_of_other (created (toast_run events t))) later
        = true ->
        shown (toast_run later (showToast message (toast_run events t)))
        = [(created (toast_run events t), message)]).
Proof.
  intros Hlen.
  destruct (@toast_run_inv events t None Hlen) as [H1 H2]; [discriminate|].
  split; [exact H1|]. split; [exact H2|].
  intros message later Hl. apply toast_run_expiries; [|assumption].
  now apply showToast_single.
Qed.

Lemma toasts_one_at_a_time_witness :
  let t := {| shown := []; created := 0 |} in
  shown (toast_run [toast_show "a"; toast_show "b"; toast_expire 0] t)
  = [(1%nat, "b"%string)]
  /\ shown (toast_run [toast_expire 0; toast_expire 1]
              (showToast "c"
                 (toast_run [toast_show "a"; toast_show "b"] t)))
     = [(2%nat, "c"%string)].
Proof.
  intros t. split; [reflexivity|].
  apply (proj2 (proj2 (@toasts_one_at_a_time t
                         [toast_show "a"; toast_show "b"]
                         (Nat.le_0_l 1)))).
  reflexivity.
Defined.

(* ================================================================== *)
(** * Files *)
(* ================================================================== *)

Lemma starts_with_cons m mark z (bytes : Uint8Array) :
  octet z ->
  starts_with (m :: mark) (ToUint8 z :: bytes)
  = (z =? m) && starts_with mark bytes.
Proof.
  intros Hz. cbn [starts_with]. rewrite byte_val_ToUint8.
  unfold octet in Hz. now rewrite Z.mod_small by lia.
Qed.

Section FileFacts.

Variable utf16_decode : bool -> Uint8Array -> JSString.

Lemma utf8_text_encoded (cps : list Z) :
  Forall scalar_value cps ->
  utf8_text (map ToUint8 (flat_map Unicode.utf8_encode_cp cps))
  = flat_map Unicode.code_units cps.
Proof.
  intros Hcps. unfold utf8_text, TextDecoder_decode.
  rewrite UnicodeFacts.map_byte_val_ToUint8
    by now apply UnicodeFacts.flat_map_octets.
  now rewrite UnicodeFacts.utf8_decode_encode.
Qed.

Lemma readAsText_encoded (cps : list Z) :
  Forall scalar_value cps ->
  readAsText utf16_decode (map ToUint8 (flat_map Unicode.utf8_encode_cp cps))
  = flat_map Unicode.code_units (Unicode.strip_bom false cps).
Proof.
  intros Hcps. unfold readAsText.
  destruct Hcps as [|cp cps Hcp Hcps]; [reflexivity|].
  cbn [Unicode.strip_bom]. unfold Unicode.BOM.
  destruct (Z.eqb_spec cp 65279) as [->|Hne].
  - cbn [flat_map].
    change (Unicode.utf8_encode_cp 65279) with [239; 187; 191].
    cbn [app map]. rewrite !starts_with_cons by (unfold octet; lia).
    cbn [Z.eqb Pos.eqb andb starts_with skipn].
    now apply utf8_text_encoded.
  - rewrite <- (@utf8_text_encoded (cp :: cps)) by (now constructor).
    cbn [flat_map].
    rewrite (@UnicodeFacts.utf8_encode_cp_arith cp) by (destruct Hcp; lia).
    assert (H0 : 0 <= cp <= 1114111) by (destruct Hcp; lia).
    destruct (Z.leb_spec cp 127); [|destruct (Z.leb_spec cp 2047);
      [|destruct (Z.leb_spec cp 65535)]];
      cbn [app map]; rewrite !starts_with_cons by (unfold octet; dlia);
      cbn [starts_with];
      repeat match goal with
        | |- context [(?a =? ?b) && _] =>
            first [ replace (a =? b) with false
                      by (symmetry; apply Z.eqb_neq; dlia)
                  | replace (a =? b) with true
                      by (symmetry; apply Z.eqb_eq; dlia) ];
            cbn [andb]
        end; try reflexivity.
    repeat match goal with
      | |- context [(?a =? ?b) && _] =>
          destruct (Z.eqb_spec a b); cbn [andb]
      end; try reflexivity.
    exfalso. dlia.
Qed.

Lemma readAsText_TextEncoder (s : JSString) :
  Forall code_unit s ->
  readAsText utf16_decode (TextEncoder_encode s) = through_utf8 s.
Proof.
  intros Hs. unfold TextEncoder_encode, through_utf8.
  apply readAsText_encoded. now apply UnicodeFacts.scalar_values_scalar.
Qed.

End FileFacts.

(* ================================================================== *)
(** * Base64 text and trim *)
(* ================================================================== *)

Lemma trimStart_clean c (s : JSString) :
  is_js_whitespace c = false -> trimStart (c :: s) = c :: s.
Proof. intros H. cbn [trimStart]. now rewrite H. Qed.

Lemma trim_clean (s : JSString) :
  forallb (fun c => negb (is_js_whitespace c)) s = true -> trim s = s.
Proof.
  intros H. unfold trim.
  assert (Hs : trimStart s = s).
  { destruct s as [|c s]; [reflexivity|]. cbn [forallb] in H.
    apply andb_true_iff in H as [H _]. apply trimStart_clean.
    now destruct (is_js_whitespace c). }
  rewrite Hs.
  assert (Hr : trimStart (rev s) = rev s).
  { destruct (rev s) as [|c r] eqn:E; [reflexivity|].
    apply trimStart_clean.
    rewrite forallb_forall in H.
    assert (Hin : In c s) by (apply in_rev; rewrite E; now left).
    specialize (H c Hin). now destruct (is_js_whitespace c). }
  rewrite Hr. apply rev_involutive.
Qed.

Lemma base64_not_js_whitespace c :
  Base64.is_alphabet c || (c =? Base64.pad) = true ->
  is_js_whitespace c = false.
Proof.
  intros H. apply orb_true_iff in H as [H|H].
  - apply Base64Facts.alphabet_range in H. unfold is_js_whitespace. zeval.
    reflexivity.
  - apply Z.eqb_eq in H. subst c. reflexivity.
Qed.

Lemma trim_encode (l : list Z) :
  Forall octet l -> trim (Base64.encode l) = Base64.encode l.
Proof.
  intros Hl. apply trim_clean.
  pose proof (encode_characters Hl) as H.
  rewrite forallb_forall in *. intros c Hc.
  now rewrite base64_not_js_whitespace by auto.
Qed.

Lemma encode_nonempty (l : list Z) :
  l <> [] -> is_empty (Base64.encode l) = false.
Proof.
  destruct l as [|a [|b [|c l]]]; [contradiction| | |]; reflexivity.
Qed.

Lemma encode_empty (l : list Z) : Base64.encode l = [] -> l = [].
Proof.
  destruct l as [|a [|b [|c l]]]; [reflexivity| | |]; discriminate.
Qed.

(* ================================================================== *)
(** * Downloading and loading files *)
(* ================================================================== *)

Section FileRoundTrip.

Variable utf16_decode : bool -> Uint8Array -> JSString.

(** X11.  A text saved with [downloadFile] and read with [readFile] comes
    back as UTF-8 leaves it, never decoded as UTF-16: unpaired surrogates
    are replaced by U+FFFD and a leading U+FEFF is dropped; a well-formed
    text that does not start with U+FEFF comes back unchanged. *)
Theorem readFile_downloadFile (content : JSString) (filename : string) :
  Forall code_unit content ->
  readFile utf16_decode (downloadFile content filename)
  = Some (through_utf8 content)
  /\ (well_formed content = true -> starts_with_BOM content = false ->
      readFile utf16_decode (downloadFile content filename) = Some content).
Proof.
  intros Hc. unfold readFile, downloadFile. cbn [file_bytes option_map].
  rewrite readAsText_TextEncoder by assumption.
  split; [reflexivity|]. intros Hw Hb.
  now rewrite through_utf8_well_formed.
Qed.

Lemma load_downloaded (bytes : Uint8Array) (filename : string) :
  let text := Base64.encode (map byte_val bytes) in
  option_map trim (readFile utf16_decode (downloadFile text filename))
  = Some text.
Proof.
  intros text.
  assert (Hoct : Forall octet (map byte_val bytes)) by apply octets_byte_val.
  assert (Hchars : forallb (fun c => Base64.is_alphabet c || (c =? Base64.pad))
                     text = true) by now apply encode_characters.
  assert (Hcu : Forall code_unit text).
  { apply Forall_forall. intros c Hc. rewrite forallb_forall in Hchars.
    specialize (Hchars c Hc). apply orb_true_iff in Hchars as [H|H].
    - apply Base64Facts.alphabet_range in H. unfold code_unit. lia.
    - apply Z.eqb_eq in H. subst c. unfold code_unit, Base64.pad. lia. }
  assert (Hwf : well_formed text = true /\ starts_with_BOM text = false).
  { clear Hcu. rewrite forallb_forall in Hchars. split.
    - induction text as [|c text IH]; [reflexivity|].
      assert (Hc : 43 <= c <= 122).
      { specialize (Hchars c (or_introl eq_refl)).
        apply orb_true_iff in Hchars as [H|H].
        - now apply Base64Facts.alphabet_range.
        - apply Z.eqb_eq in H. subst c. unfold Base64.pad. lia. }
      cbn [well_formed]. unfold Unicode.is_lead, Unicode.is_trail. zeval.
      apply IH. intros d Hd. apply Hchars. now right.
    - destruct text as [|c text]; [reflexivity|]. cbn [starts_with_BOM].
      specialize (Hchars c (or_introl eq_refl)).
      apply orb_true_iff in Hchars as [H|H].
      + apply Base64Facts.alphabet_range in H. unfold Unicode.BOM. zeval.
        reflexivity.
      + apply Z.eqb_eq in H. subst c. reflexivity. }
  destruct Hwf as [Hw Hb].
  unfold readFile, downloadFile. cbn [file_bytes option_map].
  rewrite readAsText_TextEncoder, through_utf8_well_formed by assumption.
  f_equal. now apply trim_encode.
Qed.

(** X12.  A key or a ciphertext that the page produced (the base64 text of
    some bytes), saved with its download button and chosen in the matching
    file input, arrives unchanged in the field that the input fills, on
    whatever page it is loaded. *)
Theorem download_then_load (bytes : Uint8Array) (a a' : App) :
  let text := Base64.encode (map byte_val bytes) in
  (publicKeyEl_value (keygenPanel a) = text ->
   exists file,
     downloads (downloadPubkey_click a) = downloads a ++ [file]
     /\ encryptPubkey_value
          (encryptPanel (pubkeyFileInput_change utf16_decode (Some file) a'))
        = text)
  /\ (privateKeyEl_value (keygenPanel a) = text ->
      exists file,
        downloads (downloadPrivkey_click a) = downloads a ++ [file]
        /\ decryptPrivkey_value
             (decryptPanel
                (privkeyFileInput_change utf16_decode (Some file) a'))
           = text)
  /\ (ciphertext_value (encryptPanel a) = text ->
      exists file,
        downloads (downloadCiphertext_click a) = downloads a ++ [file]
        /\ ciphertextInput_value
             (decryptPanel
                (ciphertextFileInput_change utf16_decode (Some file) a'))
           = text).
Proof.
  intros text.
  split; [|split]; intros H; eexists; (split; [reflexivity|]);
    cbn [keygenPanel on_toasts downloaded]; rewrite H;
    [ unfold pubkeyFileInput_change
    | unfold privkeyFileInput_change
    | unfold ciphertextFileInput_change ];
    match goal with
    | |- context [readFile utf16_decode (downloadFile _ ?name)] =>
        pose proof (load_downloaded bytes name) as Hload;
        cbv zeta in Hload; fold text in Hload;
        destruct (readFile utf16_decode (downloadFile text name))
          as [content|]; [|discriminate];
        cbn [option_map] in Hload; injection Hload as Hload
    end; cbn; exact Hload.
Qed.

End FileRoundTrip.

Lemma readFile_downloadFile_witness :
  readFile Pages.no_utf16 (downloadFile [0xFEFF; 0x41; 0xD800] "a.txt")
  = Some [0x41; 0xFFFD].
Proof.
  apply (proj1 (@readFile_downloadFile Pages.no_utf16
                  [0xFEFF; 0x41; 0xD800] "a.txt"
                  ltac:(repeat constructor; unfold code_unit; lia))).
Defined.

Lemma download_then_load_witness :
  let a := on_keygenPanel (set_publicKeyEl_value (js "AAECAw==")) fresh_page in
  exists file,
    downloads (downloadPubkey_click a) = [file]
    /\ encryptPubkey_value
         (encryptPanel
            (pubkeyFileInput_change Pages.no_utf16 (Some file) fresh_page))
       = js "AAECAw==".
Proof.
  intros a.
  apply (proj1 (@download_then_load Pages.no_utf16 [x00; x01; x02; x03]
                  a fresh_page)).
  reflexivity.
Defined.

(* ================================================================== *)
(** * The buttons *)
(* ================================================================== *)

Section Buttons.

Context {engine : Engine} {kem : McEliece} {subtle : SubtleCrypto}.

Variable message : error -> string.

Lemma encryptMessage_package publicKeyBase64 m w package w' :
  encryptMessage publicKeyBase64 m w = (Ok package, w') ->
  exists kemCt sealed,
    packageCiphertext kemCt (fresh_nonce w) sealed = Ok package
    /\ package
       = Base64.encode
           (map byte_val
              (be32_bytes (len kemCt) ++ kemCt ++ fresh_nonce w ++ sealed))
    /\ base64ToArray package
       = Ok (be32_bytes (len kemCt) ++ kemCt ++ fresh_nonce w ++ sealed)
    /\ is_empty package = false.
Proof.
  intros H.
  destruct (encryptMessage_steps _ _ _ H)
    as (publicKey & kemCt & secret & aesKey & sealed & _ & _ & _ & _ & Hfit
        & -> & _).
  exists kemCt, sealed.
  split.
  { rewrite packageCiphertext_run by apply length_fresh_nonce.
    now rewrite Hfit. }
  split; [reflexivity|]. split; [apply base64ToArray_encode|].
  reflexivity.
Qed.

(** X13.  The encrypt button, when [encryptMessage] returns a package:
    the package is shown and kept in [lastCiphertext]; the size label is
    the formatted number of bytes of the package, 16 more than the KEM
    ciphertext and the sealed data together (decoding the package for the
    label does not throw); the output is shown and the button released. *)
Theorem encryptBtn_click_success elapsed (a : App) w package w1 :
  is_empty (trim (encryptPubkey_value (encryptPanel a))) = false ->
  is_empty (plaintext_value (encryptPanel a)) = false ->
  encryptMessage (trim (encryptPubkey_value (encryptPanel a)))
    (plaintext_value (encryptPanel a)) w = (Ok package, w1) ->
  let a' := fst (encryptBtn_click message elapsed a w) in
  exists kemCt sealed,
    packageCiphertext kemCt (fresh_nonce w) sealed = Ok package
    /\ snd (encryptBtn_click message elapsed a w) = w1
    /\ lastCiphertext a' = Some package
    /\ ciphertext_value (encryptPanel a') = package
    /\ ciphertextSize_text (encryptPanel a')
       = ("(" ++ formatSize (4 + len kemCt + 12 + len sealed) ++ ")")%string
    /\ ciphertextOutput_hidden (encryptPanel a') = false
    /\ encryptStatus (encryptPanel a')
       = Some (("✓ Encrypted in " ++ elapsed ++ "s!")%string, success)
    /\ encryptBtn_loading (encryptPanel a') = false.
Proof.
  intros Hkey Hm Henc a'.
  destruct (encryptMessage_package _ _ _ Henc)
    as (kemCt & sealed & Hpack & Hp & Hb & _).
  exists kemCt, sealed.
  split; [exact Hpack|].
  subst a'. unfold encryptBtn_click. rewrite Hkey, Hm, Henc, Hb.
  cbn [fst snd].
  replace (len (be32_bytes (len kemCt) ++ kemCt ++ fresh_nonce w ++ sealed))
    with (4 + len kemCt + 12 + len sealed)
    by (rewrite !len_app, len_be32_bytes, length_fresh_nonce; lia).
  repeat split.
Qed.

(** X14.  The encrypt button, when [encryptMessage] throws: the status
    shows the message of the error itself and the error goes to the
    console; the ciphertext on the page, its size label, the visibility of
    the output and [lastCiphertext] stay as they were, so that an earlier
    ciphertext remains shown and is what "use encrypted ciphertext"
    loads; the button is released. *)
Theorem encryptBtn_click_failure elapsed (a : App) w e w1 :
  is_empty (trim (encryptPubkey_value (encryptPanel a))) = false ->
  is_empty (plaintext_value (encryptPanel a)) = false ->
  encryptMessage (trim (encryptPubkey_value (encryptPanel a)))
    (plaintext_value (encryptPanel a)) w = (Err e, w1) ->
  let a' := fst (encryptBtn_click message elapsed a w) in
  snd (encryptBtn_click message elapsed a w) = w1
  /\ encryptStatus (encryptPanel a')
     = Some (("✗ Error: " ++ message e)%string, error_status)
  /\ console (decryptPanel a')
     = console (decryptPanel a) ++ [("Encryption error:"%string, e)]
  /\ lastCiphertext a' = lastCiphertext a
  /\ ciphertext_value (encryptPanel a') = ciphertext_value (encryptPanel a)
  /\ ciphertextSize_text (encryptPanel a')
     = ciphertextSize_text (encryptPanel a)
  /\ ciphertextOutput_hidden (encryptPanel a')
     = ciphertextOutput_hidden (encryptPanel a)
  /\ ciphertextInput_value
       (decryptPanel (useEncryptedCiphertext_click a'))
     = ciphertextInput_value
         (decryptPanel (useEncryptedCiphertext_click a))
  /\ encryptBtn_loading (encryptPanel a') = false.
Proof.
  intros Hkey Hm Henc a'. subst a'. unfold encryptBtn_click.
  rewrite Hkey, Hm, Henc. cbn [fst snd].
  repeat split.
  unfold useEncryptedCiphertext_click.
  match goal with
  | |- context [lastCiphertext (setButtonLoadingOf ?b ?l ?x)] =>
      change (lastCiphertext (setButtonLoadingOf b l x))
        with (lastCiphertext a)
  end.
  destruct (lastCiphertext a) as [[|c ciphertext]|]; reflexivity.
Qed.

(** X15.  When the encrypt button calls a primitive.  A public key that
    is blank once trimmed, an empty message, or a public key that is not
    base64 leave the world as it was: nothing is called, no random value
    drawn.  With any other input [mceliece.encrypt] is called on the
    decoded key; the message is not trimmed, so white space is a
    message. *)
Theorem encryptBtn_click_calls elapsed (a : App) w :
  let key := trim (encryptPubkey_value (encryptPanel a)) in
  let plaintext := plaintext_value (encryptPanel a) in
  (key = [] \/ plaintext = [] \/ (exists e, base64ToArray key = Err e) ->
   snd (encryptBtn_click message elapsed a w) = w)
  /\ (forall publicKey,
        key <> [] -> plaintext <> [] -> base64ToArray key = Ok publicKey ->
        exists later,
          calls (snd (encryptBtn_click message elapsed a w))
          = calls w ++ call_mceliece_encrypt publicKey :: later).
Proof.
  intros key plaintext.
  assert (Hsnd : key <> [] -> plaintext <> [] ->
                 snd (encryptBtn_click message elapsed a w)
                 = snd (encryptMessage key plaintext w)).
  { intros Hk Hp. unfold encryptBtn_click. fold key plaintext.
    destruct key as [|c key']; [contradiction|].
    destruct plaintext as [|d plaintext']; [contradiction|].
    cbn [is_empty].
    destruct (encryptMessage (c :: key') (d :: plaintext') w)
      as [[package|e] w1]; [|reflexivity].
    now destruct (base64ToArray package). }
  split.
  - intros H.
    destruct key as [|c key'] eqn:Ek.
    { unfold encryptBtn_click. fold key. now rewrite Ek. }
    destruct plaintext as [|d plaintext'] eqn:Ep.
    { unfold encryptBtn_click. fold key plaintext. now rewrite Ek, Ep. }
    destruct H as [H|[H|[e H]]]; [discriminate | discriminate |].
    rewrite Hsnd by discriminate.
    now rewrite (@encryptMessage_not_base64 _ _ _ _ _ e w H).
  - intros publicKey Hk Hp Hb. rewrite (Hsnd Hk Hp).
    now apply encryptMessage_first_call.
Qed.

(** X16.  The generate button.  When [generateKeyPair] returns, the keys
    are kept in [generatedKeys] and shown, each with the formatted number
    of bytes that its base64 text decodes to; when it throws, the status
    shows the message of the error and neither [generatedKeys] nor the
    keys on the page change.  Either way the button is released. *)
Theorem generateBtn_click_outcome elapsed (a : App) w :
  let a' := fst (generateBtn_click message elapsed a w) in
  snd (generateBtn_click message elapsed a w) = snd (generateKeyPair w)
  /\ generateBtn_loading (keygenPanel a') = false
  /\ (forall keys,
        fst (generateKeyPair w) = Ok keys ->
        exists sk pk,
          base64ToArray (privateKey keys) = Ok sk
          /\ base64ToArray (publicKey keys) = Ok pk
          /\ generatedKeys_publicKey a' = Some (publicKey keys)
          /\ generatedKeys_privateKey a' = Some (privateKey keys)
          /\ publicKeyEl_value (keygenPanel a') = publicKey keys
          /\ privateKeyEl_value (keygenPanel a') = privateKey keys
          /\ pubkeySize_text (keygenPanel a')
             = ("(" ++ formatSize (len pk) ++ ")")%string
          /\ privkeySize_text (keygenPanel a')
             = ("(" ++ formatSize (len sk) ++ ")")%string
          /\ keysOutput_hidden (keygenPanel a') = false
          /\ keygenStatus (keygenPanel a')
             = Some (("✓ Keypair generated in " ++ elapsed ++ "s!")%string,
                     success))
  /\ (forall e,
        fst (generateKeyPair w) = Err e ->
        keygenStatus (keygenPanel a')
        = Some (("✗ Error: " ++ message e)%string, error_status)
        /\ console (decryptPanel a')
           = console (decryptPanel a) ++ [("Key generation error:"%string, e)]
        /\ generatedKeys_publicKey a' = generatedKeys_publicKey a
        /\ generatedKeys_privateKey a' = generatedKeys_privateKey a
        /\ publicKeyEl_value (keygenPanel a')
           = publicKeyEl_value (keygenPanel a)
        /\ privateKeyEl_value (keygenPanel a')
           = privateKeyEl_value (keygenPanel a)
        /\ keysOutput_hidden (keygenPanel a')
           = keysOutput_hidden (keygenPanel a)).
Proof.
  intros a'. subst a'. unfold generateBtn_click.
  rewrite generateKeyPair_run. cbv zeta.
  destruct (kem_keyPair (drawn w keyPair_coins)) as [code|[sk pk]].
  - cbn [fst snd]. split; [reflexivity|]. split; [reflexivity|]. split.
    + discriminate.
    + intros e [= <-]. repeat split.
  - destruct (encodable (len sk) && encodable (len pk));
      cbn [fst snd]; (split; [reflexivity|]); (split; [reflexivity|]); split.
    + intros keys [= <-]. exists sk, pk.
      cbn [privateKey publicKey privateKeySize publicKeySize].
      rewrite !base64ToArray_encode. repeat split.
    + discriminate.
    + discriminate.
    + intros e [= <-]. repeat split.
Qed.

(** X17.  No button is left disabled: the generate button is released
    when its handler ends, and the encrypt and decrypt buttons, released
    before a click, are released after it, whether the handler returned
    early, succeeded or caught an error. *)
Theorem buttons_released elapsed (a : App) w :
  generateBtn_loading
    (keygenPanel (fst (generateBtn_click message elapsed a w))) = false
  /\ (encryptBtn_loading (encryptPanel a) = false ->
      encryptBtn_loading
        (encryptPanel (fst (encryptBtn_click message elapsed a w))) = false)
  /\ (decryptBtn_loading (decryptPanel a) = false ->
      decryptBtn_loading
        (decryptPanel (fst (decryptBtn_click_on elapsed a w))) = false).
Proof.
  split; [|split].
  - unfold generateBtn_click.
    now destruct (generateKeyPair w) as [[keys|e] w1].
  - intros H. unfold encryptBtn_click.
    destruct (is_empty (trim _)); [exact H|].
    destruct (is_empty (plaintext_value _)); [exact H|].
    destruct (encryptMessage _ _ w) as [[package|e] w1]; [|reflexivity].
    now destruct (base64ToArray package).
  - intros H. unfold decryptBtn_click_on, decryptBtn_click.
    destruct (is_empty (trim (decryptPrivkey_value _))); [exact H|].
    destruct (is_empty (trim (ciphertextInput_value _))); [exact H|].
    now destruct (decryptMessage _ _ w) as [[text|e] w1].
Qed.

Lemma useGeneratedPubkey_click_loaded (a : App) key :
  generatedKeys_publicKey a = Some key -> is_empty key = false ->
  useGeneratedPubkey_click a
  = on_toasts (showToast "✓ Public key loaded")
      (on_encryptPanel (set_encryptPubkey_value key) a).
Proof.
  intros H Hne. unfold useGeneratedPubkey_click. rewrite H.
  now destruct key.
Qed.

Lemma useGeneratedPrivkey_click_loaded (a : App) key :
  generatedKeys_privateKey a = Some key -> is_empty key = false ->
  useGeneratedPrivkey_click a
  = on_toasts (showToast "✓ Private key loaded")
      (on_decryptPanel (set_decryptPrivkey_value key) a).
Proof.
  intros H Hne. unfold useGeneratedPrivkey_click. rewrite H.
  now destruct key.
Qed.

Lemma useEncryptedCiphertext_click_loaded (a : App) ciphertext :
  lastCiphertext a = Some ciphertext -> is_empty ciphertext = false ->
  useEncryptedCiphertext_click a
  = on_toasts (showToast "✓ Ciphertext loaded")
      (on_decryptPanel (set_ciphertextInput_value ciphertext) a).
Proof.
  intros H Hne. unfold useEncryptedCiphertext_click. rewrite H.
  now destruct ciphertext.
Qed.

Lemma decryptBtn_click_ok elapsed (p : Page) w text w1 :
  is_empty (trim (decryptPrivkey_value p)) = false ->
  is_empty (trim (ciphertextInput_value p)) = false ->
  decryptMessage (trim (decryptPrivkey_value p))
    (trim (ciphertextInput_value p)) w = (Ok text, w1) ->
  decryptBtn_click elapsed p w
  = (setButtonLoading false
       (setStatus ("✓ Decrypted in " ++ elapsed ++ "s!") success
          (showDecrypted text
             (setStatus "⏳ Decrypting..." loading
                (setButtonLoading true p)))), w1).
Proof.
  intros Hk Hc Hd. unfold decryptBtn_click. now rewrite Hk, Hc, Hd.
Qed.

Lemma is_empty_false (s : JSString) : s <> [] -> is_empty s = false.
Proof. now destruct s. Qed.

(** X18.  The whole page.  Generate a key pair, take the generated public
    key into the encryption panel, type a message, encrypt, take the
    ciphertext and the generated private key into the decryption panel,
    decrypt.  When [encryptMessage] returns a package, the decrypted text
    shown is the message as UTF-8 leaves it, that is the message itself
    when it is well formed and does not start with U+FEFF (white space at
    its ends included); the only error that [encryptMessage] can throw is
    the RangeError of a package too long for the engine, which the
    encryption status then shows.  This is given collaborators that keep
    their contract and keys that are not empty. *)
Theorem page_round_trip elapsed1 elapsed2 elapsed3 (a : App) w keys w1
  (m : JSString) :
  McEliece_contract kem -> SubtleCrypto_contract subtle ->
  generateKeyPair w = (Ok keys, w1) ->
  publicKey keys <> [] -> privateKey keys <> [] ->
  Forall code_unit m -> m <> [] ->
  let a1 := fst (generateBtn_click message elapsed1 a w) in
  let a2 := on_encryptPanel (set_plaintext_value m)
              (useGeneratedPubkey_click a1) in
  let a3 := fst (encryptBtn_click message elapsed2 a2 w1) in
  let w3 := snd (encryptBtn_click message elapsed2 a2 w1) in
  let a4 := useGeneratedPrivkey_click (useEncryptedCiphertext_click a3) in
  let a5 := fst (decryptBtn_click_on elapsed3 a4 w3) in
  snd (generateBtn_click message elapsed1 a w) = w1
  /\ match fst (encryptMessage (publicKey keys) m w1) with
     | Ok package =>
         ciphertext_value (encryptPanel a3) = package
         /\ decryptedText_value (decryptPanel a5) = through_utf8 m
         /\ (well_formed m = true -> starts_with_BOM m = false ->
             decryptedText_value (decryptPanel a5) = m)
         /\ decryptedOutput_hidden (decryptPanel a5) = false
         /\ decryptStatus (decryptPanel a5)
            = Some (("✓ Decrypted in " ++ elapsed3 ++ "s!")%string, success)
     | Err e =>
         e = RangeError
         /\ encryptStatus (encryptPanel a3)
            = Some (("✗ Error: " ++ message RangeError)%string,
                    error_status)
     end.
Proof.
  intros Ckem Caes Hgen Hpk Hsk Hm Hm0 a1 a2 a3 w3 a4 a5.
  destruct (generateKeyPair_inv _ Hgen) as (sk & pk & _ & Esk & Epk).
  assert (Tpk : trim (publicKey keys) = publicKey keys)
    by (rewrite Epk; apply trim_encode, octets_byte_val).
  assert (Tsk : trim (privateKey keys) = privateKey keys)
    by (rewrite Esk; apply trim_encode, octets_byte_val).
  apply is_empty_false in Hpk, Hsk, Hm0.
  (* the generate button *)
  assert (E1 : generateBtn_click message elapsed1 a w = (a1, w1)).
  { subst a1. unfold generateBtn_click. now rewrite Hgen. }
  assert (G1 : generatedKeys_publicKey a1 = Some (publicKey keys)
               /\ generatedKeys_privateKey a1 = Some (privateKey keys)).
  { subst a1. unfold generateBtn_click. rewrite Hgen. now split. }
  destruct G1 as [Gpk Gsk].
  (* the generated public key and the message *)
  assert (E2 : encryptPubkey_value (encryptPanel a2) = publicKey keys
               /\ plaintext_value (encryptPanel a2) = m
               /\ generatedKeys_privateKey a2 = Some (privateKey keys)).
  { subst a2. rewrite (useGeneratedPubkey_click_loaded _ Gpk Hpk).
    repeat split. exact Gsk. }
  destruct E2 as (Kpk & Km & Gsk2).
  split; [now rewrite E1|].
  destruct (@encrypt_decrypt_through_utf8 _ _ _ w keys w1 m w1 Ckem Caes Hgen
              Hm)
    as (pk' & kemCt & secret & aesKey & sealed & w3' & _ & _ & _ & _ & H).
  destruct (encodable (package_size kemCt sealed)).
  2:{ rewrite H. cbn [fst]. split; [reflexivity|].
      subst a3. unfold encryptBtn_click.
      rewrite Kpk, Km, Tpk, Hpk, Hm0, H. reflexivity. }
  destruct H as (package & Henc & Hdec). rewrite Henc. cbn [fst].
  destruct (encryptMessage_package _ _ _ Henc)
    as (kemCt' & sealed' & _ & Hp & Hb & Hne).
  assert (Tp : trim package = package)
    by (rewrite Hp; apply trim_encode, octets_byte_val).
  (* the encrypt button *)
  assert (E3 : w3 = w3'
               /\ lastCiphertext a3 = Some package
               /\ ciphertext_value (encryptPanel a3) = package
               /\ generatedKeys_privateKey a3 = Some (privateKey keys)).
  { subst a3 w3. unfold encryptBtn_click.
    rewrite Kpk, Km, Tpk, Hpk, Hm0, Henc, Hb. repeat split. exact Gsk2. }
  destruct E3 as (-> & Lc & Cv & Gsk3).
  (* the ciphertext and the generated private key *)
  assert (E4 : decryptPrivkey_value (decryptPanel a4) = privateKey keys
               /\ ciphertextInput_value (decryptPanel a4) = package).
  { subst a4. rewrite (useEncryptedCiphertext_click_loaded _ Lc Hne).
    rewrite (@useGeneratedPrivkey_click_loaded _ (privateKey keys));
      [now split | exact Gsk3 | exact Hsk]. }
  destruct E4 as (Dsk & Dp).
  (* the decrypt button *)
  specialize (Hdec w3').
  destruct (decryptMessage (privateKey keys) package w3')
    as [r w5] eqn:Hrun. cbn [fst] in Hdec. subst r.
  assert (E5 : decryptedText_value (decryptPanel a5) = through_utf8 m
               /\ decryptedOutput_hidden (decryptPanel a5) = false
               /\ decryptStatus (decryptPanel a5)
                  = Some (("✓ Decrypted in " ++ elapsed3 ++ "s!")%string,
                          success)).
  { subst a5. unfold decryptBtn_click_on.
    rewrite (@decryptBtn_click_ok elapsed3 (decryptPanel a4) w3'
               (through_utf8 m) w5).
    - repeat split.
    - now rewrite Dsk, Tsk.
    - now rewrite Dp, Tp.
    - now rewrite Dsk, Dp, Tsk, Tp. }
  destruct E5 as (Ht & Hh & Hs).
  split; [exact Cv|]. split; [exact Ht|]. split; [|now split].
  intros Hw Hbom. rewrite Ht. now apply through_utf8_well_formed.
Qed.

End Buttons.

(* ================================================================== *)
(** * The buttons, on the stand-ins *)
(* ================================================================== *)

Section PageOnTheStandIns.

#[local] Existing Instance Toy.engine.
#[local] Existing Instance Toy.kem.
#[local] Existing Instance Toy.subtle.

Lemma encryptBtn_click_success_witness :
  let a' := fst (encryptBtn_click Pages.error_text "0.01"
                   (Pages.typed Samples.publicKey64 (js "hi")) Toy.world) in
  exists package,
    lastCiphertext a' = Some package
    /\ ciphertext_value (encryptPanel a') = package
    /\ ciphertextSize_text (encryptPanel a') = "(70 B)"%string.
Proof.
  intros a'.
  destruct (@encryptBtn_click_success Toy.engine Toy.kem Toy.subtle Pages.error_text
              "0.01" (Pages.typed Samples.publicKey64 (js "hi")) Toy.world
              _ _ eq_refl eq_refl eq_refl)
    as (kemCt & sealed & Hp & _ & Hl & Hc & Hs & _).
  eexists. split; [exact Hl|]. split; [exact Hc|]. reflexivity.
Defined.

Lemma encryptBtn_click_failure_witness :
  let a' := fst (encryptBtn_click Pages.error_text "0.01"
                   (Pages.typed (js "!!") (js "hi")) Toy.world) in
  encryptStatus (encryptPanel a')
  = Some ("✗ Error: The string is not correctly encoded."%string,
          error_status)
  /\ console (decryptPanel a')
     = [("Encryption error:"%string, InvalidCharacterError)]
  /\ lastCiphertext a' = None.
Proof.
  intros a'.
  destruct (@encryptBtn_click_failure Toy.engine Toy.kem Toy.subtle Pages.error_text
              "0.01" (Pages.typed (js "!!") (js "hi")) Toy.world
              InvalidCharacterError Toy.world eq_refl eq_refl eq_refl)
    as (_ & Hs & Hc & Hl & _).
  split; [exact Hs|]. split; [exact Hc | exact Hl].
Defined.

Lemma encryptBtn_click_calls_witness :
  snd (encryptBtn_click Pages.error_text "0.01"
         (Pages.typed (js "  ") (js "hi")) Toy.world) = Toy.world
  /\ exists later,
      calls (snd (encryptBtn_click Pages.error_text "0.01"
                    (Pages.typed Samples.publicKey64 (js " ")) Toy.world))
      = call_mceliece_encrypt [x03; x02; x01; x00] :: later.
Proof.
  split.
  - apply (proj1 (@encryptBtn_click_calls Toy.engine Toy.kem Toy.subtle
                    Pages.error_text "0.01" (Pages.typed (js "  ") (js "hi"))
                    Toy.world)).
    left. reflexivity.
  - apply (proj2 (@encryptBtn_click_calls Toy.engine Toy.kem Toy.subtle
                    Pages.error_text "0.01"
                    (Pages.typed Samples.publicKey64 (js " ")) Toy.world)
             [x03; x02; x01; x00]).
    + discriminate.
    + discriminate.
    + reflexivity.
Defined.

Lemma buttons_released_witness :
  encryptBtn_loading
    (encryptPanel
       (fst (encryptBtn_click Pages.error_text "0.01"
               (Pages.typed (js "!!") (js "hi")) Toy.world))) = false.
Proof.
  apply (proj1 (proj2 (@buttons_released Toy.engine Toy.kem Toy.subtle Pages.error_text
                         "0.01" (Pages.typed (js "!!") (js "hi"))
                         Toy.world))).
  reflexivity.
Defined.

Lemma page_round_trip_witness :
  let a1 := fst (generateBtn_click Pages.error_text "0.1" fresh_page
                   Toy.world) in
  let w1 := snd (generateBtn_click Pages.error_text "0.1" fresh_page
                   Toy.world) in
  let a2 := on_encryptPanel (set_plaintext_value (js " hi "))
              (useGeneratedPubkey_click a1) in
  let a3 := fst (encryptBtn_click Pages.error_text "0.01" a2 w1) in
  let w3 := snd (encryptBtn_click Pages.error_text "0.01" a2 w1) in
  let a4 := useGeneratedPrivkey_click (useEncryptedCiphertext_click a3) in
  let a5 := fst (decryptBtn_click_on "0.02" a4 w3) in
  decryptedText_value (decryptPanel a5) = js " hi ".
Proof.
  intros a1 w1 a2 a3 w3 a4 a5.
  destruct (@page_round_trip Toy.engine Toy.kem Toy.subtle Pages.error_text
              "0.1" "0.01" "0.02" fresh_page Toy.world _ _ (js " hi ")
              Toy_kem_contract Toy_subtle_contract eq_refl)
    as (_ & H).
  - discriminate.
  - discriminate.
  - repeat constructor; unfold code_unit; lia.
  - discriminate.
  - vm_compute in H. destruct H as (_ & _ & H & _).
    vm_compute. exact (H eq_refl eq_refl).
Defined.

Lemma encryptMessage_anatomy_witness :
  exists package w',
    encryptMessage Samples.publicKey64 (js "hi") Toy.world = (Ok package, w')
    /\ exists kemCt sealed,
        base64ToArray package
        = Ok (be32_bytes (len kemCt) ++ kemCt ++ fresh_nonce Toy.world
              ++ sealed)
        /\ len package = 4 * ((4 + len kemCt + 12 + len sealed + 2) / 3).
Proof.
  destruct (encryptMessage Samples.publicKey64 (js "hi") Toy.world)
    as [[package|e] w'] eqn:Henc; [|vm_compute in Henc; discriminate].
  exists package, w'. split; [reflexivity|].
  destruct (@encryptMessage_anatomy Toy.engine Toy.kem Toy.subtle
              Samples.publicKey64 (js "hi") Toy.world package w' Henc)
    as (publicKey & kemCt & secret & aesKey & sealed & _ & _ & _ & _ & Hb
        & Hl).
  exists kemCt, sealed. split; assumption.
Defined.

Lemma decryptMessage_anatomy_witness :
  exists text w',
    decryptMessage Samples.privateKey64 (Samples.package_of Samples.garbled)
      Toy.world = (Ok text, w')
    /\ exists envelope privateKey secret,
        unpackageCiphertext (Samples.package_of Samples.garbled)
        = Ok envelope
        /\ calls w'
           = calls Toy.world
             ++ [call_mceliece_decrypt (kemCiphertext envelope) privateKey;
                 call_importKey secret usage_decrypt;
                 call_subtle_decrypt (iv envelope) (encryptedData envelope)].
Proof.
  destruct (decryptMessage Samples.privateKey64
              (Samples.package_of Samples.garbled) Toy.world)
    as [[text|e] w'] eqn:Hdec; [|vm_compute in Hdec; discriminate].
  exists text, w'. split; [reflexivity|].
  destruct (@decryptMessage_anatomy Toy.kem Toy.subtle Samples.privateKey64
              (Samples.package_of Samples.garbled) Toy.world text w' Hdec)
    as (envelope & privateKey & secret & aesKey & data & Hu & _ & _ & _
        & _ & _ & Hc).
  exists envelope, privateKey, secret. split; assumption.
Defined.

Lemma white_space_is_ignored_witness :
  decryptMessage (js "AAEC Aw==") (js " AAAA 8A== ") Toy.world
  = decryptMessage Samples.privateKey64 Samples.truncated64 Toy.world.
Proof.
  apply (proj2 (@white_space_is_ignored Toy.engine Toy.kem Toy.subtle
                  (js "AAEC Aw==") Samples.privateKey64
                  (js " AAAA 8A== ") Samples.truncated64 [] Toy.world
                  eq_refl eq_refl)).
Defined.

End PageOnTheStandIns.
